(** * The scan-and-relate pipeline of [src/scanner.ts]

    A shallow embedding of the scanner of the visualizer: the front-matter
    parser, the body extractor, the list-field normaliser, the three entity
    scanners, the relationship engine, the scope merger and the orchestrator.

    JavaScript strings are sequences of UTF-16 code units; they are modelled
    as [list N].  The regular expressions of the source are kept as syntax
    trees and run by a backtracking matcher that follows the continuation
    semantics that ECMA-262 gives to patterns. *)

From stdpp Require Import base option list gmap sets strings.
From Stdlib Require Import NArith ZArith Lia.

Open Scope N_scope.
Open Scope nat_scope.
Open Scope list_scope.

(** ** Code units and string literals *)

Abbreviation jsstring := (list N).

(** An ASCII literal as a JavaScript string. *)
Definition str (s : string) : jsstring :=
  map Ascii.N_of_ascii (String.list_ascii_of_string s).

Definition LF : N := 10%N.
Definition HYPHEN : N := 45%N.
Definition COMMA : N := 44%N.
Definition COLON : N := 58%N.
Definition DQUOTE : N := 34%N.
Definition SQUOTE : N := 39%N.

(** [WhiteSpace] and [LineTerminator] of ECMA-262: the class [\s] of a
    regular expression and the code units removed by [String.prototype.trim]. *)
Definition isLineTerminator (c : N) : bool :=
  (c =? 10)%N || (c =? 13)%N || (c =? 0x2028)%N || (c =? 0x2029)%N.

Definition isSpace (c : N) : bool :=
  (c =? 9)%N || (c =? 10)%N || (c =? 11)%N || (c =? 12)%N || (c =? 13)%N
  || (c =? 32)%N || (c =? 0xA0)%N || (c =? 0x1680)%N
  || ((0x2000 <=? c)%N && (c <=? 0x200A)%N)
  || (c =? 0x2028)%N || (c =? 0x2029)%N || (c =? 0x202F)%N
  || (c =? 0x205F)%N || (c =? 0x3000)%N || (c =? 0xFEFF)%N.

(** The class [\w]: ASCII letters, digits and the underscore. *)
Definition isWord (c : N) : bool :=
  ((65 <=? c)%N && (c <=? 90)%N) || ((97 <=? c)%N && (c <=? 122)%N)
  || ((48 <=? c)%N && (c <=? 57)%N) || (c =? 95)%N.

(** [.] without the [s] flag, and with it. *)
Definition dot (c : N) : bool := negb (isLineTerminator c).
Definition dotAll (c : N) : bool := true.

Definition isChar (c : N) (d : N) : bool := (d =? c)%N.

(** Case folding of a pattern character under the [i] flag without the [u]
    flag (the operation Canonicalize of ECMA-262): a code unit is compared through
    its upper case, except that a code unit of 128 or more never folds to
    one below 128.  For a pattern character that is ASCII or a Hangul
    syllable, the code units that fold onto it are itself and, for an ASCII
    letter, its other case. *)
Definition asciiUpper (c : N) : N :=
  if ((97 <=? c)%N && (c <=? 122)%N) then (c - 32)%N else c.

Definition isNoCase (c : N) (d : N) : bool :=
  (asciiUpper d =? asciiUpper c)%N.

(** ** String operations of the standard library of JavaScript *)

Fixpoint dropWhile {A} (p : A → bool) (l : list A) : list A :=
  match l with
  | [] => []
  | a :: l' => if p a then dropWhile p l' else l
  end.

Fixpoint takeWhile {A} (p : A → bool) (l : list A) : list A :=
  match l with
  | [] => []
  | a :: l' => if p a then a :: takeWhile p l' else []
  end.

Definition trimStart (s : jsstring) : jsstring := dropWhile isSpace s.
Definition trimEnd (s : jsstring) : jsstring :=
  reverse (dropWhile isSpace (reverse s)).
(** [s.trim()] *)
Definition trim (s : jsstring) : jsstring := trimEnd (trimStart s).

(** [s.split(c)] for a separator of one code unit: never the empty list. *)
Fixpoint split (sep : N) (s : jsstring) : list jsstring :=
  match s with
  | [] => [[]]
  | c :: s' =>
      if (c =? sep)%N then [] :: split sep s'
      else match split sep s' with
           | l :: ls => (c :: l) :: ls
           | [] => [[c]]
           end
  end.

(** [lines.join("\n")], used to write documents down line by line. *)
Fixpoint joinLF (ls : list jsstring) : jsstring :=
  match ls with
  | [] => []
  | [l] => l
  | l :: ls' => l ++ LF :: joinLF ls'
  end.

Definition doc (ls : list string) : jsstring := joinLF (map str ls).

(** [s.startsWith(c)] and [s.endsWith(c)] for a string [c] of one code unit. *)
Definition startsWithChar (c : N) (s : jsstring) : bool :=
  match s with
  | d :: _ => (d =? c)%N
  | [] => false
  end.

Definition endsWithChar (c : N) (s : jsstring) : bool :=
  startsWithChar c (reverse s).

(** [s.startsWith(p)] *)
Fixpoint startsWith (p s : jsstring) : bool :=
  match p, s with
  | [], _ => true
  | c :: p', d :: s' => (d =? c)%N && startsWith p' s'
  | _ :: _, [] => false
  end.

(** [s.slice(a, b)]: negative indices count from the end, and both are
    clamped to the string. *)
Definition sliceIndex (len : nat) (i : Z) : nat :=
  if (i <? 0)%Z then Z.to_nat (Z.max (Z.of_nat len + i) 0)
  else Nat.min (Z.to_nat i) len.

Definition slice (a b : Z) (s : jsstring) : jsstring :=
  let from := sliceIndex (length s) a in
  let to := sliceIndex (length s) b in
  take (to - from) (drop from s).

(** [s.includes(p)] *)
Fixpoint includes (p s : jsstring) : bool :=
  startsWith p s ||
  match s with
  | [] => false
  | _ :: s' => includes p s'
  end.

(** [s.replace(p, r)] for a string pattern [p]: the first occurrence only. *)
Fixpoint replaceFirst (p r s : jsstring) : jsstring :=
  if startsWith p s then r ++ drop (length p) s
  else match s with
       | [] => []
       | c :: s' => c :: replaceFirst p r s'
       end.

(** ** Regular expressions *)

Inductive regex : Type :=
| Empty
| Char (p : N → bool)
| Seq (r1 r2 : regex)
| Alt (r1 r2 : regex)
| Star (greedy : bool) (r : regex)
| Group (n : nat) (r : regex)
| Bol
| Eol
| Lookahead (r : regex).

Declare Scope regex_scope.
Delimit Scope regex_scope with re.
Bind Scope regex_scope with regex.
Infix "⋅" := Seq (at level 41, right associativity) : regex_scope.
Infix "∣" := Alt (at level 42, right associativity) : regex_scope.

(** A literal string, [r+] and [r?]. *)
Fixpoint Lit (f : N → N → bool) (s : jsstring) : regex :=
  match s with
  | [] => Empty
  | c :: s' => Seq (Char (f c)) (Lit f s')
  end.

Definition Plus (greedy : bool) (r : regex) : regex := Seq r (Star greedy r).
Definition Opt (r : regex) : regex := Alt r Empty.

(** The state of a match: the index reached, the input that remains from
    there, and the captures so far (slot [n] for group [n]). *)
Record mstate : Type := MState {
  pos : nat;
  rest : jsstring;
  caps : list (option jsstring)
}.

Definition advance (x : mstate) : mstate :=
  {| pos := S (pos x); rest := tail (rest x); caps := caps x |}.

Definition capture (n : nat) (x y : mstate) : mstate :=
  {| pos := pos y; rest := rest y;
     caps := <[n := Some (take (pos y - pos x) (rest x))]> (caps y) |}.

Definition withCaps (x y : mstate) : mstate :=
  {| pos := pos x; rest := rest x; caps := caps y |}.

(** The matcher, with its continuation [k].  An iteration of a star that
    consumes nothing is rejected, as in RepeatMatcher.  The captures are not
    reset at each iteration of a star: no pattern of the scanner has a group
    under a star. *)
Fixpoint rmatch (r : regex) (x : mstate) (k : mstate → option mstate)
  {struct r} : option mstate :=
  match r with
  | Empty => k x
  | Char p =>
      match rest x with
      | c :: _ => if p c then k (advance x) else None
      | [] => None
      end
  | Seq r1 r2 => rmatch r1 x (λ y, rmatch r2 y k)
  | Alt r1 r2 =>
      match rmatch r1 x k with
      | Some z => Some z
      | None => rmatch r2 x k
      end
  | Star greedy r1 =>
      (fix loop (fuel : nat) (x : mstate) {struct fuel} : option mstate :=
         match fuel with
         | 0 => k x
         | S fuel' =>
             if greedy then
               match rmatch r1 x (λ y,
                       if decide (length (rest y) < length (rest x))
                       then loop fuel' y else None) with
               | Some z => Some z
               | None => k x
               end
             else
               match k x with
               | Some z => Some z
               | None =>
                   rmatch r1 x (λ y,
                     if decide (length (rest y) < length (rest x))
                     then loop fuel' y else None)
               end
         end) (length (rest x)) x
  | Group n r1 => rmatch r1 x (λ y, k (capture n x y))
  | Bol => if decide (pos x = 0) then k x else None
  | Eol => match rest x with [] => k x | _ :: _ => None end
  | Lookahead r1 =>
      match rmatch r1 x Some with
      | Some y => k (withCaps x y)
      | None => None
      end
  end.

(** The result of [s.match(r)] without the [g] flag: where the leftmost
    match starts, what it covers, and its groups. *)
Record rmatch_result : Type := MatchResult {
  index : nat;
  matched : jsstring;
  groups : list (option jsstring)
}.

Definition initial (ngroups i : nat) (s : jsstring) : mstate :=
  {| pos := i; rest := s; caps := replicate (S ngroups) None |}.

Fixpoint search (r : regex) (ngroups i : nat) (s : jsstring)
  : option rmatch_result :=
  match rmatch r (initial ngroups i s) Some with
  | Some y =>
      Some {| index := i; matched := take (pos y - i) s; groups := caps y |}
  | None =>
      match s with
      | [] => None
      | _ :: s' => search r ngroups (S i) s'
      end
  end.

Definition regexMatch (r : regex) (ngroups : nat) (s : jsstring)
  : option rmatch_result :=
  search r ngroups 0 s.

(** [m[n]] of a match result; an unset group reads as the empty string here,
    the groups of the patterns below are all set by a match. *)
Definition group (n : nat) (m : rmatch_result) : jsstring :=
  default [] (mjoin (groups m !! n)).

(** [s.replace(r, t)] without the [g] flag. *)
Definition regexReplace (r : regex) (ngroups : nat) (t s : jsstring)
  : jsstring :=
  match regexMatch r ngroups s with
  | Some m =>
      take (index m) s ++ t ++ drop (index m + length (matched m)) s
  | None => s
  end.

(** ** Values of type [any] *)

(** The JavaScript values that flow through the scanner.  A parsed mapping
    holds strings and arrays of strings only; a key that is missing reads as
    [undefined]. *)
Inductive jsvalue : Type :=
| JUndefined
| JNull
| JBool (b : bool)
| JNumber (z : Z)
| JString (s : jsstring)
| JArray (l : list jsstring).

(** ToBoolean *)
Definition truthy (v : jsvalue) : bool :=
  match v with
  | JUndefined | JNull => false
  | JBool b => b
  | JNumber z => negb (z =? 0)%Z
  | JString s => negb (bool_decide (s = []))
  | JArray _ => true
  end.

(** [v || d] *)
Definition jsOr (v d : jsvalue) : jsvalue := if truthy v then v else d.

(** A [Record<string, any>] built from the literal [{}]: its own properties.
    Assigning to the key [__proto__] creates no own property (the setter
    inherited from [Object.prototype] runs instead), and none of the keys
    the scanner reads is a property of [Object.prototype] or of an array. *)
Abbreviation jsobject := (gmap jsstring jsvalue).

Definition setProp (k : jsstring) (v : jsvalue) (o : jsobject) : jsobject :=
  if decide (k = str "__proto__") then o else <[k := v]> o.

Definition getProp (k : jsstring) (o : jsobject) : jsvalue :=
  default JUndefined (o !! k).

(** ** The front-matter parser *)

(** The pattern of [yamlPattern], flag [s], token by token:
    [^ --- \s* \n ( .*? ) \n --- \s* \n]. *)
Definition yamlPattern : regex :=
  (Bol ⋅ Lit isChar (str "---") ⋅ Star true (Char isSpace) ⋅ Char (isChar LF)
   ⋅ Group 1 (Star false (Char dotAll))
   ⋅ Char (isChar LF) ⋅ Lit isChar (str "---") ⋅ Star true (Char isSpace)
   ⋅ Char (isChar LF))%re.

(** The pattern of [listMatch], token by token: [^ \s+ - \s+ ( .+ ) $]. *)
Definition listItemPattern : regex :=
  (Bol ⋅ Plus true (Char isSpace) ⋅ Char (isChar HYPHEN)
   ⋅ Plus true (Char isSpace) ⋅ Group 1 (Plus true (Char dot)) ⋅ Eol)%re.

(** The pattern of [kvMatch], token by token: [^ ( \w+ ) : \s* ( .* ) $]. *)
Definition keyValuePattern : regex :=
  (Bol ⋅ Group 1 (Plus true (Char isWord)) ⋅ Char (isChar COLON)
   ⋅ Star true (Char isSpace) ⋅ Group 2 (Star true (Char dot)) ⋅ Eol)%re.

(** The variables of the loop of [parseYamlFrontmatter]. *)
Record pstate : Type := PState {
  result : jsobject;
  currentKey : option jsstring;
  currentList : list jsstring
}.

(** [currentKey] as a condition: not [null] and not the empty string. *)
Definition keySet (k : option jsstring) : bool :=
  match k with
  | Some (_ :: _) => true
  | _ => false
  end.

(** The condition [currentKey && currentList.length > 0], with the key and
    the list it lets through. *)
Definition pendingList (st : pstate) : option (jsstring * list jsstring) :=
  match currentKey st, currentList st with
  | Some k, _ :: _ => if keySet (Some k) then Some (k, currentList st) else None
  | _, _ => None
  end.

Definition unquote (value : jsstring) : jsstring :=
  if (startsWithChar DQUOTE value && endsWithChar DQUOTE value)
     || (startsWithChar SQUOTE value && endsWithChar SQUOTE value)
  then slice 1 (-1) value
  else value.

(** [if (currentKey && currentList.length > 0) { result[currentKey] =
    currentList; currentList = []; }] *)
Definition commitPending (st : pstate) : pstate :=
  match pendingList st with
  | Some (k, l) =>
      {| result := setProp k (JArray l) (result st);
         currentKey := currentKey st;
         currentList := [] |}
  | None => st
  end.

(** One turn of the loop over the lines of the block. *)
Definition parseLine (st : pstate) (line : jsstring) : pstate :=
  if bool_decide (trim line = []) then st
  else
    match regexMatch listItemPattern 1 line, keySet (currentKey st) with
    | Some listMatch, true =>
        {| result := result st;
           currentKey := currentKey st;
           currentList := currentList st ++ [trim (group 1 listMatch)] |}
    | _, _ =>
        match regexMatch keyValuePattern 2 line with
        | Some kvMatch =>
            let st1 := commitPending st in
            let key := group 1 kvMatch in
            let value := trim (group 2 kvMatch) in
            if bool_decide (value = []) then
              {| result := result st1;
                 currentKey := Some key;
                 currentList := currentList st1 |}
            else
              {| result := setProp key (JString (unquote value)) (result st1);
                 currentKey := None;
                 currentList := currentList st1 |}
        | None => st
        end
    end.

(** The variables of the loop before its first turn. *)
Definition pstate0 : pstate :=
  {| result := ∅; currentKey := None; currentList := [] |}.

(** [if (currentKey && currentList.length > 0) { result[currentKey] =
    currentList; }] after the loop. *)
Definition finish (st : pstate) : jsobject :=
  match pendingList st with
  | Some (k, l) => setProp k (JArray l) (result st)
  | None => result st
  end.

(** The loop and the commit of the last list, on the text between the two
    delimiter lines. *)
Definition parseBlock (yamlContent : jsstring) : jsobject :=
  finish (foldl parseLine pstate0 (split LF yamlContent)).

Definition parseYamlFrontmatter (content : jsstring) : jsobject :=
  match regexMatch yamlPattern 1 content with
  | None => ∅
  | Some m => parseBlock (group 1 m)
  end.

(** ** The body extractor *)

(** The pattern of [extractBodyContent], flag [s], token by token:
    [^ --- \s* \n .*? \n --- \s* \n]. *)
Definition yamlBlockPattern : regex :=
  (Bol ⋅ Lit isChar (str "---") ⋅ Star true (Char isSpace) ⋅ Char (isChar LF)
   ⋅ Star false (Char dotAll)
   ⋅ Char (isChar LF) ⋅ Lit isChar (str "---") ⋅ Star true (Char isSpace)
   ⋅ Char (isChar LF))%re.

Definition extractBodyContent (content : jsstring) : jsstring :=
  trim (regexReplace yamlBlockPattern 0 [] content).

(** ** The list-field normaliser *)

Definition parseListField (value : jsvalue) : list jsstring :=
  match value with
  | JArray l => l
  | JString s =>
      filter (λ s, s ≠ []) (map trim (split COMMA s))
  | _ => []
  end.

(** ** The graph *)

Inductive scope : Type := Local | Global.
Inductive edgeType : Type := Uses | Calls.

(** The string fields that are filled from the parsed mapping have the type
    [any] at run time ([Record<string, any>]): they are kept as [jsvalue]. *)
Record AgentNode : Type := {
  agentId : jsstring;
  agentName : jsvalue;
  agentDescription : jsvalue;
  tools : list jsstring;
  model : jsvalue;
  subagents : list jsstring;
  skills : list jsstring;
  agentFilePath : jsstring;
  agentScope : scope;
  systemPrompt : jsstring
}.

Record SkillNode : Type := {
  skillId : jsstring;
  skillName : jsvalue;
  skillDescription : jsvalue;
  triggers : list jsstring;
  skillFilePath : jsstring;
  skillScope : scope;
  hasScripts : bool;
  hasWebapp : bool
}.

Record CommandNode : Type := {
  commandId : jsstring;
  commandName : jsstring;
  commandDescription : jsvalue;
  argumentHint : jsvalue;
  commandFilePath : jsstring;
  commandScope : scope
}.

(** The interface [GraphNode] that the three kinds of node extend. *)
Class GraphNode (T : Type) : Type := {
  nodeId : T → jsstring;
  nodeName : T → jsvalue;
  nodeFilePath : T → jsstring;
  nodeScope : T → scope
}.

#[export] Instance AgentNode_GraphNode : GraphNode AgentNode :=
  {| nodeId := agentId; nodeName := agentName;
     nodeFilePath := agentFilePath; nodeScope := agentScope |}.
#[export] Instance SkillNode_GraphNode : GraphNode SkillNode :=
  {| nodeId := skillId; nodeName := skillName;
     nodeFilePath := skillFilePath; nodeScope := skillScope |}.
#[export] Instance CommandNode_GraphNode : GraphNode CommandNode :=
  {| nodeId := commandId; nodeName := λ c, JString (commandName c);
     nodeFilePath := commandFilePath; nodeScope := commandScope |}.

Inductive node : Type :=
| NAgent (a : AgentNode)
| NSkill (s : SkillNode)
| NCommand (c : CommandNode).

#[export] Instance node_GraphNode : GraphNode node :=
  {| nodeId := λ n, match n with
                    | NAgent a => nodeId a
                    | NSkill s => nodeId s
                    | NCommand c => nodeId c
                    end;
     nodeName := λ n, match n with
                      | NAgent a => nodeName a
                      | NSkill s => nodeName s
                      | NCommand c => nodeName c
                      end;
     nodeFilePath := λ n, match n with
                          | NAgent a => nodeFilePath a
                          | NSkill s => nodeFilePath s
                          | NCommand c => nodeFilePath c
                          end;
     nodeScope := λ n, match n with
                       | NAgent a => nodeScope a
                       | NSkill s => nodeScope s
                       | NCommand c => nodeScope c
                       end |}.

Record GraphEdge : Type := {
  source : jsstring;
  target : jsstring;
  type : edgeType
}.

Record GraphMetadata : Type := {
  generatedAt : jsstring;
  projectPath : jsstring;
  projectName : jsstring;
  agentCount : nat;
  skillCount : nat;
  commandCount : nat;
  edgeCount : nat;
  globalAgentCount : nat;
  globalSkillCount : nat;
  globalCommandCount : nat
}.

Record ScanOptions : Type := {
  includeLocal : option bool;
  includeGlobal : option bool
}.

Record GraphData : Type := {
  nodes : list node;
  edges : list GraphEdge;
  metadata : GraphMetadata
}.

(** ** The scope merger *)

Definition mergeNodes {T} `{GraphNode T} (localNodes globalNodes : list T)
  : list T :=
  let localIds : gset jsstring := list_to_set (map nodeId localNodes) in
  let uniqueGlobalNodes :=
    filter (λ n, nodeId n ∉ localIds) globalNodes in
  localNodes ++ uniqueGlobalNodes.

(** ** The edge collector of the relationship engine *)

(** The two variables that [addEdge] closes over. *)
Record collector : Type := {
  collected : list GraphEdge;
  addedEdges : gset jsstring
}.

Definition emptyCollector : collector :=
  {| collected := []; addedEdges := ∅ |}.

Definition edgeKey (source target : jsstring) : jsstring :=
  source ++ str "->" ++ target.

Definition addEdge (source target : jsstring) (type : edgeType)
  (c : collector) : collector :=
  if decide (edgeKey source target ∈ addedEdges c) then c
  else {| collected := collected c
                       ++ [{| source := source; target := target;
                              type := type |}];
          addedEdges := {[edgeKey source target]} ∪ addedEdges c |}.

(** ** Promises that reject *)

(** What can reject the promise of a scan: an [Error] that the scanner
    makes itself ([new Error(message)]), the [TypeError] of a method call on
    a value that has no such method, and an error of Node's [fs] module,
    with its code ([ENOTDIR], [EACCES], [EEXIST], ...). *)
Inductive jserror : Type :=
| Error (message : jsstring)
| TypeError
| SystemError (code : jsstring).

Inductive outcome (A : Type) : Type :=
| Ok (a : A)
| Throw (e : jserror).
Arguments Ok {A} a.
Arguments Throw {A} e.

(** [await] in sequence: the first promise that rejects rejects the
    whole. *)
#[export] Instance outcome_bind : MBind outcome :=
  λ A B f o, match o with Ok a => f a | Throw e => Throw e end.

(** A call of [fs] that is awaited outside every [try] block: the value it
    resolves to, or the code of the error it rejects with. *)
Inductive fsresult (A : Type) : Type :=
| Resolved (a : A)
| Rejected (code : jsstring).
Arguments Resolved {A} a.
Arguments Rejected {A} code.

Definition fsCall {A} (r : fsresult A) : outcome A :=
  match r with
  | Resolved a => Ok a
  | Rejected code => Throw (SystemError code)
  end.

(** ** The host: Node's [path] and [fs] modules, [glob], the environment *)

Record Dirent : Type := {
  direntName : jsstring;
  direntIsDirectory : bool;
  direntIsSymbolicLink : bool
}.

(** What the scanner asks of its host.  A file-system call that is made
    inside a [try] block and rejects is [None] (or [false] for [access]);
    [readdir], [mkdir] and [writeFile] are awaited outside every [try]
    block and tell how they reject; [glob] resolves.  The text that
    [writeFile] is given is [JSON.stringify(result, null, 2)], a function of
    the graph: the graph stands for it. *)
Record Host : Type := {
  toLowerCase : jsstring → jsstring;
  pathJoin : jsstring → jsstring → jsstring;
  pathRelative : jsstring → jsstring → jsstring;
  pathStem : jsstring → jsstring;
  pathDirname : jsstring → jsstring;
  pathBasename : jsstring → jsstring;
  pathResolve : jsstring → jsstring;
  env : jsstring → jsvalue;
  access : jsstring → bool;
  globMd : jsstring → list jsstring;
  lstatIsSymbolicLink : jsstring → option bool;
  realpath : jsstring → option jsstring;
  statIsDirectory : jsstring → option bool;
  readFile : jsstring → option jsstring;
  readdir : jsstring → fsresult (list Dirent);
  mkdir : jsstring → fsresult ();
  writeFile : jsstring → GraphData → fsresult ();
  nowISO : jsstring
}.

(** ** The entity scanners *)

(** The pattern of the trigger section, flags [i] and [s], token by token:
    [## \s* (?: Triggers? | 사용 \s* 시점 ) .*? \n ( .*? ) (?= \n## | \Z )].
    Without the [u] flag, [\Z] is an identity escape: the letter Z. *)
Definition triggerPattern : regex :=
  (Lit isNoCase (str "##") ⋅ Star true (Char isSpace)
   ⋅ ((Lit isNoCase (str "Trigger") ⋅ Opt (Char (isNoCase 115%N)))
      ∣ (Lit isNoCase [0xC0AC; 0xC6A9]%N ⋅ Star true (Char isSpace)
         ⋅ Lit isNoCase [0xC2DC; 0xC810]%N))
   ⋅ Star false (Char dotAll) ⋅ Char (isNoCase LF)
   ⋅ Group 1 (Star false (Char dotAll))
   ⋅ Lookahead (Lit isNoCase (LF :: str "##") ∣ Char (isNoCase 90%N)))%re.

(** The pattern that strips the hyphen of a trigger line: [^ - \s*]. *)
Definition leadingHyphenPattern : regex :=
  (Bol ⋅ Char (isChar HYPHEN) ⋅ Star true (Char isSpace))%re.

(** The trigger extraction of [scanSkills]. *)
Definition extractTriggers (body : jsstring) : list jsstring :=
  match regexMatch triggerPattern 1 body with
  | Some triggerMatch =>
      let triggerLines := split LF (trim (group 1 triggerMatch)) in
      take 5
        (map (λ line, trim (regexReplace leadingHyphenPattern 0 [] line))
           (filter (λ line, startsWithChar HYPHEN (trim line) = true)
              triggerLines))
  | None => []
  end.

(** The system prompt of [scanAgents]. *)
Definition truncatePrompt (body : jsstring) : jsstring :=
  if decide (500 < length body) then slice 0 500 body ++ str "..."
  else body.

Section Scanner.
Context (h : Host).

Definition resolveSymlink (filePath : jsstring) : jsstring :=
  match lstatIsSymbolicLink h filePath with
  | Some true => default filePath (realpath h filePath)
  | Some false => filePath
  | None => filePath
  end.

(** The node that [scanAgents] builds from the text of one file. *)
Definition agentOfFile (sc : scope) (basePath agentsDir file : jsstring)
  (content : jsstring) : AgentNode :=
  let filePath := pathJoin h agentsDir file in
  let metadata := parseYamlFrontmatter content in
  let body := extractBodyContent content in
  let basename := pathStem h file in
  let relativePath :=
    match sc with
    | Global => str "~/.claude/agents/" ++ file
    | Local => pathRelative h basePath filePath
    end in
  {| agentId := str "agent:" ++ basename;
     agentName := jsOr (getProp (str "name") metadata) (JString basename);
     agentDescription :=
       jsOr (getProp (str "description") metadata) (JString []);
     tools := parseListField (getProp (str "tools") metadata);
     model := jsOr (getProp (str "model") metadata) (JString []);
     subagents := parseListField (getProp (str "subagents") metadata);
     skills := parseListField (getProp (str "skills") metadata);
     agentFilePath := relativePath;
     agentScope := sc;
     systemPrompt := truncatePrompt body |}.

(** A file that cannot be read is warned about and skipped. *)
Definition scanAgents (claudePath : jsstring) (sc : scope)
  (basePath : jsstring) : list AgentNode :=
  let agentsDir := pathJoin h claudePath (str "agents") in
  if access h agentsDir then
    omap (λ file,
            let filePath := pathJoin h agentsDir file in
            let realPath := resolveSymlink filePath in
            agentOfFile sc basePath agentsDir file <$> readFile h realPath)
         (globMd h agentsDir)
  else [].

Definition skillOfFile (sc : scope) (basePath skillsDir : jsstring)
  (entryName realSkillDir : jsstring) (content : jsstring) : SkillNode :=
  let skillFile :=
    pathJoin h (pathJoin h skillsDir entryName) (str "SKILL.md") in
  let metadata := parseYamlFrontmatter content in
  let body := extractBodyContent content in
  let relativePath :=
    match sc with
    | Global => str "~/.claude/skills/" ++ entryName ++ str "/SKILL.md"
    | Local => pathRelative h basePath skillFile
    end in
  {| skillId := str "skill:" ++ entryName;
     skillName := jsOr (getProp (str "name") metadata) (JString entryName);
     skillDescription :=
       jsOr (getProp (str "description") metadata) (JString []);
     triggers := extractTriggers body;
     skillFilePath := relativePath;
     skillScope := sc;
     hasScripts := access h (pathJoin h realSkillDir (str "scripts"));
     hasWebapp := access h (pathJoin h realSkillDir (str "webapp")) |}.

Definition scanSkillEntry (sc : scope) (basePath skillsDir : jsstring)
  (entry : Dirent) : option SkillNode :=
  let entryPath := pathJoin h skillsDir (direntName entry) in
  isDir ←
    (if direntIsSymbolicLink entry
     then realPath ← realpath h entryPath; statIsDirectory h realPath
     else Some (direntIsDirectory entry));
  if isDir : bool then
    let realSkillDir := resolveSymlink entryPath in
    let realSkillFile := pathJoin h realSkillDir (str "SKILL.md") in
    if access h realSkillFile then
      skillOfFile sc basePath skillsDir (direntName entry) realSkillDir
        <$> readFile h realSkillFile
    else None
  else None.

(** The listing of the skills directory is awaited outside every [try]
    block: when it rejects, so does [scanSkills]. *)
Definition scanSkills (claudePath : jsstring) (sc : scope)
  (basePath : jsstring) : outcome (list SkillNode) :=
  let skillsDir := pathJoin h claudePath (str "skills") in
  if access h skillsDir then
    match readdir h skillsDir with
    | Resolved entries =>
        Ok (omap (scanSkillEntry sc basePath skillsDir) entries)
    | Rejected code => Throw (SystemError code)
    end
  else Ok [].

Definition commandOfFile (sc : scope) (basePath commandsDir file : jsstring)
  (content : jsstring) : CommandNode :=
  let filePath := pathJoin h commandsDir file in
  let metadata := parseYamlFrontmatter content in
  let basename := pathStem h file in
  let relativePath :=
    match sc with
    | Global => str "~/.claude/commands/" ++ file
    | Local => pathRelative h basePath filePath
    end in
  {| commandId := str "command:" ++ basename;
     commandName := str "/" ++ basename;
     commandDescription :=
       jsOr (getProp (str "description") metadata) (JString []);
     argumentHint :=
       jsOr (getProp (str "argument-hint") metadata) (JString []);
     commandFilePath := relativePath;
     commandScope := sc |}.

Definition scanCommands (claudePath : jsstring) (sc : scope)
  (basePath : jsstring) : list CommandNode :=
  let commandsDir := pathJoin h claudePath (str "commands") in
  if access h commandsDir then
    omap (λ file,
            let filePath := pathJoin h commandsDir file in
            let realPath := resolveSymlink filePath in
            commandOfFile sc basePath commandsDir file
              <$> readFile h realPath)
         (globMd h commandsDir)
  else [].

End Scanner.

(** ** The relationship engine *)

Section Relationships.
Context (h : Host).

(** [v.toLowerCase()] on a value of type [any]: a [TypeError] unless the
    value is a string. *)
Definition lowerCased (v : jsvalue) : option jsstring :=
  match v with
  | JString s => Some (toLowerCase h s)
  | _ => None
  end.

(** A lookup map from the lower-cased display name and the lower-cased id
    without its prefix to the id; a later entry overwrites an earlier one. *)
Definition buildMap {T} `{GraphNode T} (prefix : jsstring)
  (nodes : list T) : option (gmap jsstring jsstring) :=
  foldl (λ acc n,
           m ← acc;
           name ← lowerCased (nodeName n);
           Some (<[toLowerCase h (replaceFirst prefix [] (nodeId n))
                   := nodeId n]> (<[name := nodeId n]> m)))
        (Some ∅) nodes.

(** One name of a [subagents] or [skills] list. *)
Definition declaredEdge (map : gmap jsstring jsstring) (type : edgeType)
  (agent : AgentNode) (c : collector) (name : jsstring) : collector :=
  let key := trim (toLowerCase h name) in
  match map !! key with
  | Some id => if truthy (JString id) then addEdge (agentId agent) id type c
               else c
  | None => c
  end.

Definition declaredEdges (agentMap skillMap : gmap jsstring jsstring)
  (c : collector) (agent : AgentNode) : collector :=
  let c1 := foldl (declaredEdge agentMap Calls agent) c (subagents agent) in
  foldl (declaredEdge skillMap Uses agent) c1 (skills agent).

(** The loops of the content pass.  They run inside the [try] block of
    one agent: when a name is not a string the rest of the block is
    abandoned ([false]) with the edges added so far. *)
Fixpoint mentions {T} `{GraphNode T} (prefix : jsstring)
  (content : jsstring) (agent : AgentNode) (ns : list T) (c : collector)
  : collector * bool :=
  match ns with
  | [] => (c, true)
  | n :: ns' =>
      match lowerCased (nodeName n) with
      | None => (c, false)
      | Some name =>
          let stem := replaceFirst prefix [] (nodeId n) in
          mentions prefix content agent ns'
            (if includes name content || includes stem content
             then addEdge (agentId agent) (nodeId n) Uses c
             else c)
      end
  end.

Definition contentEdges (claudePath : jsstring)
  (skills : list SkillNode) (commands : list CommandNode)
  (c : collector) (agent : AgentNode) : collector :=
  let agentFilePath :=
    pathJoin h (pathDirname h claudePath) (agentFilePath agent) in
  match readFile h agentFilePath with
  | None => c
  | Some text =>
      let content := toLowerCase h text in
      let '(c1, completed) :=
        mentions (str "skill:") content agent skills c in
      if completed
      then fst (mentions (str "command:") content agent commands c1)
      else c1
  end.

(** The two passes over the agents, from the empty collector. *)
Definition collectEdges (agentMap skillMap : gmap jsstring jsstring)
  (agents : list AgentNode) (skills : list SkillNode)
  (commands : list CommandNode) (claudePath : jsstring) : collector :=
  let c1 := foldl (declaredEdges agentMap skillMap) emptyCollector agents in
  foldl (contentEdges claudePath skills commands) c1 agents.

Definition findRelationships (agents : list AgentNode)
  (skills : list SkillNode) (commands : list CommandNode)
  (claudePath : jsstring) : outcome (list GraphEdge) :=
  match buildMap (str "agent:") agents,
        buildMap (str "skill:") skills,
        buildMap (str "command:") commands with
  | Some agentMap, Some skillMap, Some commandMap =>
      Ok (collected
            (collectEdges agentMap skillMap agents skills commands
               claudePath))
  | _, _, _ => Throw TypeError
  end.

(** ** The orchestrator *)

Definition getGlobalClaudePath : jsstring :=
  let home := jsOr (jsOr (env h (str "HOME")) (env h (str "USERPROFILE")))
                   (JString []) in
  pathJoin h (match home with JString s => s | _ => [] end)
           (str ".claude").

(** The three checks on the roots, in the order of the source: the first
    that fires gives the message of the error. *)
Definition checkRoots (project globalClaudePath : jsstring)
  (includeLocal includeGlobal hasLocal hasGlobal : bool)
  : option jsstring :=
  if includeLocal && negb hasLocal && negb includeGlobal then
    Some (str "No .claude folder found in " ++ project)
  else if includeGlobal && negb hasGlobal && negb includeLocal then
    Some (str "No global .claude folder found at " ++ globalClaudePath)
  else if negb hasLocal && negb hasGlobal then
    Some (str "No .claude folder found (local: " ++ project
          ++ str ", global: " ++ globalClaudePath ++ str ")")
  else None.

(** The end of [scanProject]: the directory of the output is made, the
    graph is written, and the call returns. *)
Definition writeOutput (outputPath : jsstring) (result : GraphData)
  : outcome GraphData :=
  let outputDir := pathDirname h outputPath in
  _ ← fsCall (mkdir h outputDir);
  _ ← fsCall (writeFile h outputPath result);
  Ok result.

(** [scanProject].  [Ok result]: the graph [result] has been written to
    [outputPath], and the call returns [result.metadata]. *)
Definition scanProject (projectPath outputPath : jsstring)
  (options : ScanOptions) : outcome GraphData :=
  let includeLocal := default true (includeLocal options) in
  let includeGlobal := default true (includeGlobal options) in
  let project := pathResolve h projectPath in
  let localClaudePath := pathJoin h project (str ".claude") in
  let globalClaudePath := getGlobalClaudePath in
  let hasLocal := access h localClaudePath in
  let hasGlobal := access h globalClaudePath in
  match checkRoots project globalClaudePath includeLocal includeGlobal
                   hasLocal hasGlobal with
  | Some message => Throw (Error message)
  | None =>
      let scanLocal := includeLocal && hasLocal in
      let localAgents :=
        if scanLocal then scanAgents h localClaudePath Local project
        else [] in
      localSkills ←
        (if scanLocal then scanSkills h localClaudePath Local project
         else Ok []);
      let localCommands :=
        if scanLocal then scanCommands h localClaudePath Local project
        else [] in
      let scanGlobal := includeGlobal && hasGlobal in
      let globalAgents :=
        if scanGlobal
        then scanAgents h globalClaudePath Global globalClaudePath
        else [] in
      globalSkills ←
        (if scanGlobal
         then scanSkills h globalClaudePath Global globalClaudePath
         else Ok []);
      let globalCommands :=
        if scanGlobal
        then scanCommands h globalClaudePath Global globalClaudePath
        else [] in
      let agents := mergeNodes localAgents globalAgents in
      let skills := mergeNodes localSkills globalSkills in
      let commands := mergeNodes localCommands globalCommands in
      edges ← findRelationships agents skills commands localClaudePath;
      writeOutput outputPath
        {| nodes := (NAgent <$> agents) ++ (NSkill <$> skills)
                    ++ (NCommand <$> commands);
           edges := edges;
           metadata :=
             {| generatedAt := nowISO h;
                projectPath := project;
                projectName := pathBasename h project;
                agentCount := length localAgents;
                skillCount := length localSkills;
                commandCount := length localCommands;
                edgeCount := length edges;
                globalAgentCount := length globalAgents;
                globalSkillCount := length globalSkills;
                globalCommandCount := length globalCommands |} |}
  end.

End Relationships.

(** ** What a successful run of the matcher means *)

(** [matches r x y]: the pattern [r] can take the match from state [x] to
    state [y].  Every result of [rmatch] is of this form. *)
Inductive matches : regex → mstate → mstate → Prop :=
| M_Empty x : matches Empty x x
| M_Char p c x :
    head (rest x) = Some c → p c = true → matches (Char p) x (advance x)
| M_Seq r1 r2 x y z :
    matches r1 x y → matches r2 y z → matches (Seq r1 r2) x z
| M_AltL r1 r2 x y : matches r1 x y → matches (Alt r1 r2) x y
| M_AltR r1 r2 x y : matches r2 x y → matches (Alt r1 r2) x y
| M_StarStop g r x : matches (Star g r) x x
| M_StarStep g r x y z :
    matches r x y → length (rest y) < length (rest x) →
    matches (Star g r) y z → matches (Star g r) x z
| M_Group n r x y : matches r x y → matches (Group n r) x (capture n x y)
| M_Bol x : pos x = 0 → matches Bol x x
| M_Eol x : rest x = [] → matches Eol x x
| M_Lookahead r x y : matches r x y → matches (Lookahead r) x (withCaps x y).

(** The state after reading [w]. *)
Definition after (w : jsstring) (x : mstate) : mstate :=
  {| pos := pos x + length w; rest := drop (length w) (rest x);
     caps := caps x |}.

(** A pattern without its groups. *)
Fixpoint erase (r : regex) : regex :=
  match r with
  | Seq r1 r2 => Seq (erase r1) (erase r2)
  | Alt r1 r2 => Alt (erase r1) (erase r2)
  | Star g r1 => Star g (erase r1)
  | Group _ r1 => erase r1
  | Lookahead r1 => Lookahead (erase r1)
  | _ => r
  end.

(** Two states at the same place of the same input, and two results of
    that kind. *)
Definition samePlace (x y : mstate) : Prop :=
  pos x = pos y ∧ rest x = rest y.

Definition sameOutcome (o o' : option mstate) : Prop :=
  match o, o' with
  | Some z, Some z' => samePlace z z'
  | None, None => True
  | _, _ => False
  end.

(** ** How the parser reads one line *)

(** A line that the loop takes for a list item (when a key is open), with
    the item it pushes. *)
Definition listItem (line : jsstring) : option jsstring :=
  if bool_decide (trim line = []) then None
  else (λ m, trim (group 1 m)) <$> regexMatch listItemPattern 1 line.

(** A line that the loop takes for the start of a key, with the key and its
    trimmed value. *)
Definition keyLine (line : jsstring) : option (jsstring * jsstring) :=
  if bool_decide (trim line = []) then None
  else (λ m, (group 1 m, trim (group 2 m)))
         <$> regexMatch keyValuePattern 2 line.

(** Two facts that the loop maintains.  The list under construction is
    empty whenever no key is open. *)
Definition listNeedsKey (st : pstate) : Prop :=
  keySet (currentKey st) = false → currentList st = [].

(** The key [k] is neither stored nor open. *)
Definition keyUnseen (k : jsstring) (st : pstate) : Prop :=
  result st !! k = None ∧ currentKey st ≠ Some k.

(** A line that closes a front-matter block when a line feed follows it:
    three hyphens, then white space only. *)
Definition isDelimiterLine (line : jsstring) : bool :=
  match line with
  | 45%N :: 45%N :: 45%N :: w => forallb isSpace w
  | _ => false
  end.

(** The key [k] has the value [v], and is not open. *)
Definition keyHolds (k : jsstring) (v : jsvalue) (st : pstate) : Prop :=
  result st !! k = Some v ∧ currentKey st ≠ Some k.

(** What the parser can store: a string that is a trimmed, non-empty piece
    of a line, less one pair of quotes, or a list that is not empty and
    whose items are trimmed. *)
Definition storable (v : jsvalue) : Prop :=
  match v with
  | JString s => ∃ t, s = unquote t ∧ trim t = t ∧ t ≠ []
  | JArray l => l ≠ [] ∧ Forall (λ i, trim i = i) l
  | _ => False
  end.

Definition storableState (st : pstate) : Prop :=
  map_Forall (λ _ v, storable v) (result st)
  ∧ Forall (λ i, trim i = i) (currentList st).

(** ** Sequences of offers to the collector *)



Definition endpoints (e : GraphEdge) : jsstring * jsstring :=
  (source e, target e).

(** The key under which the collector remembers an edge, and the state of a
    collector that only [addEdge] has written to: the keys remembered are
    those of the edges collected, and no two edges have the same key. *)
Definition edgeKeyOf (e : GraphEdge) : jsstring :=
  edgeKey (source e) (target e).

Definition wellFormed (c : collector) : Prop :=
  addedEdges c = list_to_set (edgeKeyOf <$> collected c)
  ∧ NoDup (edgeKeyOf <$> collected c).

(** A list written as one comma-separated string, [items.join(", ")]. *)
Fixpoint joinComma (ls : list jsstring) : jsstring :=
  match ls with
  | [] => []
  | [l] => l
  | l :: ls' => l ++ COMMA :: 32%N :: joinComma ls'
  end.

(** [pieces.join(sep)] for a separator of one code unit. *)
Fixpoint joinWith (sep : N) (ls : list jsstring) : jsstring :=
  match ls with
  | [] => []
  | [l] => l
  | l :: ls' => l ++ sep :: joinWith sep ls'
  end.

(** The two keys under which a lookup map knows a node: its lower-cased
    name, and its lower-cased id without the prefix. *)
Definition hasKey (h : Host) {T} `{GraphNode T} (prefix : jsstring) (n : T)
  (key : jsstring) : Prop :=
  lowerCased h (nodeName n) = Some key
  ∨ toLowerCase h (replaceFirst prefix [] (nodeId n)) = key.

(** ** A small host for concrete runs *)

Definition asciiLower (c : N) : N :=
  if ((65 <=? c)%N && (c <=? 90)%N) then (c + 32)%N else c.

Fixpoint lookupPath {A} (table : list (jsstring * A)) (p : jsstring)
  : option A :=
  match table with
  | [] => None
  | (q, a) :: table' =>
      if bool_decide (q = p) then Some a else lookupPath table' p
  end.

Definition endsWith (suffix s : jsstring) : bool :=
  startsWith (reverse suffix) (reverse s).

(** A host whose file system is a table of directories with their entries
    and a table of regular files with their text, with no symbolic link;
    paths are joined with a slash, and the lower case is that of ASCII.
    Listing a regular file, making a directory where a regular file is, and
    writing a file where a directory is, reject. *)
Definition tableHost (dirs : list (jsstring * list Dirent))
  (files : list (jsstring * jsstring)) (home : jsstring) : Host :=
  let exists_ p :=
    bool_decide (is_Some (lookupPath dirs p))
    || bool_decide (is_Some (lookupPath files p)) in
  {| toLowerCase := map asciiLower;
     pathJoin := λ a b, a ++ str "/" ++ b;
     pathRelative := λ base p, drop (S (length base)) p;
     pathStem := λ file, take (length file - 3) file;
     pathDirname := λ p,
       reverse (drop 1 (dropWhile (λ c, negb (c =? 47)%N) (reverse p)));
     pathBasename := λ p,
       reverse (takeWhile (λ c, negb (c =? 47)%N) (reverse p));
     pathResolve := λ p, p;
     env := λ name,
       if bool_decide (name = str "HOME") then JString home else JUndefined;
     access := exists_;
     globMd := λ dir,
       filter (λ f, endsWith (str ".md") f = true)
         (direntName <$> default [] (lookupPath dirs dir));
     lstatIsSymbolicLink := λ p, if exists_ p then Some false else None;
     realpath := λ p, if exists_ p then Some p else None;
     statIsDirectory := λ p,
       if exists_ p then Some (bool_decide (is_Some (lookupPath dirs p)))
       else None;
     readFile := lookupPath files;
     readdir := λ dir,
       match lookupPath dirs dir with
       | Some entries => Resolved entries
       | None =>
           Rejected (if bool_decide (is_Some (lookupPath files dir))
                     then str "ENOTDIR" else str "ENOENT")
       end;
     mkdir := λ dir,
       if bool_decide (is_Some (lookupPath files dir))
       then Rejected (str "EEXIST") else Resolved ();
     writeFile := λ p _,
       if bool_decide (is_Some (lookupPath dirs p))
       then Rejected (str "EISDIR") else Resolved ();
     nowISO := str "1970-01-01T00:00:00.000Z" |}.

Definition file (name : string) : Dirent :=
  {| direntName := str name; direntIsDirectory := false;
     direntIsSymbolicLink := false |}.

Definition dir (name : string) : Dirent :=
  {| direntName := str name; direntIsDirectory := true;
     direntIsSymbolicLink := false |}.

(** The project of the end-to-end scenario: an agent that declares the
    subagent [helper] and the skill [search], the agent [helper], the skill
    [search], no command and no global root. *)
Definition demoHost : Host :=
  tableHost
    [(str "/p/.claude", [dir "agents"; dir "skills"]);
     (str "/p/.claude/agents", [file "lead.md"; file "helper.md"]);
     (str "/p/.claude/skills", [dir "search"]);
     (str "/p/.claude/skills/search", [file "SKILL.md"])]
    [(str "/p/.claude/agents/lead.md",
      doc ["---"; "name: lead"; "subagents:"; "  - helper"; "  - ghost";
           "skills: search"; "---"; "Ask helper, then search."]);
     (str "/p/.claude/agents/helper.md",
      doc ["---"; "name: helper"; "---"; "Helps."]);
     (str "/p/.claude/skills/search/SKILL.md",
      doc ["---"; "name: search"; "---"; "## Triggers"; "- find files";
           "- grep"; ""; "## Notes"; "none"])]
    (str "/home/u").

Definition defaultOptions : ScanOptions :=
  {| includeLocal := None; includeGlobal := None |}.

(** The skills of a scan whose listing resolved. *)
Definition skillsOf (o : outcome (list SkillNode)) : list SkillNode :=
  match o with
  | Ok skills => skills
  | Throw _ => []
  end.




(** * Properties *)

(** ** Strings *)

Lemma dropWhile_takeWhile {A} (p : A → bool) (l : list A) :
  takeWhile p l ++ dropWhile p l = l.
Proof. induction l as [|a l IH]; simpl; [done|]. destruct (p a); simpl; by f_equal. Qed.

Lemma dropWhile_head {A} (p : A → bool) (l : list A) (a : A) (l' : list A) :
  dropWhile p l = a :: l' → p a = false.
Proof.
  induction l as [|b l IH]; simpl; [done|].
  destruct (p b) eqn:Hb; [done|]. by intros [= <- _].
Qed.

Lemma dropWhile_id {A} (p : A → bool) (a : A) (l : list A) :
  p a = false → dropWhile p (a :: l) = a :: l.
Proof. simpl. by intros ->. Qed.

Lemma dropWhile_idemp {A} (p : A → bool) (l : list A) :
  dropWhile p (dropWhile p l) = dropWhile p l.
Proof.
  destruct (dropWhile p l) as [|a l'] eqn:E; [done|].
  apply dropWhile_id. by eapply dropWhile_head.
Qed.

Lemma dropWhile_app_stop {A} (p : A → bool) (l : list A) (a : A) (l' : list A) :
  p a = false → dropWhile p (l ++ a :: l') = dropWhile p l ++ a :: l'
                ∨ (dropWhile p l = [] ∧ dropWhile p (l ++ a :: l') = a :: l').
Proof.
  intros Ha. induction l as [|b l IH]; simpl.
  - rewrite Ha. by left.
  - destruct (p b); [done|]. by left.
Qed.

Lemma trimEnd_idemp (s : jsstring) : trimEnd (trimEnd s) = trimEnd s.
Proof.
  unfold trimEnd. by rewrite reverse_involutive, dropWhile_idemp.
Qed.

(** Trimming the end of a string that starts with no white space leaves a
    string that starts with no white space. *)
Lemma trimStart_trimEnd (s : jsstring) :
  trimStart s = s → trimStart (trimEnd s) = trimEnd s.
Proof.
  unfold trimStart, trimEnd. intros Hs.
  destruct s as [|a s]; [done|].
  assert (Ha : isSpace a = false).
  { simpl in Hs. destruct (isSpace a) eqn:E; [|done].
    exfalso. pose proof (dropWhile_takeWhile isSpace s) as H.
    rewrite Hs in H. apply (f_equal length) in H.
    rewrite length_app in H. simpl in H. lia. }
  rewrite reverse_cons.
  destruct (dropWhile_app_stop isSpace (reverse s) a [] Ha) as [->|[_ ->]].
  - rewrite reverse_app. simpl. by rewrite Ha.
  - simpl. by rewrite Ha.
Qed.

Lemma trim_idemp (s : jsstring) : trim (trim s) = trim s.
Proof.
  unfold trim.
  rewrite (trimStart_trimEnd (trimStart s)); [apply trimEnd_idemp|].
  apply dropWhile_idemp.
Qed.

Lemma split_nonempty (sep : N) (s : jsstring) : split sep s ≠ [].
Proof.
  destruct s as [|c s]; simpl; [done|].
  destruct (c =? sep)%N; [done|]. by destruct (split sep s).
Qed.

Lemma split_app (sep : N) (a b : jsstring) :
  split sep (a ++ sep :: b) = split sep a ++ split sep b.
Proof.
  induction a as [|c a IH]; simpl.
  - by rewrite N.eqb_refl.
  - destruct (c =? sep)%N; [by rewrite IH|].
    rewrite IH. pose proof (split_nonempty sep a).
    by destruct (split sep a).
Qed.

Lemma split_no_sep (sep : N) (s : jsstring) : sep ∉ s → split sep s = [s].
Proof.
  induction s as [|c s IH]; simpl; [done|].
  intros Hn. destruct (N.eqb_spec c sep) as [->|_].
  - exfalso. apply Hn. left.
  - rewrite IH; [done|]. intros ?. apply Hn. by right.
Qed.

Lemma split_joinLF (ls : list jsstring) :
  ls ≠ [] → Forall (λ l, LF ∉ l) ls → split LF (joinLF ls) = ls.
Proof.
  induction ls as [|l ls IH]; [done|]. intros _ Hall.
  apply Forall_cons in Hall as [Hl Hall].
  destruct ls as [|l' ls].
  - simpl. by apply split_no_sep.
  - change (joinLF (l :: l' :: ls)) with (l ++ LF :: joinLF (l' :: ls)).
    rewrite split_app, IH, split_no_sep; done.
Qed.

(** Every piece of a split string is made of code units of that string. *)
Lemma split_Forall (P : N → Prop) (sep : N) (s : jsstring) :
  Forall P s → Forall (Forall P) (split sep s).
Proof.
  induction s as [|c s IH]; simpl; intros Hs.
  - by repeat constructor.
  - apply Forall_cons in Hs as [Hc Hs]. specialize (IH Hs).
    destruct (c =? sep)%N; [by constructor|].
    destruct (split sep s) as [|l ls]; [by repeat constructor|].
    apply Forall_cons in IH as [Hl Hls]. by repeat constructor.
Qed.

Lemma startsWith_app (p s : jsstring) : startsWith p (p ++ s) = true.
Proof. induction p as [|c p IH]; simpl; [done|]. by rewrite N.eqb_refl. Qed.

Lemma includes_unfold (p s : jsstring) :
  includes p s
  = startsWith p s || match s with [] => false | _ :: s' => includes p s' end.
Proof. by destruct s. Qed.

Lemma includes_app (p a b : jsstring) : includes p (a ++ p ++ b) = true.
Proof.
  induction a as [|c a IH]; simpl.
  - by rewrite includes_unfold, startsWith_app.
  - by rewrite IH, orb_true_r.
Qed.

(** ** The matcher *)

(** Whatever [rmatch] returns went through a state that [matches] relates
    to the starting state. *)
Lemma rmatch_sound (r : regex) : ∀ x k z,
  rmatch r x k = Some z → ∃ y, matches r x y ∧ k y = Some z.
Proof.
  induction r as [|p|r1 IH1 r2 IH2|r1 IH1 r2 IH2|g r IH|n r IH| | |r IH];
    intros x k z Hm; simpl in Hm.
  - eauto using matches.
  - destruct (rest x) as [|c s] eqn:Hr; [done|].
    destruct (p c) eqn:Hp; [|done].
    exists (advance x). split; [|done].
    apply M_Char with c; [by rewrite Hr|done].
  - apply IH1 in Hm as (y & Hy & Hm). apply IH2 in Hm as (y' & Hy' & Hm).
    eauto using matches.
  - destruct (rmatch r1 x k) eqn:H1.
    + inversion Hm; subst. apply IH1 in H1 as (y & ? & ?).
      eauto using matches.
    + apply IH2 in Hm as (y & ? & ?). eauto using matches.
  - revert Hm. generalize (length (rest x)) as fuel. intros fuel. revert x.
    induction fuel as [|fuel IHf]; intros x Hm.
    + eauto using matches.
    + destruct g.
      * match type of Hm with
        | match ?t with _ => _ end = _ => destruct t eqn:Hit
        end.
        -- inversion Hm; subst. apply IH in Hit as (y & Hy & Hk).
           destruct (decide _) as [Hlt|]; [|done].
           apply IHf in Hk as (y' & Hy' & Hk). eauto using matches.
        -- eauto using matches.
      * destruct (k x) eqn:Hkx.
        -- inversion Hm; subst. eauto using matches.
        -- apply IH in Hm as (y & Hy & Hk).
           destruct (decide _) as [Hlt|]; [|done].
           apply IHf in Hk as (y' & Hy' & Hk). eauto using matches.
  - apply IH in Hm as (y & ? & ?). eauto using matches.
  - destruct (decide _); [|done]. eauto using matches.
  - destruct (rest x) eqn:Hr; [|done]. eauto using matches.
  - destruct (rmatch r x Some) as [y|] eqn:H1; [|done].
    apply IH in H1 as (y' & ? & [= ->]). eauto using matches.
Qed.

(** A result of [search] is a match that starts at some suffix. *)
Lemma search_sound (r : regex) (ngroups : nat) : ∀ s i m,
  search r ngroups i s = Some m →
  ∃ pre s' y, s = pre ++ s' ∧ index m = i + length pre
              ∧ matches r (initial ngroups (index m) s') y
              ∧ matched m = take (pos y - index m) s'
              ∧ groups m = caps y.
Proof.
  induction s as [|c s IH]; intros i m Hs; simpl in Hs.
  - destruct (rmatch r (initial ngroups i []) Some) as [y|] eqn:Hr; [|done].
    apply rmatch_sound in Hr as (y' & Hy & [= ->]). inversion Hs; subst.
    exists [], [], y. simpl. rewrite Nat.add_0_r. by repeat split.
  - destruct (rmatch r (initial ngroups i (c :: s)) Some) as [y|] eqn:Hr.
    + apply rmatch_sound in Hr as (y' & Hy & [= ->]). inversion Hs; subst.
      exists [], (c :: s), y. simpl. rewrite Nat.add_0_r. by repeat split.
    + apply IH in Hs as (pre & s' & y & -> & Hi & Hy & Hm & Hg).
      exists (c :: pre), s', y. simpl. repeat split; try done. lia.
Qed.

Lemma regexMatch_sound (r : regex) (ngroups : nat) (s : jsstring) m :
  regexMatch r ngroups s = Some m →
  ∃ pre s' y, s = pre ++ s' ∧ index m = length pre
              ∧ matches r (initial ngroups (index m) s') y
              ∧ matched m = take (pos y - index m) s'
              ∧ groups m = caps y.
Proof. intros H. apply search_sound in H. exact H. Qed.

(** *** Inversion of [matches] on the pieces of the patterns *)

Lemma matches_Char p x y :
  matches (Char p) x y →
  ∃ c, rest x = c :: rest y ∧ p c = true ∧ pos y = S (pos x)
       ∧ caps y = caps x.
Proof.
  inversion 1; subst. exists c. destruct (rest x) as [|d s] eqn:E; [done|].
  simpl in *. rewrite E. simpl. by simplify_eq.
Qed.

Lemma matches_Star_Char g p x y :
  matches (Star g (Char p)) x y →
  ∃ w, rest x = w ++ rest y ∧ Forall (λ c, p c = true) w
       ∧ pos y = pos x + length w ∧ caps y = caps x.
Proof.
  remember (Star g (Char p)) as r eqn:Er. intros H.
  induction H as [| | | | |g' r' x|g' r' x y z H1 _ Hlt H2 IH| | | |];
    try discriminate; inversion Er; subst.
  - exists []. simpl. by rewrite Nat.add_0_r.
  - apply matches_Char in H1 as (c & Hx & Hp & Hpos & Hc).
    destruct (IH eq_refl) as (w & Hy & Hw & Hpos' & Hc').
    exists (c :: w). rewrite Hx, Hy. simpl. repeat split.
    + by constructor.
    + lia.
    + congruence.
Qed.

Lemma matches_Plus_Char g p x y :
  matches (Plus g (Char p)) x y →
  ∃ w, rest x = w ++ rest y ∧ Forall (λ c, p c = true) w ∧ w ≠ []
       ∧ pos y = pos x + length w ∧ caps y = caps x.
Proof.
  inversion 1 as [| |r1 r2 x' y' z' H1 H2| | | | | | | |]; subst.
  apply matches_Char in H1 as (c & Hx & Hp & Hpos & Hc).
  apply matches_Star_Char in H2 as (w & Hy & Hw & Hpos' & Hc').
  exists (c :: w). rewrite Hx, Hy. simpl. repeat split; try done.
  - by constructor.
  - lia.
  - congruence.
Qed.

Lemma matches_Lit_isChar s x y :
  matches (Lit isChar s) x y →
  rest x = s ++ rest y ∧ pos y = pos x + length s ∧ caps y = caps x.
Proof.
  revert x. induction s as [|c s IH]; intros x; simpl.
  - inversion 1; subst. by rewrite Nat.add_0_r.
  - inversion 1 as [| |r1 r2 x' y' z' H1 H2| | | | | | | |]; subst.
    apply matches_Char in H1 as (d & Hx & Hd & Hpos & Hc).
    apply IH in H2 as (Hy & Hpos' & Hc').
    apply N.eqb_eq in Hd as ->. rewrite Hx, Hy. repeat split; [lia|congruence].
Qed.

Lemma matches_Bol x y : matches Bol x y → y = x ∧ pos x = 0.
Proof. by inversion 1. Qed.

Lemma matches_Eol x y : matches Eol x y → y = x ∧ rest x = [].
Proof. by inversion 1. Qed.

Lemma matches_Seq r1 r2 x z :
  matches (Seq r1 r2) x z → ∃ y, matches r1 x y ∧ matches r2 y z.
Proof. inversion 1; subst; eauto. Qed.

Lemma matches_Group n r x z :
  matches (Group n r) x z → ∃ y, matches r x y ∧ z = capture n x y.
Proof. inversion 1; subst; eauto. Qed.

Lemma matches_Alt r1 r2 x y :
  matches (Alt r1 r2) x y → matches r1 x y ∨ matches r2 x y.
Proof. inversion 1; subst; eauto. Qed.

Lemma matches_Lookahead r x z :
  matches (Lookahead r) x z → ∃ y, matches r x y ∧ z = withCaps x y.
Proof. inversion 1; subst; eauto. Qed.

(** ** The delimiter pattern needs a line feed after the closing line *)

(** The tail that [yamlPattern] and [yamlBlockPattern] share: a line feed,
    three hyphens, white space, a line feed. *)
Lemma matches_closing x y :
  matches (Char (isChar LF) ⋅ Lit isChar (str "---")
           ⋅ Star true (Char isSpace) ⋅ Char (isChar LF))%re x y →
  ∃ w, rest x = LF :: str "---" ++ w ++ LF :: rest y
       ∧ Forall (λ c, isSpace c = true) w.
Proof.
  intros (y1 & H1 & H)%matches_Seq. apply matches_Seq in H as (y2 & H2 & H).
  apply matches_Seq in H as (y3 & H3 & H4).
  apply matches_Char in H1 as (c1 & E1 & ->%N.eqb_eq & _).
  apply matches_Lit_isChar in H2 as (E2 & _).
  apply matches_Star_Char in H3 as (w & E3 & Hw & _).
  apply matches_Char in H4 as (c4 & E4 & ->%N.eqb_eq & _).
  exists w. split; [|done]. rewrite E1, E2, E3, E4. by rewrite <- ?app_assoc.
Qed.

Lemma matches_yamlPattern x y :
  matches yamlPattern x y →
  ∃ a w, rest x = a ++ LF :: str "---" ++ w ++ LF :: rest y
         ∧ Forall (λ c, isSpace c = true) w.
Proof.
  unfold yamlPattern.
  intros (y0 & H0 & H)%matches_Seq. apply matches_Seq in H as (y1 & H1 & H).
  apply matches_Seq in H as (y2 & H2 & H). apply matches_Seq in H as (y3 & H3 & H).
  apply matches_Seq in H as (y4 & H4 & H).
  apply matches_Bol in H0 as [-> _].
  apply matches_Lit_isChar in H1 as (E1 & _).
  apply matches_Star_Char in H2 as (w1 & E2 & _).
  apply matches_Char in H3 as (c3 & E3 & _).
  apply matches_Group in H4 as (y4' & H4 & ->).
  apply matches_Star_Char in H4 as (w2 & E4 & _).
  apply matches_closing in H as (w & E & Hw). simpl in E.
  exists (str "---" ++ w1 ++ c3 :: w2), w. split; [|done].
  rewrite E1, E2, E3, E4, E. by rewrite <- ?app_assoc.
Qed.

Lemma matches_yamlBlockPattern x y :
  matches yamlBlockPattern x y →
  ∃ a w, rest x = a ++ LF :: str "---" ++ w ++ LF :: rest y
         ∧ Forall (λ c, isSpace c = true) w.
Proof.
  unfold yamlBlockPattern.
  intros (y0 & H0 & H)%matches_Seq. apply matches_Seq in H as (y1 & H1 & H).
  apply matches_Seq in H as (y2 & H2 & H). apply matches_Seq in H as (y3 & H3 & H).
  apply matches_Seq in H as (y4 & H4 & H).
  apply matches_Bol in H0 as [-> _].
  apply matches_Lit_isChar in H1 as (E1 & _).
  apply matches_Star_Char in H2 as (w1 & E2 & _).
  apply matches_Char in H3 as (c3 & E3 & _).
  apply matches_Star_Char in H4 as (w2 & E4 & _).
  apply matches_closing in H as (w & E & Hw).
  exists (str "---" ++ w1 ++ c3 :: w2), w. split; [|done].
  rewrite E1, E2, E3, E4, E. by rewrite <- ?app_assoc.
Qed.

(** A closing delimiter that a line feed follows is a line of the document
    that is neither its first nor its last. *)
Lemma closing_delimiter_line (a w b : jsstring) :
  Forall (λ c, isSpace c = true) w →
  ∃ A d B, split LF (a ++ LF :: str "---" ++ w ++ LF :: b) = A ++ d :: B
           ∧ A ≠ [] ∧ B ≠ [] ∧ isDelimiterLine d = true.
Proof.
  intros Hw.
  rewrite split_app.
  replace (str "---" ++ w ++ LF :: b) with ((str "---" ++ w) ++ LF :: b)
    by by rewrite <- app_assoc.
  rewrite split_app.
  pose proof (split_Forall _ LF w Hw) as Hall.
  pose proof (split_nonempty LF w) as Hne.
  destruct (split LF w) as [|l0 ls0] eqn:E0; [done|].
  assert (E3 : split LF (str "---" ++ w) = (str "---" ++ l0) :: ls0).
  { change (str "---" ++ w) with (45%N :: 45%N :: 45%N :: w).
    unfold LF in *. simpl. by rewrite E0. }
  rewrite E3.
  exists (split LF a), (45%N :: 45%N :: 45%N :: l0), (ls0 ++ split LF b).
  repeat split.
  - apply split_nonempty.
  - intros [_ ?]%app_eq_nil. by eapply split_nonempty.
  - apply Forall_cons in Hall as [Hl0 _]. simpl.
    apply forallb_forall. intros c Hc. rewrite Forall_forall in Hl0.
    apply Hl0. by apply list_elem_of_In.
Qed.

(** A line that is neither the first nor the last is one of those in
    between. *)
Lemma middle_line {A} (first last d : A) (middle xs ys : list A) :
  first :: middle ++ [last] = xs ++ d :: ys → xs ≠ [] → ys ≠ [] → d ∈ middle.
Proof.
  intros E Hxs Hys. destruct xs as [|x xs]; [done|].
  destruct (exists_last Hys) as (ys' & y & ->).
  simpl in E. inversion E as [[E1 E2]]; subst.
  replace (xs ++ d :: ys' ++ [y]) with ((xs ++ d :: ys') ++ [y]) in E2
    by by rewrite <- app_assoc.
  apply app_inj_tail in E2 as [-> _].
  apply elem_of_app. right. left.
Qed.

(** Without a closing delimiter line that a line feed follows, neither
    pattern matches. *)
Lemma no_delimiter_no_match (first : jsstring) (middle : list jsstring)
  (last : jsstring) :
  Forall (λ l, LF ∉ l) (first :: middle ++ [last]) →
  Forall (λ l, isDelimiterLine l = false) middle →
  regexMatch yamlPattern 1 (joinLF (first :: middle ++ [last])) = None
  ∧ regexMatch yamlBlockPattern 0 (joinLF (first :: middle ++ [last])) = None.
Proof.
  intros Hlf Hmid.
  assert (Hno : ∀ pre a w b,
    joinLF (first :: middle ++ [last])
    = pre ++ a ++ LF :: str "---" ++ w ++ LF :: b →
    Forall (λ c, isSpace c = true) w → False).
  { intros pre a w b E Hw.
    destruct (closing_delimiter_line (pre ++ a) w b Hw) as (A & d & B & Es & HA & HB & Hd).
    rewrite <- app_assoc, <- E, split_joinLF in Es; [|done|done].
    apply middle_line in Es; [|done|done].
    rewrite Forall_forall in Hmid. specialize (Hmid d Es). congruence. }
  split.
  - destruct (regexMatch yamlPattern 1 _) as [m|] eqn:Hm; [|done].
    apply regexMatch_sound in Hm as (pre & s' & y & E & _ & Hy & _).
    apply matches_yamlPattern in Hy as (a & w & Er & Hw). simpl in Er.
    exfalso. eapply Hno; [|exact Hw]. rewrite E, Er. done.
  - destruct (regexMatch yamlBlockPattern 0 _) as [m|] eqn:Hm; [|done].
    apply regexMatch_sound in Hm as (pre & s' & y & E & _ & Hy & _).
    apply matches_yamlBlockPattern in Hy as (a & w & Er & Hw). simpl in Er.
    exfalso. eapply Hno; [|exact Hw]. rewrite E, Er. done.
Qed.

(** A decidable proposition about concrete data, by evaluation. *)
Ltac by_evaluation := apply (bool_decide_unpack _); vm_compute; exact I.

(** C10. A document that ends with its closing delimiter line, with no line
    feed after it: the first line is the opening delimiter (three hyphens,
    then white space), the last line is the three hyphens, and no line in
    between is a delimiter line.  The parser returns the empty mapping, and
    the body extractor returns the whole document, trimmed, delimiter lines
    included. *)
Theorem unterminated_closing_delimiter (sp : jsstring)
  (middle : list jsstring) :
  Forall (λ c, isSpace c = true) sp → LF ∉ sp →
  Forall (λ l, (LF ∉ l) ∧ isDelimiterLine l = false) middle →
  let content := joinLF ((str "---" ++ sp) :: middle ++ [str "---"]) in
  parseYamlFrontmatter content = ∅
  ∧ extractBodyContent content = trim content.
Proof.
  intros Hsp Hlf Hmid content.
  destruct (no_delimiter_no_match (str "---" ++ sp) middle (str "---"))
    as [H1 H2].
  - constructor.
    + apply not_elem_of_app. split; [by_evaluation|done].
    + apply Forall_app. split.
      * eapply Forall_impl; [exact Hmid|]. by intros l [? _].
      * constructor; [|done]. by_evaluation.
  - eapply Forall_impl; [exact Hmid|]. by intros l [_ ?].
  - unfold parseYamlFrontmatter, extractBodyContent, regexReplace.
    fold content in H1, H2. by rewrite H1, H2.
Qed.

Lemma unterminated_closing_delimiter_witness :
  parseYamlFrontmatter (doc ["--- "; "name: x"; "tools:"; "  - a"; "---"]) = ∅
  ∧ extractBodyContent (doc ["--- "; "name: x"; "tools:"; "  - a"; "---"])
    = trim (doc ["--- "; "name: x"; "tools:"; "  - a"; "---"]).
Proof.
  apply (unterminated_closing_delimiter (str " ")
           [str "name: x"; str "tools:"; str "  - a"]).
  - by repeat constructor.
  - by_evaluation.
  - repeat constructor; by_evaluation.
Defined.
(** ** The two line patterns of the parser *)

Lemma isWord_not_isSpace (c : N) : isWord c = true → isSpace c = false.
Proof.
  unfold isWord, isSpace. intros H.
  repeat (apply orb_true_iff in H as [H|H]);
    try apply andb_true_iff in H as [H1 H2];
    repeat match goal with
           | H : (_ <=? _)%N = true |- _ => apply N.leb_le in H
           | H : (_ =? _)%N = true |- _ => apply N.eqb_eq in H
           end;
    repeat (apply orb_false_iff; split);
    try (apply andb_false_iff; left);
    try (apply N.eqb_neq; lia); try (apply N.leb_gt; lia).
Qed.

Lemma take_app_length' {A} (l k : list A) n :
  n = length l → take n (l ++ k) = l.
Proof. intros ->. by rewrite take_app_length. Qed.

(** A match of [keyValuePattern]: word characters, a colon, white space,
    and a rest that reaches the end of the line. *)
Lemma keyValuePattern_inv (line : jsstring) m :
  regexMatch keyValuePattern 2 line = Some m →
  ∃ key w value, line = key ++ COLON :: w ++ value
                 ∧ key ≠ [] ∧ Forall (λ c, isWord c = true) key
                 ∧ group 1 m = key ∧ group 2 m = value.
Proof.
  intros Hm. apply regexMatch_sound in Hm as (pre & s' & y & E & Hi & Hy & _ & Hg).
  unfold keyValuePattern in Hy.
  apply matches_Seq in Hy as (y0 & H0 & H). apply matches_Seq in H as (y1 & H1 & H).
  apply matches_Seq in H as (y2 & H2 & H). apply matches_Seq in H as (y3 & H3 & H).
  apply matches_Seq in H as (y4 & H4 & H5).
  apply matches_Bol in H0 as [-> Hpos]. simpl in Hpos.
  assert (pre = []) as -> by (apply length_zero_iff_nil; lia).
  simpl in E. subst s'.
  apply matches_Group in H1 as (y1' & H1 & ->).
  apply matches_Plus_Char in H1 as (key & E1 & Hkey & Hne & P1 & C1).
  apply matches_Char in H2 as (c & E2 & ->%N.eqb_eq & P2 & C2).
  apply matches_Star_Char in H3 as (w & E3 & _ & P3 & C3).
  apply matches_Group in H4 as (y4' & H4 & ->).
  apply matches_Star_Char in H4 as (value & E4 & _ & P4 & C4).
  apply matches_Eol in H5 as [-> E5].
  simpl in *. rewrite E5, app_nil_r in E4.
  exists key, w, value. repeat split; try done.
  - rewrite E1, E2, E3, E4. done.
  - unfold group. rewrite Hg. simpl. rewrite C4, C3, C2. simpl.
    rewrite C1. simpl. rewrite E1.
    by rewrite take_app_length' by lia.
  - unfold group. rewrite Hg. simpl. rewrite C4, C3, C2. simpl.
    rewrite C1. simpl. rewrite E4.
    replace (pos y4' - pos y3) with (length value) by lia.
    by rewrite firstn_all.
Qed.

Lemma listItemPattern_inv (line : jsstring) m :
  regexMatch listItemPattern 1 line = Some m →
  ∃ c s, line = c :: s ∧ isSpace c = true.
Proof.
  intros Hm. apply regexMatch_sound in Hm as (pre & s' & y & E & Hi & Hy & _ & Hg).
  unfold listItemPattern in Hy.
  apply matches_Seq in Hy as (y0 & H0 & H). apply matches_Seq in H as (y1 & H1 & _).
  apply matches_Bol in H0 as [-> Hpos]. simpl in Hpos.
  assert (pre = []) as -> by (apply length_zero_iff_nil; lia).
  simpl in E. subst s'.
  apply matches_Plus_Char in H1 as (w & E1 & Hw & Hne & _).
  simpl in E1. destruct w as [|c w]; [done|].
  apply Forall_cons in Hw as [Hc _]. rewrite E1. simpl. eauto.
Qed.

(** No line matches both patterns. *)
Lemma key_line_not_list_item (line : jsstring) m :
  regexMatch keyValuePattern 2 line = Some m →
  regexMatch listItemPattern 1 line = None.
Proof.
  intros (key & w & value & -> & Hne & Hkey & _)%keyValuePattern_inv.
  destruct (regexMatch listItemPattern 1 _) as [m'|] eqn:Hm'; [|done].
  apply listItemPattern_inv in Hm' as (c & s & E & Hc).
  destruct key as [|k key]; [done|]. simpl in E. inversion E; subst.
  apply Forall_cons in Hkey as [Hk _]. apply isWord_not_isSpace in Hk. congruence.
Qed.

(** *** Lines that the two patterns accept, and lines that they reject *)

(** The steps of a star over a class of code units. *)
Lemma rmatch_Star_Char (g : bool) (p : N → bool) (x : mstate)
  (k : mstate → option mstate) :
  rmatch (Star g (Char p)) x k
  = match rest x with
    | [] => k x
    | c :: _ =>
        if g then
          if p c then
            match rmatch (Star g (Char p)) (advance x) k with
            | Some z => Some z
            | None => k x
            end
          else k x
        else
          match k x with
          | Some z => Some z
          | None => if p c then rmatch (Star g (Char p)) (advance x) k else None
          end
    end.
Proof.
  destruct x as [i [|c s] cs]; simpl; [done|].
  destruct g, (p c); simpl; try done.
  - destruct (decide _) as [_|Hn]; [done|]. exfalso. apply Hn. lia.
  - destruct (decide _) as [_|Hn]; [done|]. exfalso. apply Hn. lia.
Qed.

Lemma after_nil x : after [] x = x.
Proof. destruct x. unfold after. simpl. by rewrite Nat.add_0_r. Qed.

Lemma after_cons c w x : after (c :: w) x = after w (advance x).
Proof.
  unfold after, advance. simpl. f_equal; [lia|].
  destruct (rest x); simpl; [by rewrite drop_nil|done].
Qed.

(** A greedy star tries the longest run first: when the continuation
    accepts the state after the longest run, that is the result. *)
Lemma rmatch_Star_Char_longest (p : N → bool) (w r : jsstring) : ∀ x k z,
  rest x = w ++ r → Forall (λ c, p c = true) w →
  match r with [] => True | c :: _ => p c = false end →
  k (after w x) = Some z →
  rmatch (Star true (Char p)) x k = Some z.
Proof.
  induction w as [|c w IH]; intros x k z Hx Hw Hr Hk;
    rewrite rmatch_Star_Char, Hx.
  - rewrite after_nil in Hk. simpl. destruct r as [|c r]; [done|].
    by rewrite Hr.
  - apply Forall_cons in Hw as [Hc Hw]. rewrite after_cons in Hk.
    change ((c :: w) ++ r) with (c :: (w ++ r)). cbv beta iota. rewrite Hc.
    rewrite (IH (advance x) k z); try done. simpl. by rewrite Hx.
Qed.

Lemma trim_nonempty (c : N) (s : jsstring) :
  isSpace c = false → trim (c :: s) ≠ [].
Proof.
  intros Hc. unfold trim, trimStart. rewrite dropWhile_id by done.
  unfold trimEnd. rewrite reverse_cons.
  destruct (dropWhile_app_stop isSpace (reverse s) c [] Hc) as [->|[_ ->]].
  - rewrite reverse_app. simpl. done.
  - done.
Qed.

Lemma regexMatch_at_start (r : regex) (ngroups : nat) (s : jsstring) y :
  rmatch r (initial ngroups 0 s) Some = Some y →
  regexMatch r ngroups s
  = Some {| index := 0; matched := take (pos y - 0) s; groups := caps y |}.
Proof. intros Hy. unfold regexMatch. destruct s; simpl; by rewrite Hy. Qed.

Lemma take_app_exact {A} (l k : list A) : take (length l) (l ++ k) = l.
Proof. by rewrite take_app_length. Qed.

Lemma rmatch_Seq_eq r1 r2 x k :
  rmatch (Seq r1 r2) x k = rmatch r1 x (λ y, rmatch r2 y k).
Proof. done. Qed.

Lemma rmatch_Group_eq n r x k :
  rmatch (Group n r) x k = rmatch r x (λ y, k (capture n x y)).
Proof. done. Qed.

Lemma rmatch_Char_eq p x k c s :
  rest x = c :: s → p c = true → rmatch (Char p) x k = k (advance x).
Proof. intros Hx Hp. simpl. by rewrite Hx, Hp. Qed.

Lemma rmatch_Bol_eq x k : pos x = 0 → rmatch Bol x k = k x.
Proof. intros Hx. simpl. by destruct (decide _). Qed.

Lemma rmatch_Eol_eq x k : rest x = [] → rmatch Eol x k = k x.
Proof. intros Hx. simpl. by rewrite Hx. Qed.

(** X1. A line made of word characters, a colon, white space, and a value
    without line terminator that starts with no white space, starts a key:
    the word characters are the key, and the value is trimmed. *)
Lemma keyLine_accepts (key w value : jsstring) :
  key ≠ [] → Forall (λ c, isWord c = true) key →
  Forall (λ c, isSpace c = true) w →
  Forall (λ c, dot c = true) value →
  match value with [] => True | c :: _ => isSpace c = false end →
  keyLine (key ++ COLON :: w ++ value) = Some (key, trim value).
Proof.
  intros Hne Hkey Hw Hvalue Hhead.
  destruct key as [|c key]; [done|]. apply Forall_cons in Hkey as [Hc Hkey].
  unfold keyLine. rewrite bool_decide_eq_false_2
    by (apply trim_nonempty; by apply isWord_not_isSpace).
  set (line := (c :: key) ++ COLON :: w ++ value).
  set (x0 := initial 2 0 line).
  set (x1 := capture 1 x0 (after key (advance x0))).
  set (x2 := after w (advance x1)).
  set (y := capture 2 x2 (after value x2)).
  assert (Hrest1 : rest x1 = COLON :: w ++ value).
  { simpl. rewrite drop_app_length. done. }
  assert (Hrest2 : rest x2 = value).
  { unfold x2. simpl. rewrite drop_app_length. simpl.
    by rewrite drop_app_length. }
  assert (Hy : rmatch keyValuePattern x0 Some = Some y).
  { unfold keyValuePattern, Plus.
    rewrite rmatch_Seq_eq, rmatch_Bol_eq by done.
    rewrite rmatch_Seq_eq, rmatch_Group_eq, rmatch_Seq_eq.
    rewrite (rmatch_Char_eq _ _ _ c (key ++ COLON :: w ++ value)) by done.
    apply (rmatch_Star_Char_longest isWord key (COLON :: w ++ value));
      [done|done|done|].
    fold x1. rewrite rmatch_Seq_eq.
    rewrite (rmatch_Char_eq _ _ _ COLON (w ++ value));
      [|done|apply N.eqb_refl].
    rewrite rmatch_Seq_eq.
    apply (rmatch_Star_Char_longest isSpace w value);
      [change (tail (rest x1) = w ++ value); by rewrite Hrest1|done|done|].
    fold x2. rewrite rmatch_Seq_eq, rmatch_Group_eq.
    apply (rmatch_Star_Char_longest dot value []);
      [by rewrite app_nil_r|done|done|].
    fold y. rewrite rmatch_Eol_eq; [done|].
    change (drop (length value) (rest x2) = []). rewrite Hrest2.
    apply drop_all. }
  rewrite (regexMatch_at_start _ _ _ _ Hy). simpl. unfold group. simpl.
  rewrite drop_app_length. simpl. rewrite drop_app_length.
  rewrite take_app_exact.
  replace (length key + length w + length value - (length key + length w))
    with (length value) by lia.
  by rewrite firstn_all.
Qed.

Lemma keyLine_accepts_witness :
  keyLine (str "description" ++ COLON :: str "  " ++ str "Runs the tests ")
  = Some (str "description", trim (str "Runs the tests ")).
Proof.
  apply (keyLine_accepts (str "description") (str "  ")
           (str "Runs the tests ")).
  - done.
  - by_evaluation.
  - by repeat constructor.
  - by_evaluation.
  - vm_compute. reflexivity.
Defined.

(** X2. A line made of white space, a hyphen, white space, and an item without
    line terminator that starts with no white space, is a list item. *)
Lemma listItem_accepts (s1 : N) (w1 : jsstring) (s2 : N) (w2 : jsstring)
  (i : N) (item : jsstring) :
  Forall (λ c, isSpace c = true) (s1 :: w1) →
  Forall (λ c, isSpace c = true) (s2 :: w2) →
  isSpace i = false → Forall (λ c, dot c = true) (i :: item) →
  listItem ((s1 :: w1) ++ HYPHEN :: (s2 :: w2) ++ i :: item)
  = Some (trim (i :: item)).
Proof.
  intros [Hs1 Hw1]%Forall_cons [Hs2 Hw2]%Forall_cons Hi [Hdi Hitem]%Forall_cons.
  set (line := (s1 :: w1) ++ HYPHEN :: (s2 :: w2) ++ i :: item).
  assert (Hline : trim line ≠ []).
  { unfold trim, trimStart, line. simpl. rewrite Hs1.
    replace (dropWhile isSpace (w1 ++ HYPHEN :: s2 :: w2 ++ i :: item))
      with (HYPHEN :: s2 :: w2 ++ i :: item).
    - by apply (trim_nonempty HYPHEN).
    - clear -Hw1. induction Hw1 as [|c w Hc _ IH]; simpl; [done|].
      by rewrite Hc. }
  unfold listItem. rewrite bool_decide_eq_false_2 by done.
  set (x0 := initial 1 0 line).
  set (x1 := after w1 (advance x0)).
  set (x2 := after w2 (advance (advance x1))).
  set (y := capture 1 x2 (after item (advance x2))).
  assert (Hrest1 : rest x1 = HYPHEN :: (s2 :: w2) ++ i :: item).
  { simpl. by rewrite drop_app_length. }
  assert (Hrest2 : rest x2 = i :: item).
  { unfold x2. simpl. rewrite drop_app_length. simpl.
    by rewrite drop_app_length. }
  assert (Hy : rmatch listItemPattern x0 Some = Some y).
  { unfold listItemPattern, Plus.
    rewrite rmatch_Seq_eq, rmatch_Bol_eq by done.
    rewrite !rmatch_Seq_eq.
    rewrite (rmatch_Char_eq _ _ _ s1
               (w1 ++ HYPHEN :: (s2 :: w2) ++ i :: item)) by done.
    apply (rmatch_Star_Char_longest isSpace w1
             (HYPHEN :: (s2 :: w2) ++ i :: item)); [done|done|done|].
    fold x1. rewrite rmatch_Seq_eq.
    rewrite (rmatch_Char_eq _ _ _ HYPHEN ((s2 :: w2) ++ i :: item));
      [|done|apply N.eqb_refl].
    rewrite !rmatch_Seq_eq.
    rewrite (rmatch_Char_eq _ _ _ s2 (w2 ++ i :: item));
      [|change (tail (rest x1) = s2 :: w2 ++ i :: item); by rewrite Hrest1
       |done].
    apply (rmatch_Star_Char_longest isSpace w2 (i :: item));
      [change (tail (tail (rest x1)) = w2 ++ i :: item); by rewrite Hrest1
      |done|done|].
    fold x2. rewrite rmatch_Seq_eq, rmatch_Group_eq, rmatch_Seq_eq.
    rewrite (rmatch_Char_eq _ _ _ i item) by done.
    apply (rmatch_Star_Char_longest dot item []);
      [change (tail (rest x2) = item ++ []); by rewrite Hrest2, app_nil_r
      |done|done|].
    fold y. rewrite rmatch_Eol_eq; [done|].
    change (drop (length item) (tail (rest x2)) = []). rewrite Hrest2.
    apply drop_all. }
  rewrite (regexMatch_at_start _ _ _ _ Hy). simpl. unfold group. simpl.
  rewrite drop_app_length. simpl. rewrite drop_app_length.
  replace (S (length w1 + length w2 + length item) - (length w1 + length w2))
    with (length (i :: item)) by (simpl; lia).
  by rewrite firstn_all.
Qed.

Lemma listItem_accepts_witness :
  listItem ((32%N :: str " ") ++ HYPHEN :: (32%N :: []) ++ 82%N :: str "ead ")
  = Some (trim (82%N :: str "ead ")).
Proof.
  apply (listItem_accepts 32%N (str " ") 32%N [] 82%N (str "ead ")).
  - by repeat constructor.
  - by repeat constructor.
  - vm_compute. reflexivity.
  - by_evaluation.
Defined.

(** A line that starts with a character that is neither white space nor a
    word character is nothing to the loop. *)
Lemma other_line (c : N) (s : jsstring) :
  isSpace c = false → isWord c = false →
  listItem (c :: s) = None ∧ keyLine (c :: s) = None.
Proof.
  intros Hs Hw. unfold listItem, keyLine.
  destruct (bool_decide _); [done|]. split.
  - destruct (regexMatch listItemPattern 1 (c :: s)) as [m|] eqn:Hm; [|done].
    apply listItemPattern_inv in Hm as (c' & s' & [= <- <-] & Hc). congruence.
  - destruct (regexMatch keyValuePattern 2 (c :: s)) as [m|] eqn:Hm; [|done].
    apply keyValuePattern_inv in Hm as (key & w & value & E & Hne & Hkey & _).
    destruct key as [|k key]; [done|]. injection E as <- _.
    apply Forall_cons in Hkey as [Hk _]. congruence.
Qed.

(** A line whose word characters are followed by a character other than
    the colon starts no key. *)
Lemma keyLine_rejects (key : jsstring) (c : N) (s : jsstring) :
  Forall (λ c, isWord c = true) key → isWord c = false → c ≠ COLON →
  keyLine (key ++ c :: s) = None.
Proof.
  intros Hkey Hc Hcolon. unfold keyLine. destruct (bool_decide _); [done|].
  destruct (regexMatch keyValuePattern 2 _) as [m|] eqn:Hm; [|done].
  exfalso.
  apply keyValuePattern_inv in Hm as (key' & w & value & E & _ & Hkey' & _).
  clear -E Hkey Hkey' Hc Hcolon. revert key' E Hkey'.
  induction Hkey as [|k key Hk _ IH]; intros [|k' key'] E Hkey'.
  - simpl in E. by simplify_eq.
  - simpl in E. injection E as -> _. apply Forall_cons in Hkey' as [Hk' _].
    congruence.
  - simpl in E. injection E as -> _. by vm_compute in Hk.
  - simpl in E. injection E as -> E. apply Forall_cons in Hkey' as [_ Hkey'].
    by eapply IH.
Qed.

(** ** The loop of the parser *)

Lemma getProp_setProp_ne (k k' : jsstring) (v : jsvalue) (o : jsobject) :
  k ≠ k' → setProp k v o !! k' = o !! k'.
Proof.
  intros Hne. unfold setProp. destruct (decide _); [done|].
  by rewrite lookup_insert_ne.
Qed.

Lemma pendingList_key st k l : pendingList st = Some (k, l) → currentKey st = Some k.
Proof.
  unfold pendingList. destruct (currentKey st) as [k'|]; [|done].
  destruct (currentList st); [done|]. destruct (keySet _); [|done].
  by intros [= -> _].
Qed.

Lemma pendingList_nil st : currentList st = [] → pendingList st = None.
Proof. unfold pendingList. intros ->. by destruct (currentKey st). Qed.

Lemma commitPending_currentList_nil st :
  listNeedsKey st → currentList (commitPending st) = [].
Proof.
  intros HG. unfold commitPending, pendingList.
  destruct (currentKey st) as [k|] eqn:Ek.
  - destruct (currentList st) as [|a l] eqn:El; [done|].
    destruct (keySet (Some k)) eqn:Es; [done|].
    rewrite <- Ek in Es. apply HG in Es. congruence.
  - destruct (currentList st) eqn:El; [done|]. rewrite <- El. apply HG.
    by rewrite Ek.
Qed.

Lemma commitPending_result st k :
  keyUnseen k st → result (commitPending st) !! k = None.
Proof.
  intros [Hr Hk]. unfold commitPending.
  destruct (pendingList st) as [[k' l]|] eqn:Ep; [|done].
  simpl. rewrite getProp_setProp_ne; [done|].
  apply pendingList_key in Ep. congruence.
Qed.

Lemma parseLine_listNeedsKey st line :
  listNeedsKey st → listNeedsKey (parseLine st line).
Proof.
  intros HG. unfold parseLine.
  destruct (bool_decide _); [done|].
  assert (Hkv : listNeedsKey
    match regexMatch keyValuePattern 2 line with
    | Some kvMatch =>
        let st1 := commitPending st in
        let key := group 1 kvMatch in
        let value := trim (group 2 kvMatch) in
        if bool_decide (value = []) then
          {| result := result st1; currentKey := Some key;
             currentList := currentList st1 |}
        else
          {| result := setProp key (JString (unquote value)) (result st1);
             currentKey := None; currentList := currentList st1 |}
    | None => st
    end).
  { destruct (regexMatch keyValuePattern 2 line); [|done]. simpl.
    destruct (bool_decide _); intros _; simpl;
      by apply commitPending_currentList_nil. }
  destruct (regexMatch listItemPattern 1 line); [|done].
  destruct (keySet (currentKey st)) eqn:Es; [|done].
  intros Hs. simpl in Hs. congruence.
Qed.

(** A line that does not start the key [k] leaves it unseen. *)
Lemma parseLine_keyUnseen k st line :
  keyUnseen k st → (∀ v, keyLine line ≠ Some (k, v)) →
  keyUnseen k (parseLine st line).
Proof.
  intros HJ Hline. unfold parseLine. unfold keyLine in Hline.
  destruct (bool_decide (trim line = [])); [done|].
  assert (Hkv : keyUnseen k
    match regexMatch keyValuePattern 2 line with
    | Some kvMatch =>
        let st1 := commitPending st in
        let key := group 1 kvMatch in
        let value := trim (group 2 kvMatch) in
        if bool_decide (value = []) then
          {| result := result st1; currentKey := Some key;
             currentList := currentList st1 |}
        else
          {| result := setProp key (JString (unquote value)) (result st1);
             currentKey := None; currentList := currentList st1 |}
    | None => st
    end).
  { destruct (regexMatch keyValuePattern 2 line) as [m|]; [|done]. simpl in *.
    assert (group 1 m ≠ k) as Hne.
    { intros <-. by eapply Hline. }
    destruct (bool_decide _); split; simpl.
    - by apply commitPending_result.
    - congruence.
    - rewrite getProp_setProp_ne; [|done]. by apply commitPending_result.
    - done. }
  destruct (regexMatch listItemPattern 1 line); [|done].
  destruct (keySet (currentKey st)); [|done].
  destruct HJ. by split.
Qed.

Lemma foldl_parseLine_listNeedsKey lines st :
  listNeedsKey st → listNeedsKey (foldl parseLine st lines).
Proof.
  revert st. induction lines as [|l lines IH]; intros st H; simpl; [done|].
  by apply IH, parseLine_listNeedsKey.
Qed.

Lemma foldl_parseLine_keyUnseen k lines st :
  keyUnseen k st → Forall (λ line, ∀ v, keyLine line ≠ Some (k, v)) lines →
  keyUnseen k (foldl parseLine st lines).
Proof.
  revert st. induction lines as [|l lines IH]; intros st H Hl; simpl; [done|].
  apply Forall_cons in Hl as [Hl Hls]. by apply IH; [apply parseLine_keyUnseen|].
Qed.

Lemma finish_keyUnseen k st : keyUnseen k st → finish st !! k = None.
Proof.
  intros [Hr Hk]. unfold finish.
  destruct (pendingList st) as [[k' l]|] eqn:Ep; [|done].
  rewrite getProp_setProp_ne; [done|]. apply pendingList_key in Ep. congruence.
Qed.

Lemma pstate0_listNeedsKey : listNeedsKey pstate0.
Proof. done. Qed.

Lemma pstate0_keyUnseen k : keyUnseen k pstate0.
Proof. done. Qed.

(** How the loop takes a line that is neither a list item nor a key. *)
Lemma parseLine_other st line :
  listItem line = None → keyLine line = None → parseLine st line = st.
Proof.
  unfold listItem, keyLine, parseLine.
  destruct (bool_decide _); [done|].
  destruct (regexMatch listItemPattern 1 line); [done|].
  by destruct (regexMatch keyValuePattern 2 line).
Qed.

(** How the loop takes a key with an empty value. *)
Lemma parseLine_open_key st line k :
  keyLine line = Some (k, []) →
  parseLine st line
  = {| result := result (commitPending st); currentKey := Some k;
       currentList := currentList (commitPending st) |}.
Proof.
  unfold keyLine, parseLine.
  destruct (bool_decide (trim line = [])); [done|].
  destruct (regexMatch keyValuePattern 2 line) as [m|] eqn:Hm; [|done].
  rewrite (key_line_not_list_item _ _ Hm). simpl. intros [= <- ->]. done.
Qed.



(** A key line that finds no list under construction stores at most its
    own key. *)
Lemma parseLine_next_key st line k k' v :
  keyLine line = Some (k', v) → k' ≠ k →
  currentList st = [] → result st !! k = None →
  keyUnseen k (parseLine st line).
Proof.
  unfold keyLine, parseLine. intros Hline Hne Hl Hr.
  destruct (bool_decide (trim line = [])); [done|].
  destruct (regexMatch keyValuePattern 2 line) as [m|] eqn:Hm; [|done].
  rewrite (key_line_not_list_item _ _ Hm). simpl in *.
  injection Hline as <- <-.
  unfold commitPending. rewrite (pendingList_nil _ Hl).
  destruct (bool_decide _); split; simpl; try done; try congruence.
  by rewrite getProp_setProp_ne.
Qed.







(** The example of the dangling-key drop: the mapping holds [model] only. *)
Example dangling_key_example :
  parseYamlFrontmatter (doc ["---"; "tools:"; "model: opus"; "---"; ""])
  = {[ str "model" := JString (str "opus") ]}.
Proof. vm_compute. reflexivity. Qed.

(** ** Keys with a hyphen *)

Lemma keyLine_word (line k v : jsstring) :
  keyLine line = Some (k, v) → Forall (λ c, isWord c = true) k.
Proof.
  unfold keyLine. destruct (bool_decide _); [done|].
  destruct (regexMatch keyValuePattern 2 line) as [m|] eqn:Hm; [|done].
  apply keyValuePattern_inv in Hm as (key & w & value & _ & _ & Hkey & E1 & _).
  simpl. intros [= <- _]. by rewrite E1.
Qed.

(** Every key of a parsed mapping is made of word characters. *)
Lemma parsed_keys_are_words (content k : jsstring) :
  is_Some (parseYamlFrontmatter content !! k) →
  Forall (λ c, isWord c = true) k.
Proof.
  intros Hsome. destruct (decide (Forall (λ c, isWord c = true) k)) as [|Hk]; [done|].
  exfalso. revert Hsome. unfold parseYamlFrontmatter.
  destruct (regexMatch yamlPattern 1 content) as [m|].
  - unfold parseBlock. rewrite finish_keyUnseen; [by intros [? ?]|].
    apply foldl_parseLine_keyUnseen; [apply pstate0_keyUnseen|].
    apply Forall_forall. intros line _ v Hline.
    by apply keyLine_word in Hline.
  - rewrite lookup_empty. by intros [? ?].
Qed.

(** No document gives the key [argument-hint] a value, so no command has an
    argument hint other than the empty string. *)
Lemma argument_hint_never_parsed (content : jsstring) :
  getProp (str "argument-hint") (parseYamlFrontmatter content) = JUndefined
  ∧ ∀ h sc basePath commandsDir file,
      argumentHint (commandOfFile h sc basePath commandsDir file content)
      = JString [].
Proof.
  assert (E : getProp (str "argument-hint") (parseYamlFrontmatter content)
              = JUndefined).
  { unfold getProp.
    destruct (parseYamlFrontmatter content !! str "argument-hint") as [v|] eqn:E;
      [|done].
    exfalso. assert (H : is_Some (parseYamlFrontmatter content !! str "argument-hint"))
      by (rewrite E; eauto).
    apply parsed_keys_are_words in H. revert H. by_evaluation. }
  split; [done|]. intros. simpl. by rewrite E.
Qed.

(** C1. On a command file whose front matter is the line
    [argument-hint: <file>], the parser returns the empty mapping: the key
    pattern stops at the hyphen, the line is skipped, and the command gets
    the empty string for its argument hint; a key without a hyphen on the
    same line would be read. *)
Theorem argument_hint_lost :
  let content := doc ["---"; "argument-hint: <file>"; "---"; "Run it."] in
  parseYamlFrontmatter content = ∅
  ∧ keyLine (str "argument-hint: <file>") = None
  ∧ keyLine (str "description: <file>")
    = Some (str "description", str "<file>")
  ∧ ∀ h sc basePath commandsDir file,
      argumentHint (commandOfFile h sc basePath commandsDir file content)
      = JString [].
Proof.
  intros content.
  assert (E : parseYamlFrontmatter content = ∅) by (vm_compute; reflexivity).
  split; [done|]. do 2 (split; [vm_compute; reflexivity|]).
  intros. simpl. fold content. by rewrite E.
Qed.

(** ** The trigger section *)

(** A match reads a prefix of the input that remains. *)
Lemma matches_suffix r x y : matches r x y → ∃ w, rest x = w ++ rest y.
Proof.
  induction 1 as [x|p c x Hh Hp|r1 r2 x y z _ [w1 E1] _ [w2 E2]
                 |r1 r2 x y _ IH|r1 r2 x y _ IH|g r x
                 |g r x y z _ [w1 E1] _ _ [w2 E2]|n r x y _ IH|x|x|r x y _ _].
  - by exists [].
  - exists [c]. simpl. destruct (rest x) as [|d s]; simpl in *; by simplify_eq.
  - exists (w1 ++ w2). by rewrite E1, E2, app_assoc.
  - done.
  - done.
  - by exists [].
  - exists (w1 ++ w2). by rewrite E1, E2, app_assoc.
  - done.
  - by exists [].
  - by exists [].
  - by exists [].
Qed.

Lemma asciiUpper_not_letter (c d : N) :
  asciiUpper d = c → ¬ (65 ≤ c ≤ 90)%N → d = c.
Proof.
  unfold asciiUpper. destruct (andb _ _) eqn:E; [|done].
  apply andb_true_iff in E as [H1%N.leb_le H2%N.leb_le]. lia.
Qed.

(** What the lookahead of [triggerPattern] asks of the input that
    remains: a line feed and two hashes, or the letter Z in either case. *)
Lemma matches_trigger_lookahead x y :
  matches (Lookahead (Lit isNoCase (LF :: str "##") ∣ Char (isNoCase 90%N))%re)
          x y →
  (∃ b, rest x = LF :: str "##" ++ b)
  ∨ (∃ c b, rest x = c :: b ∧ asciiUpper c = 90%N).
Proof.
  intros (y' & [H|H]%matches_Alt & _)%matches_Lookahead.
  - left. simpl in H.
    apply matches_Seq in H as (y1 & H1 & H). apply matches_Seq in H as (y2 & H2 & H).
    apply matches_Seq in H as (y3 & H3 & _).
    apply matches_Char in H1 as (c1 & E1 & P1%N.eqb_eq & _).
    apply matches_Char in H2 as (c2 & E2 & P2%N.eqb_eq & _).
    apply matches_Char in H3 as (c3 & E3 & P3%N.eqb_eq & _).
    apply asciiUpper_not_letter in P1; [|vm_compute; intros [? ?]; done].
    apply asciiUpper_not_letter in P2; [|vm_compute; intros [? ?]; done].
    apply asciiUpper_not_letter in P3; [|vm_compute; intros [? ?]; done].
    subst. exists (rest y3). by rewrite E1, E2, E3.
  - right. apply matches_Char in H as (c & E & P%N.eqb_eq & _).
    exists c, (rest y'). split; [done|]. by rewrite P.
Qed.

(** A match of [triggerPattern] ends in front of a second-level heading or
    of a letter Z. *)
Lemma triggerPattern_inv (body : jsstring) m :
  regexMatch triggerPattern 1 body = Some m →
  (∃ a b, body = a ++ LF :: str "##" ++ b)
  ∨ (∃ a c b, body = a ++ c :: b ∧ asciiUpper c = 90%N).
Proof.
  intros (pre & s' & y & E & _ & Hy & _)%regexMatch_sound.
  unfold triggerPattern in Hy.
  apply matches_Seq in Hy as (y1 & [w1 E1]%matches_suffix & H).
  apply matches_Seq in H as (y2 & [w2 E2]%matches_suffix & H).
  apply matches_Seq in H as (y3 & [w3 E3]%matches_suffix & H).
  apply matches_Seq in H as (y4 & [w4 E4]%matches_suffix & H).
  apply matches_Seq in H as (y5 & [w5 E5]%matches_suffix & H).
  apply matches_Seq in H as (y6 & [w6 E6]%matches_suffix & H).
  simpl in E1.
  assert (Eb : body = (pre ++ w1 ++ w2 ++ w3 ++ w4 ++ w5 ++ w6) ++ rest y6).
  { rewrite E, E1, E2, E3, E4, E5, E6. by rewrite <- !app_assoc. }
  apply matches_trigger_lookahead in H as [[b Hb]|(c & b & Hb & Hc)].
  - left. rewrite Hb in Eb. eauto.
  - right. rewrite Hb in Eb. eauto.
Qed.

(** The section that ends the body is never found, unless a letter Z
    follows its heading. *)
Lemma extractTriggers_last_section (body : jsstring) :
  includes (LF :: str "##") body = false →
  Forall (λ c, asciiUpper c ≠ 90%N) body →
  extractTriggers body = [].
Proof.
  intros Hinc Hz. unfold extractTriggers.
  destruct (regexMatch triggerPattern 1 body) as [m|] eqn:Hm; [|done].
  exfalso. apply triggerPattern_inv in Hm as [(a & b & E)|(a & c & b & E & Hc)].
  - rewrite E in Hinc.
    change (LF :: str "##" ++ b) with ((LF :: str "##") ++ b) in Hinc.
    by rewrite includes_app in Hinc.
  - rewrite E in Hz. apply Forall_app in Hz as [_ Hz].
    by apply Forall_cons in Hz as [Hz _].
Qed.

(** A body without two hashes in a row has no trigger. *)
Lemma extractTriggers_no_heading (body : jsstring) :
  includes (str "##") body = false → extractTriggers body = [].
Proof.
  intros Hinc. unfold extractTriggers.
  destruct (regexMatch triggerPattern 1 body) as [m|] eqn:Hm; [|done].
  exfalso. apply regexMatch_sound in Hm as (pre & s' & y & E & _ & Hy & _).
  unfold triggerPattern in Hy.
  apply matches_Seq in Hy as (y1 & H1 & _). simpl in H1.
  apply matches_Seq in H1 as (x1 & C1 & H1).
  apply matches_Seq in H1 as (x2 & C2 & _).
  apply matches_Char in C1 as (c1 & E1 & P1%N.eqb_eq & _).
  apply matches_Char in C2 as (c2 & E2 & P2%N.eqb_eq & _).
  apply asciiUpper_not_letter in P1; [|vm_compute; intros [? ?]; done].
  apply asciiUpper_not_letter in P2; [|vm_compute; intros [? ?]; done].
  subst. simpl in E1. rewrite E1, E2 in Hinc.
  assert (Hinc' : includes (str "##") (pre ++ str "##" ++ rest x2) = false)
    by exact Hinc.
  by rewrite includes_app in Hinc'.
Qed.

(** C7. A trigger section that ends the body yields no trigger, although
    it has list items; the same section yields them once another heading
    follows it.  The end of the section is looked for with the escape [\Z],
    which is the letter Z here and not the end of the input: an item with
    that letter is cut in front of it.  And an item that is indented is kept
    with its hyphen, since the hyphen is looked for at the start of the
    line. *)
Theorem triggers_of_last_section_lost :
  extractTriggers (doc ["## Triggers"; "- run tests"; "- deploy"]) = []
  ∧ extractTriggers (doc ["## Triggers"; "- run tests"; "- deploy"; "";
                          "## Notes"])
    = [str "run tests"; str "deploy"]
  ∧ extractTriggers (doc ["## Triggers"; "- analyze logs"; "- deploy"; "";
                          "## Notes"])
    = [str "analy"]
  ∧ extractTriggers (doc ["## Triggers"; "- run tests"; "  - deploy"; "";
                          "## Notes"])
    = [str "run tests"; str "- deploy"].
Proof. repeat split; vm_compute; reflexivity. Qed.

(** ** The scope merger *)

Lemma mergeNodes_unfold {T} `{GraphNode T} (localNodes globalNodes : list T) :
  mergeNodes localNodes globalNodes
  = localNodes
    ++ filter (λ n, nodeId n ∉ map nodeId localNodes) globalNodes.
Proof.
  unfold mergeNodes. f_equal. apply list_filter_iff.
  intros n. by rewrite elem_of_list_to_set.
Qed.

(** C4. The merged list is the local list followed by the global entries
    whose id is not a local id, both in their order; a global entry whose id
    is a local id is not in the part that follows the local entries; and the
    ids of the merged list are unique when those of each list are. *)
Theorem mergeNodes_spec {T} `{GraphNode T} (localNodes globalNodes : list T) :
  mergeNodes localNodes globalNodes
  = localNodes
    ++ filter (λ n, nodeId n ∉ map nodeId localNodes) globalNodes
  ∧ (∀ n, n ∈ globalNodes → nodeId n ∈ map nodeId localNodes →
          n ∉ drop (length localNodes) (mergeNodes localNodes globalNodes))
  ∧ (NoDup (map nodeId localNodes) → NoDup (map nodeId globalNodes) →
     NoDup (map nodeId (mergeNodes localNodes globalNodes))).
Proof.
  rewrite mergeNodes_unfold. split; [done|]. split.
  - intros n _ Hid. rewrite drop_app_length.
    rewrite list_elem_of_filter. by intros [? _].
  - intros Hl Hg. rewrite map_app. apply NoDup_app. split; [done|]. split.
    + intros i Hi [n [-> Hn]]%(list_elem_of_fmap (nodeId (T:=T))).
      apply list_elem_of_filter in Hn as [Hn _]. done.
    + eapply sublist_NoDup; [exact Hg|].
      apply (fmap_sublist (nodeId (T:=T))), sublist_filter.
Qed.

Lemma mergeNodes_spec_witness :
  NoDup (map nodeId
           (mergeNodes
              (scanAgents demoHost (str "/p/.claude") Local (str "/p"))
              (scanAgents demoHost (str "/p/.claude") Global (str "/p")))).
Proof.
  apply (proj2 (proj2 (mergeNodes_spec _ _))); by_evaluation.
Defined.

(** ** The system prompt *)


(** The agents of a scan are built from the text of the files listed. *)
Lemma scanAgents_elem (h : Host) (claudePath : jsstring) (sc : scope)
  (basePath : jsstring) (a : AgentNode) :
  a ∈ scanAgents h claudePath sc basePath →
  ∃ file content,
    file ∈ globMd h (pathJoin h claudePath (str "agents"))
    ∧ readFile h (resolveSymlink h
                    (pathJoin h (pathJoin h claudePath (str "agents")) file))
      = Some content
    ∧ a = agentOfFile h sc basePath (pathJoin h claudePath (str "agents"))
            file content.
Proof.
  unfold scanAgents. destruct (access h _); [|by intros ?%elem_of_nil].
  intros (file & Hfile & Ha)%list_elem_of_omap.
  apply fmap_Some in Ha as (content & Hc & ->). eauto.
Qed.



(** ** The checks on the roots *)




Lemma findRelationships_error (h : Host) agents skills commands claudePath e :
  findRelationships h agents skills commands claudePath = Throw e →
  e = TypeError.
Proof.
  unfold findRelationships.
  destruct (buildMap h (str "agent:") agents),
           (buildMap h (str "skill:") skills),
           (buildMap h (str "command:") commands); by intros [= <-].
Qed.

Lemma bind_Ok {A B} (o : outcome A) (f : A → outcome B) (b : B) :
  o ≫= f = Ok b ↔ ∃ a, o = Ok a ∧ f a = Ok b.
Proof.
  destruct o as [a|e]; cbn [mbind outcome_bind]; split.
  - intros Hb. by exists a.
  - by intros (a' & [= <-] & Hb).
  - done.
  - intros (a' & Ha & _). discriminate Ha.
Qed.


(** [scanSkills] rejects when the listing of an accessible skills
    directory does, and only then. *)
Lemma scanSkills_error (h : Host) (claudePath : jsstring) (sc : scope)
  (basePath : jsstring) (e : jserror) :
  scanSkills h claudePath sc basePath = Throw e
  ↔ access h (pathJoin h claudePath (str "skills")) = true
    ∧ ∃ code, readdir h (pathJoin h claudePath (str "skills")) = Rejected code
              ∧ e = SystemError code.
Proof.
  unfold scanSkills. destruct (access h _).
  - destruct (readdir h _) as [entries|code]; split.
    + done.
    + by intros (_ & code & ? & _).
    + intros [= <-]. eauto.
    + by intros (_ & code' & [= <-] & ->).
  - split; [done|]. by intros [? _].
Qed.

Lemma writeOutput_Ok (h : Host) (outputPath : jsstring) (g g' : GraphData) :
  writeOutput h outputPath g = Ok g'
  ↔ mkdir h (pathDirname h outputPath) = Resolved ()
    ∧ writeFile h outputPath g = Resolved () ∧ g' = g.
Proof.
  unfold writeOutput.
  destruct (mkdir h _) as [[]|code]; cbn [fsCall mbind outcome_bind].
  - destruct (writeFile h _ _) as [[]|code]; cbn [fsCall mbind outcome_bind].
    + split; [by intros [= <-]|by intros (_ & _ & ->)].
    + split; [done|by intros (_ & ? & _)].
  - split; [done|by intros (? & _)].
Qed.


(** The pieces of a scan that returns. *)
Lemma scanProject_Ok (h : Host) (projectPath outputPath : jsstring)
  (options : ScanOptions) (g : GraphData) :
  scanProject h projectPath outputPath options = Ok g →
  let incL := default true (includeLocal options) in
  let incG := default true (includeGlobal options) in
  let project := pathResolve h projectPath in
  let localPath := pathJoin h project (str ".claude") in
  let globalPath := getGlobalClaudePath h in
  let scanLocal := incL && access h localPath in
  let scanGlobal := incG && access h globalPath in
  let la := if scanLocal then scanAgents h localPath Local project else [] in
  let ls := if scanLocal
            then skillsOf (scanSkills h localPath Local project) else [] in
  let lc := if scanLocal then scanCommands h localPath Local project else [] in
  let ga := if scanGlobal then scanAgents h globalPath Global globalPath
            else [] in
  let gs := if scanGlobal
            then skillsOf (scanSkills h globalPath Global globalPath)
            else [] in
  let gc := if scanGlobal then scanCommands h globalPath Global globalPath
            else [] in
  checkRoots project globalPath incL incG (access h localPath)
             (access h globalPath) = None
  ∧ nodes g = (NAgent <$> mergeNodes la ga) ++ (NSkill <$> mergeNodes ls gs)
              ++ (NCommand <$> mergeNodes lc gc)
  ∧ findRelationships h (mergeNodes la ga) (mergeNodes ls gs)
      (mergeNodes lc gc) localPath = Ok (edges g)
  ∧ agentCount (metadata g) = length la
  ∧ skillCount (metadata g) = length ls
  ∧ commandCount (metadata g) = length lc
  ∧ edgeCount (metadata g) = length (edges g)
  ∧ globalAgentCount (metadata g) = length ga
  ∧ globalSkillCount (metadata g) = length gs
  ∧ globalCommandCount (metadata g) = length gc.
Proof.
  intros Hg. cbv zeta. unfold scanProject in Hg. cbv zeta in Hg.
  destruct (checkRoots _ _ _ _ _ _); [done|].
  apply bind_Ok in Hg as (ls & Hls & Hg).
  apply bind_Ok in Hg as (gs & Hgs & Hg).
  apply bind_Ok in Hg as (es & Hes & Hg).
  apply writeOutput_Ok in Hg as (_ & _ & ->).
  cbn [nodes edges metadata agentCount skillCount
    commandCount edgeCount globalAgentCount globalSkillCount globalCommandCount].
  assert (Els : (if default true (includeLocal options)
                    && access h (pathJoin h (pathResolve h projectPath)
                                   (str ".claude"))
                 then skillsOf (scanSkills h
                        (pathJoin h (pathResolve h projectPath) (str ".claude"))
                        Local (pathResolve h projectPath))
                 else []) = ls).
  { clear -Hls. revert Hls.
    destruct (_ && _); intros Hls; [by rewrite Hls|by injection Hls]. }
  assert (Egs : (if default true (includeGlobal options)
                    && access h (getGlobalClaudePath h)
                 then skillsOf (scanSkills h (getGlobalClaudePath h) Global
                                  (getGlobalClaudePath h))
                 else []) = gs).
  { clear -Hgs. revert Hgs.
    destruct (_ && _); intros Hgs; [by rewrite Hgs|by injection Hgs]. }
  rewrite Els, Egs. by repeat split.
Qed.





(** ** The edge collector *)

Lemma emptyCollector_wellFormed : wellFormed emptyCollector.
Proof. split; [done|constructor]. Qed.

Lemma addEdge_wellFormed s t ty c :
  wellFormed c → wellFormed (addEdge s t ty c).
Proof.
  intros [Hk Hn]. unfold addEdge. destruct (decide _) as [|Hnew]; [done|].
  split; simpl.
  - rewrite fmap_app, list_to_set_app_L, Hk. simpl.
    unfold edgeKeyOf at 2. simpl.
    rewrite (right_id_L ∅ (∪)). apply (comm_L (∪)).
  - rewrite fmap_app. apply NoDup_app. split; [done|]. split.
    + intros k Hin [->|[]%elem_of_nil]%elem_of_cons. apply Hnew.
      rewrite Hk. by apply elem_of_list_to_set.
    + apply NoDup_singleton.
Qed.

Lemma addEdge_remembers s t ty c : edgeKey s t ∈ addedEdges (addEdge s t ty c).
Proof.
  unfold addEdge. destruct (decide _); [done|]. simpl.
  apply elem_of_union_l, elem_of_singleton. done.
Qed.

Lemma addEdge_addedEdges_mono s t ty c :
  addedEdges c ⊆ addedEdges (addEdge s t ty c).
Proof.
  unfold addEdge. destruct (decide _); [done|]. simpl.
  apply union_subseteq_r.
Qed.







(** Edges with different keys have different end points. *)
Lemma wellFormed_endpoints c : wellFormed c → NoDup (endpoints <$> collected c).
Proof.
  intros [_ Hn].
  apply (NoDup_fmap_1 (λ p : jsstring * jsstring, edgeKey p.1 p.2)).
  rewrite <- list_fmap_compose. exact Hn.
Qed.

(** ** The relationship engine *)

Section LookupMaps.
Context (h : Host) {T : Type} `{GraphNode T} (prefix : jsstring).

Lemma buildMap_snoc (ns : list T) (n : T) :
  buildMap h prefix (ns ++ [n])
  = m ← buildMap h prefix ns;
    name ← lowerCased h (nodeName n);
    Some (<[toLowerCase h (replaceFirst prefix [] (nodeId n)) := nodeId n]>
            (<[name := nodeId n]> m)).
Proof. unfold buildMap. by rewrite foldl_app. Qed.

(** The values of a lookup map are ids of the nodes it was built from. *)
Lemma buildMap_values (ns : list T) (m : gmap jsstring jsstring) k id :
  buildMap h prefix ns = Some m → m !! k = Some id → id ∈ nodeId <$> ns.
Proof.
  revert m. induction ns as [|n ns IH] using rev_ind; intros m.
  - intros [= <-]. by rewrite lookup_empty.
  - rewrite buildMap_snoc.
    destruct (buildMap h prefix ns) as [m'|]; [|done]. simpl.
    destruct (lowerCased h (nodeName n)) as [name|]; [|done]. simpl.
    intros [= <-]. rewrite fmap_app, elem_of_app.
    rewrite lookup_insert. destruct (decide _) as [_|_].
    { intros [= <-]. right. by left. }
    rewrite lookup_insert. destruct (decide _) as [_|_].
    { intros [= <-]. right. by left. }
    intros Hk. left. by eapply IH.
Qed.

(** A key that is neither the lower-cased name nor the lower-cased stem of
    a node is not in the lookup map. *)
Lemma buildMap_unknown (ns : list T) (m : gmap jsstring jsstring) key :
  buildMap h prefix ns = Some m →
  Forall (λ n, lowerCased h (nodeName n) ≠ Some key
               ∧ toLowerCase h (replaceFirst prefix [] (nodeId n)) ≠ key)
         ns →
  m !! key = None.
Proof.
  revert m. induction ns as [|n ns IH] using rev_ind; intros m.
  - by intros [= <-] _.
  - rewrite buildMap_snoc. intros Hm [Hns Hn]%Forall_app.
    apply Forall_cons in Hn as [[Hname Hstem] _].
    destruct (buildMap h prefix ns) as [m'|]; [|done]. simpl in Hm.
    destruct (lowerCased h (nodeName n)) as [name|]; [|done]. simpl in Hm.
    injection Hm as <-.
    rewrite lookup_insert_ne by done.
    rewrite lookup_insert_ne by congruence.
    by apply IH.
Qed.
End LookupMaps.

(** A property of the collector that [addEdge] keeps, for sources in [S]
    and targets in [D], is kept by the two passes of the engine. *)
Section Passes.
Context (h : Host) (S D : jsstring → Prop) (P : collector → Prop).
Hypothesis P_addEdge :
  ∀ s t ty c, S s → D t → P c → P (addEdge s t ty c).

Lemma declaredEdge_keeps (map : gmap jsstring jsstring) ty agent c name :
  S (agentId agent) → (∀ k id, map !! k = Some id → D id) →
  P c → P (declaredEdge h map ty agent c name).
Proof.
  intros HS HD HP. unfold declaredEdge.
  destruct (map !! _) as [id|] eqn:E; [|done].
  destruct (truthy _); [|done]. apply P_addEdge; eauto.
Qed.

Lemma declaredEdges_keeps (agentMap skillMap : gmap jsstring jsstring)
  c agent :
  S (agentId agent) →
  (∀ k id, agentMap !! k = Some id → D id) →
  (∀ k id, skillMap !! k = Some id → D id) →
  P c → P (declaredEdges h agentMap skillMap c agent).
Proof.
  intros HS HA HK HP. unfold declaredEdges.
  assert (Hfold : ∀ map ty names c0,
    (∀ k id, map !! k = Some id → D id) → P c0 →
    P (foldl (declaredEdge h map ty agent) c0 names)).
  { intros map ty names. induction names as [|n names IH]; intros c0 Hm Hc0;
      simpl; [done|].
    apply IH; [done|]. by apply declaredEdge_keeps. }
  apply Hfold; [done|]. by apply Hfold.
Qed.

Lemma mentions_keeps {T} `{GraphNode T} prefix content agent
  (ns : list T) c :
  S (agentId agent) → Forall (λ n, D (nodeId n)) ns →
  P c → P (mentions h prefix content agent ns c).1.
Proof.
  intros HS. revert c. induction ns as [|n ns IH]; intros c Hns HP; simpl;
    [done|].
  apply Forall_cons in Hns as [Hn Hns].
  destruct (lowerCased h (nodeName n)); [|done].
  apply IH; [done|]. destruct (_ || _); [|done]. by apply P_addEdge.
Qed.

Lemma contentEdges_keeps claudePath skills commands c agent :
  S (agentId agent) →
  Forall (λ n, D (nodeId n)) skills → Forall (λ n, D (nodeId n)) commands →
  P c → P (contentEdges h claudePath skills commands c agent).
Proof.
  intros HS Hs Hc HP. unfold contentEdges.
  destruct (readFile h _); [|done].
  pose proof (mentions_keeps (str "skill:") (toLowerCase h l) agent skills c
                HS Hs HP) as H1.
  destruct (mentions h (str "skill:") _ agent skills c) as [c1 completed].
  simpl in H1. destruct completed; [|done].
  by apply mentions_keeps.
Qed.

Lemma declaredPass_keeps (agentMap skillMap : gmap jsstring jsstring)
  (agents : list AgentNode) c :
  Forall (λ a, S (agentId a)) agents →
  (∀ k id, agentMap !! k = Some id → D id) →
  (∀ k id, skillMap !! k = Some id → D id) →
  P c → P (foldl (declaredEdges h agentMap skillMap) c agents).
Proof.
  intros Hl HA HK. revert c.
  induction Hl as [|a l Ha _ IH]; intros c Hc; simpl; [done|].
  apply IH. by apply declaredEdges_keeps.
Qed.

Lemma contentPass_keeps claudePath skills commands
  (agents : list AgentNode) c :
  Forall (λ a, S (agentId a)) agents →
  Forall (λ n, D (nodeId n)) skills → Forall (λ n, D (nodeId n)) commands →
  P c → P (foldl (contentEdges h claudePath skills commands) c agents).
Proof.
  intros Hl Hs Hc. revert c.
  induction Hl as [|a l Ha _ IH]; intros c HP; simpl; [done|].
  apply IH. by apply contentEdges_keeps.
Qed.

Lemma collectEdges_keeps (agentMap skillMap : gmap jsstring jsstring)
  agents skills commands claudePath :
  Forall (λ a, S (agentId a)) agents →
  (∀ k id, agentMap !! k = Some id → D id) →
  (∀ k id, skillMap !! k = Some id → D id) →
  Forall (λ n, D (nodeId n)) skills → Forall (λ n, D (nodeId n)) commands →
  P emptyCollector →
  P (collectEdges h agentMap skillMap agents skills commands claudePath).
Proof.
  intros HS HA HK Hs Hc H0. unfold collectEdges.
  apply contentPass_keeps; try done. by apply declaredPass_keeps.
Qed.

Lemma findRelationships_keeps agents skills commands claudePath edges :
  Forall (λ a, S (agentId a)) agents →
  Forall (λ a, D (agentId a)) agents →
  Forall (λ n, D (skillId n)) skills →
  Forall (λ n, D (commandId n)) commands →
  P emptyCollector →
  findRelationships h agents skills commands claudePath = Ok edges →
  ∃ c, P c ∧ collected c = edges.
Proof.
  intros HS HDa HDs HDc H0. unfold findRelationships.
  destruct (buildMap h (str "agent:") agents) as [agentMap|] eqn:Ea; [|done].
  destruct (buildMap h (str "skill:") skills) as [skillMap|] eqn:Es; [|done].
  destruct (buildMap h (str "command:") commands) as [commandMap|]; [|done].
  intros [= <-]. eexists. split; [|done].
  apply collectEdges_keeps; try done.
  - intros k id Hk. eapply buildMap_values in Hk; [|exact Ea].
    apply list_elem_of_fmap in Hk as (a & -> & Ha).
    rewrite Forall_forall in HDa. by apply HDa.
  - intros k id Hk. eapply buildMap_values in Hk; [|exact Es].
    apply list_elem_of_fmap in Hk as (a & -> & Ha).
    rewrite Forall_forall in HDs. by apply HDs.
Qed.
End Passes.

(** The engine returns no two edges with the same source and target. *)
Lemma findRelationships_NoDup (h : Host) agents skills commands claudePath
  edges :
  findRelationships h agents skills commands claudePath = Ok edges →
  NoDup (endpoints <$> edges).
Proof.
  intros Hf.
  destruct (findRelationships_keeps h (λ _, True) (λ _, True) wellFormed
              (λ s t ty c _ _, addEdge_wellFormed s t ty c)
              agents skills commands claudePath edges) as (c & Hc & <-);
    try (by apply Forall_true); [apply emptyCollector_wellFormed|done|].
  by apply wellFormed_endpoints.
Qed.

(** *** One edge for a declared subagent *)

Lemma includes_cons_false (p : jsstring) (c : N) (s : jsstring) :
  includes p (c :: s) = false → includes p s = false.
Proof. simpl. by intros [_ ?]%orb_false_iff. Qed.

(** The key of an edge tells its end points when no arrow occurs in the
    sources. *)
Lemma edgeKey_inj (s1 t1 s2 t2 : jsstring) :
  includes (str "->") s1 = false → includes (str "->") s2 = false →
  edgeKey s1 t1 = edgeKey s2 t2 → s1 = s2 ∧ t1 = t2.
Proof.
  unfold edgeKey. revert s2.
  induction s1 as [|c s1 IH]; intros [|d s2] H1 H2 E.
  - simpl in E. by simplify_eq.
  - exfalso. change (str "->") with [45%N; 62%N] in *. simpl in E.
    injection E as <- E. destruct s2 as [|d s2]; simpl in E; simplify_eq.
  - exfalso. change (str "->") with [45%N; 62%N] in *. simpl in E.
    injection E as -> E. destruct s1 as [|c s1]; simpl in E; simplify_eq.
  - simpl in E. injection E as -> E.
    apply includes_cons_false in H1, H2.
    destruct (IH s2 H1 H2 E) as [-> ->]. done.
Qed.

Lemma filter_none {A} (P : A → Prop) `{∀ x, Decision (P x)} (l : list A) :
  (∀ x, x ∈ l → ¬ P x) → filter P l = [].
Proof.
  induction l as [|y l IH]; intros Hl; [done|].
  rewrite filter_cons. destruct (decide (P y)) as [Hy|_].
  - exfalso. apply (Hl y); [left|done].
  - apply IH. intros x Hx. apply Hl. by right.
Qed.


Section Declared.
Context (h : Host) (agentMap skillMap : gmap jsstring jsstring).
Context (agent : AgentNode) (name id : jsstring).
Hypothesis resolved : agentMap !! trim (toLowerCase h name) = Some id.
Hypothesis nonempty : id ≠ [].

Let key := edgeKey (agentId agent) id.
Let known (c : collector) : Prop := key ∈ addedEdges c.




End Declared.







Lemma declaredEdge_unknown (h : Host) (map : gmap jsstring jsstring) ty agent
  c name :
  map !! trim (toLowerCase h name) = None →
  declaredEdge h map ty agent c name = c.
Proof. intros E. unfold declaredEdge. by rewrite E. Qed.

(** C2. In the graph of a scan that returns, the source and the target of
    every edge are ids of nodes of the graph.  And a name of a [subagents]
    or [skills] list whose trimmed lower case is neither the lower-cased
    name nor the lower-cased id stem of a node of the kind looked up leaves
    the collector as it is. *)
Theorem edges_reference_nodes (h : Host) :
  (∀ projectPath outputPath options g,
     scanProject h projectPath outputPath options = Ok g →
     ∀ e, e ∈ edges g →
          source e ∈ nodeId <$> nodes g ∧ target e ∈ nodeId <$> nodes g)
  ∧ (∀ (T : Type) (HT : GraphNode T) (prefix : jsstring) (ns : list T)
       (map : gmap jsstring jsstring) ty agent c name,
       buildMap h prefix ns = Some map →
       Forall (λ n, lowerCased h (nodeName n)
                    ≠ Some (trim (toLowerCase h name))
                    ∧ toLowerCase h (replaceFirst prefix [] (nodeId n))
                      ≠ trim (toLowerCase h name)) ns →
       declaredEdge h map ty agent c name = c).
Proof.
  split.
  - intros projectPath outputPath options g Hg.
    apply scanProject_Ok in Hg. cbv zeta in Hg.
    destruct Hg as (_ & Hn & Hf & _). revert Hn Hf.
    set (agents := mergeNodes _ _). set (skills := mergeNodes _ _).
    set (commands := mergeNodes _ _). intros Hn Hf. rewrite Hn.
    set (ids := nodeId <$> (NAgent <$> agents) ++ (NSkill <$> skills)
                             ++ (NCommand <$> commands)).
    assert (Ha : ∀ a, a ∈ agents → agentId a ∈ ids).
    { intros a Ha. unfold ids. rewrite !fmap_app, <- !list_fmap_compose.
      apply elem_of_app. left. by apply (list_elem_of_fmap_2 agentId). }
    assert (Hs : ∀ s, s ∈ skills → skillId s ∈ ids).
    { intros s Hs. unfold ids. rewrite !fmap_app, <- !list_fmap_compose.
      apply elem_of_app. right. apply elem_of_app. left.
      by apply (list_elem_of_fmap_2 skillId). }
    assert (Hc : ∀ c, c ∈ commands → commandId c ∈ ids).
    { intros c Hc. unfold ids. rewrite !fmap_app, <- !list_fmap_compose.
      apply elem_of_app. right. apply elem_of_app. right.
      by apply (list_elem_of_fmap_2 commandId). }
    assert (HP : ∀ s t ty c, s ∈ ids → t ∈ ids →
               Forall (λ e, source e ∈ ids ∧ target e ∈ ids) (collected c) →
               Forall (λ e, source e ∈ ids ∧ target e ∈ ids)
                      (collected (addEdge s t ty c))).
    { intros s t ty c Hsrc Htgt Hcoll. unfold addEdge.
      destruct (decide _); [done|]. simpl. apply Forall_app. split; [done|].
      by repeat constructor. }
    destruct (findRelationships_keeps h (λ id, id ∈ ids) (λ id, id ∈ ids)
                (λ c, Forall (λ e, source e ∈ ids ∧ target e ∈ ids)
                        (collected c)) HP agents skills commands
                (pathJoin h (pathResolve h projectPath) (str ".claude"))
                (edges g))
      as (c & Hcoll & <-); try (by apply Forall_forall); try exact Hf;
      try (by constructor).
  - intros T HT prefix ns map ty agent c name Hmap Hns.
    apply declaredEdge_unknown. by eapply buildMap_unknown.
Qed.

Lemma edges_reference_nodes_witness :
  (∃ g, scanProject demoHost (str "/p") (str "/p/graph.json") defaultOptions
        = Ok g
        ∧ ∀ e, e ∈ edges g →
               source e ∈ nodeId <$> nodes g ∧ target e ∈ nodeId <$> nodes g)
  ∧ (∀ agentMap agent c,
       buildMap demoHost (str "agent:")
         (scanAgents demoHost (str "/p/.claude") Local (str "/p"))
       = Some agentMap →
       declaredEdge demoHost agentMap Calls agent c (str "ghost") = c).
Proof.
  split.
  - destruct (scanProject demoHost (str "/p") (str "/p/graph.json")
                defaultOptions) as [g|] eqn:E;
      [|by vm_compute in E].
    exists g. split; [done|].
    by apply (proj1 (edges_reference_nodes demoHost) (str "/p")
                (str "/p/graph.json") defaultOptions).
  - intros agentMap agent c Hmap.
    apply (proj2 (edges_reference_nodes demoHost) _ _ _ _ _ _ _ _ _ Hmap).
    repeat constructor; by vm_compute.
Defined.

(** ** The list-field normaliser *)

Lemma dropWhile_length {A} (p : A → bool) (l : list A) :
  length (dropWhile p l) ≤ length l.
Proof.
  induction l as [|a l IH]; simpl; [done|]. destruct (p a); simpl; lia.
Qed.

Lemma dropWhile_length_eq {A} (p : A → bool) (l : list A) :
  length (dropWhile p l) = length l → dropWhile p l = l.
Proof.
  destruct l as [|a l]; simpl; [done|]. destruct (p a); [|done].
  pose proof (dropWhile_length p l). lia.
Qed.

Lemma trimEnd_length (s : jsstring) : length (trimEnd s) ≤ length s.
Proof.
  unfold trimEnd. rewrite length_reverse.
  etrans; [apply dropWhile_length|]. by rewrite length_reverse.
Qed.

(** A string that trimming leaves alone starts with no white space. *)
Lemma trim_fixed_trimStart (s : jsstring) : trim s = s → trimStart s = s.
Proof.
  intros E. apply dropWhile_length_eq. apply (f_equal length) in E.
  unfold trim in E. pose proof (trimEnd_length (trimStart s)).
  pose proof (dropWhile_length isSpace s). unfold trimStart in *. lia.
Qed.

Lemma trim_pad (pad s : jsstring) :
  Forall (λ c, isSpace c = true) pad → trim s = s → s ≠ [] →
  trim (pad ++ s) = s.
Proof.
  intros Hpad E Hne. pose proof (trim_fixed_trimStart s E) as Es.
  unfold trim. replace (trimStart (pad ++ s)) with (trimStart s).
  { exact E. }
  unfold trimStart. induction Hpad as [|c pad Hc _ IH]; simpl; [done|].
  by rewrite Hc.
Qed.

Lemma trim_spaces (pad : jsstring) :
  Forall (λ c, isSpace c = true) pad → trim pad = [].
Proof.
  intros Hpad. unfold trim. replace (trimStart pad) with (@nil N); [done|].
  unfold trimStart. induction Hpad as [|c pad Hc _ IH]; simpl; [done|].
  by rewrite Hc.
Qed.

(** What the normaliser makes of a comma-separated string, when the items
    are trimmed, not empty and without a comma. *)
Lemma parseListField_joinComma (items : list jsstring) : ∀ pad,
  Forall (λ c, isSpace c = true) pad → COMMA ∉ pad →
  Forall (λ x, trim x = x ∧ x ≠ [] ∧ COMMA ∉ x) items →
  parseListField (JString (pad ++ joinComma items)) = items.
Proof.
  induction items as [|x items IH]; intros pad Hpad Hcpad Hitems.
  - simpl. rewrite app_nil_r, split_no_sep by done. simpl.
    rewrite trim_spaces by done. rewrite filter_cons.
    by destruct (decide _).
  - apply Forall_cons in Hitems as [(Ex & Hne & Hc) Hitems].
    assert (Hone : filter (λ s : jsstring, s ≠ []) (map trim [pad ++ x]) = [x]).
    { simpl. rewrite trim_pad by done. rewrite filter_cons.
      by destruct (decide _). }
    destruct items as [|y items].
    + simpl. rewrite split_no_sep; [done|].
      by apply not_elem_of_app.
    + change (joinComma (x :: y :: items))
        with (x ++ COMMA :: ([32%N] ++ joinComma (y :: items))).
      unfold parseListField. rewrite app_assoc, split_app, map_app, filter_app.
      rewrite split_no_sep by by apply not_elem_of_app.
      rewrite Hone. simpl. f_equal.
      apply (IH [32%N]); [by repeat constructor| |done].
      by_evaluation.
Qed.

(** Splitting undoes joining, and joining undoes splitting. *)
Lemma split_joinWith (sep : N) (ls : list jsstring) :
  ls ≠ [] → Forall (λ l, sep ∉ l) ls → split sep (joinWith sep ls) = ls.
Proof.
  induction ls as [|l ls IH]; [done|]. intros _ Hall.
  apply Forall_cons in Hall as [Hl Hall].
  destruct ls as [|l' ls].
  - simpl. by apply split_no_sep.
  - change (joinWith sep (l :: l' :: ls))
      with (l ++ sep :: joinWith sep (l' :: ls)).
    rewrite split_app, IH, split_no_sep; done.
Qed.

Lemma joinWith_split (sep : N) (s : jsstring) :
  joinWith sep (split sep s) = s ∧ Forall (λ l, sep ∉ l) (split sep s).
Proof.
  induction s as [|c s [IH1 IH2]]; simpl.
  - split; [done|]. repeat constructor. apply not_elem_of_nil.
  - pose proof (split_nonempty sep s) as Hne.
    destruct (N.eqb_spec c sep) as [->|Hc].
    + split.
      * destruct (split sep s) as [|l ls]; [done|]. simpl in *.
        by rewrite IH1.
      * constructor; [apply not_elem_of_nil|done].
    + destruct (split sep s) as [|l ls]; [done|].
      apply Forall_cons in IH2 as [Hl Hls]. split.
      * destruct ls as [|l' ls]; simpl in *; by rewrite <- IH1.
      * constructor; [|done].
        intros [?|?]%elem_of_cons; [by apply Hc|by apply Hl].
Qed.

(** The claim that every value normalises to trimmed, non-empty strings
    fails on a list that the parser itself produces: a list item made of
    white space only is pushed as the empty string, and the normaliser
    returns a list as it is, where the same items in one comma-separated
    string lose the empty one. *)
Lemma parseListField_keeps_empty_items :
  getProp (str "tools")
    (parseYamlFrontmatter (doc ["---"; "tools:"; "  -  "; "  - Read"; "---"; ""]))
  = JArray [[]; str "Read"]
  ∧ ¬ Forall (λ s, trim s = s ∧ s ≠ [])
        (parseListField
           (getProp (str "tools")
              (parseYamlFrontmatter
                 (doc ["---"; "tools:"; "  -  "; "  - Read"; "---"; ""]))))
  ∧ parseListField (JArray [[]; str "Read"])
    ≠ parseListField (JString (joinComma [[]; str "Read"])).
Proof.
  assert (E : getProp (str "tools")
                (parseYamlFrontmatter
                   (doc ["---"; "tools:"; "  -  "; "  - Read"; "---"; ""]))
              = JArray [[]; str "Read"]) by (vm_compute; reflexivity).
  split; [done|]. rewrite E. simpl. split.
  - intros [[_ H] _]%Forall_cons. done.
  - by vm_compute.
Qed.

(** C8, amended.  A list is returned as it is, with no item trimmed or
    dropped.  A string is split at its commas into items that are trimmed
    and not empty: pieces without a comma, joined by commas, give the
    pieces that are not white space only, each trimmed, in their order, and
    every string is such a join.  So a list of trimmed, non-empty items
    without a comma and the same items in one comma-separated string
    normalise to the same list, as the two-item list and the string [a, b]
    do.  An absent value and a value of another type give the empty
    list. *)
Theorem parseListField_spec :
  (∀ l, parseListField (JArray l) = l)
  ∧ (∀ s, Forall (λ x, trim x = x ∧ x ≠ []) (parseListField (JString s)))
  ∧ (∀ pieces, pieces ≠ [] → Forall (λ p, COMMA ∉ p) pieces →
               parseListField (JString (joinWith COMMA pieces))
               = filter (λ p, p ≠ []) (map trim pieces))
  ∧ (∀ s, ∃ pieces, pieces ≠ [] ∧ Forall (λ p, COMMA ∉ p) pieces
                    ∧ s = joinWith COMMA pieces)
  ∧ parseListField (JString (str "a,b")) = [str "a"; str "b"]
  ∧ parseListField (JString (str " a , b ")) = [str "a"; str "b"]
  ∧ parseListField (JString (str ",a,,b, ,")) = [str "a"; str "b"]
  ∧ (∀ items, Forall (λ x, trim x = x ∧ x ≠ [] ∧ COMMA ∉ x) items →
              parseListField (JString (joinComma items))
              = parseListField (JArray items))
  ∧ parseListField (JArray [str "a"; str "b"]) = [str "a"; str "b"]
  ∧ parseListField (JString (str "a, b")) = [str "a"; str "b"]
  ∧ parseListField JUndefined = []
  ∧ parseListField JNull = []
  ∧ (∀ b, parseListField (JBool b) = [])
  ∧ (∀ z, parseListField (JNumber z) = []).
Proof.
  split; [done|].
  split; [|split; [|split; [|split; [|split; [|split;
    [|split; [|by repeat split]]]]]]]; try (by vm_compute).
  - intros s. simpl. apply Forall_forall. intros x [Hne Hx]%list_elem_of_filter.
    split; [|done]. apply list_elem_of_In, in_map_iff in Hx as (piece & <- & _).
    apply trim_idemp.
  - intros pieces Hne Hpieces. unfold parseListField.
    by rewrite split_joinWith.
  - intros s. exists (split COMMA s).
    destruct (joinWith_split COMMA s) as [E H].
    split; [apply split_nonempty|]. by split.
  - intros items Hitems.
    apply (parseListField_joinComma items []); [constructor| |done].
    apply not_elem_of_nil.
Qed.

Lemma parseListField_spec_witness :
  parseListField (JString (joinComma [str "Read"; str "Write"; str "Bash"]))
  = parseListField (JArray [str "Read"; str "Write"; str "Bash"]).
Proof.
  apply (proj1 (proj2 (proj2 (proj2 (proj2 (proj2 (proj2 (proj2
            parseListField_spec)))))))).
  repeat (apply Forall_cons; split;
          [split; [by vm_compute|split; [done|by_evaluation]]|]).
  apply Forall_nil_2.
Defined.

(** ** A document with a front-matter block *)

Lemma after_app w1 w2 x : after (w1 ++ w2) x = after w2 (after w1 x).
Proof.
  unfold after. simpl. rewrite length_app, drop_drop. f_equal. lia.
Qed.

Lemma rest_after w r x : rest x = w ++ r → rest (after w x) = r.
Proof. intros Hx. simpl. by rewrite Hx, drop_app_length. Qed.

Lemma advance_after x : advance x = after [LF] x.
Proof.
  unfold advance, after. simpl. f_equal. lia.
Qed.

(** A literal reads itself. *)
Lemma rmatch_Lit_isChar (s r : jsstring) : ∀ x k,
  rest x = s ++ r → rmatch (Lit isChar s) x k = k (after s x).
Proof.
  induction s as [|c s IH]; intros x k Hx.
  - by rewrite after_nil.
  - change (Lit isChar (c :: s)) with (Seq (Char (isChar c)) (Lit isChar s)).
    rewrite rmatch_Seq_eq, (rmatch_Char_eq _ _ _ c (s ++ r));
      [|done|apply N.eqb_refl].
    rewrite IH by (simpl; by rewrite Hx). by rewrite after_cons.
Qed.

(** A lazy star stops at the first place where the continuation accepts. *)
Lemma rmatch_Star_Char_first (p : N → bool) (w r : jsstring) : ∀ x k z,
  rest x = w ++ r → Forall (λ c, p c = true) w →
  (∀ w1 w2, w = w1 ++ w2 → w2 ≠ [] → k (after w1 x) = None) →
  k (after w x) = Some z →
  rmatch (Star false (Char p)) x k = Some z.
Proof.
  induction w as [|c w IH]; intros x k z Hx Hw Hnone Hk;
    rewrite rmatch_Star_Char, Hx.
  - rewrite after_nil in Hk. simpl. rewrite Hk. by destruct r.
  - apply Forall_cons in Hw as [Hc Hw]. rewrite after_cons in Hk.
    change ((c :: w) ++ r) with (c :: (w ++ r)). cbv beta iota.
    assert (Hx0 : k x = None).
    { rewrite <- (after_nil x). by apply (Hnone [] (c :: w)). }
    rewrite Hx0, Hc. apply IH; [simpl; by rewrite Hx|done| |done].
    intros w1 w2 -> Hw2. rewrite <- (after_cons c). by apply (Hnone (c :: w1) w2).
Qed.

(** A greedy star whose continuation refuses every run gives nothing. *)
Lemma rmatch_Star_Char_none (p : N → bool) (w r : jsstring) : ∀ x k,
  rest x = w ++ r → Forall (λ c, p c = true) w →
  match r with [] => True | c :: _ => p c = false end →
  (∀ w1 w2, w = w1 ++ w2 → k (after w1 x) = None) →
  rmatch (Star true (Char p)) x k = None.
Proof.
  induction w as [|c w IH]; intros x k Hx Hw Hr Hnone;
    rewrite rmatch_Star_Char, Hx.
  - change ([] ++ r) with r.
    pose proof (Hnone [] [] eq_refl) as H0. rewrite after_nil in H0.
    destruct r as [|d r]; cbv beta iota; [done|]. by rewrite Hr.
  - apply Forall_cons in Hw as [Hc Hw].
    change ((c :: w) ++ r) with (c :: (w ++ r)). cbv beta iota. rewrite Hc.
    rewrite (IH (advance x) k); [| simpl; by rewrite Hx | done | done |].
    + pose proof (Hnone [] (c :: w) eq_refl) as H0. by rewrite after_nil in H0.
    + intros w1 w2 ->. rewrite <- (after_cons c). by apply (Hnone (c :: w1) w2).
Qed.

(** A greedy star gives back what it has read until the continuation
    accepts: the longest run that the continuation accepts wins. *)
Lemma rmatch_Star_Char_last (p : N → bool) (w1 w2 r : jsstring) : ∀ x k z,
  rest x = w1 ++ w2 ++ r → Forall (λ c, p c = true) (w1 ++ w2) →
  match r with [] => True | c :: _ => p c = false end →
  k (after w1 x) = Some z →
  (∀ a b, w2 = a ++ b → a ≠ [] → k (after (w1 ++ a) x) = None) →
  rmatch (Star true (Char p)) x k = Some z.
Proof.
  induction w1 as [|c w1 IH]; intros x k z Hx Hw Hr Hk Hnone;
    rewrite rmatch_Star_Char, Hx.
  - rewrite after_nil in Hk. change ([] ++ w2 ++ r) with (w2 ++ r).
    destruct w2 as [|c w2].
    + change ([] ++ r) with r. destruct r as [|d r]; cbv beta iota; [done|].
      by rewrite Hr.
    + apply Forall_cons in Hw as [Hc Hw].
      change ((c :: w2) ++ r) with (c :: (w2 ++ r)). cbv beta iota. rewrite Hc.
      rewrite (rmatch_Star_Char_none p w2 r (advance x) k);
        [done| simpl; by rewrite Hx | done | done |].
      intros a b ->. rewrite <- (after_cons c).
      by apply (Hnone (c :: a) b).
  - apply Forall_cons in Hw as [Hc Hw]. rewrite after_cons in Hk.
    change ((c :: w1) ++ w2 ++ r) with (c :: (w1 ++ w2 ++ r)).
    cbv beta iota. rewrite Hc.
    rewrite (IH (advance x) k z); [done| simpl; by rewrite Hx |done|done|done|].
    intros a b Hab Ha. rewrite <- (after_cons c). by apply (Hnone a b).
Qed.

Lemma rmatch_Char_none p x k :
  match rest x with [] => True | c :: _ => p c = false end →
  rmatch (Char p) x k = None.
Proof. simpl. destruct (rest x); [done|]. by intros ->. Qed.

(** The closing delimiter, read where it stands: the white space after the
    hyphens is read up to its last line feed. *)
Lemma rmatch_closing (R1 R2 r : jsstring) (x : mstate) :
  rest x = LF :: str "---" ++ R1 ++ LF :: R2 ++ r →
  Forall (λ c, isSpace c = true) R1 → Forall (λ c, isSpace c = true) R2 →
  LF ∉ R2 →
  match r with [] => True | c :: _ => isSpace c = false end →
  rmatch (Char (isChar LF) ⋅ Lit isChar (str "---")
          ⋅ Star true (Char isSpace) ⋅ Char (isChar LF))%re x Some
  = Some (after (LF :: str "---" ++ R1 ++ [LF]) x).
Proof.
  intros Hx H1 H2 Hlf Hr.
  rewrite rmatch_Seq_eq, (rmatch_Char_eq _ _ _ LF _ Hx) by apply N.eqb_refl.
  assert (Hx1 : rest (advance x) = str "---" ++ R1 ++ LF :: R2 ++ r).
  { unfold advance. simpl. by rewrite Hx. }
  rewrite rmatch_Seq_eq, (rmatch_Lit_isChar _ _ _ _ Hx1), rmatch_Seq_eq.
  pose proof (rest_after _ _ _ Hx1) as Hx2.
  set (x2 := after (str "---") (advance x)) in *.
  assert (Hend : after (LF :: str "---" ++ R1 ++ [LF]) x
                 = advance (after R1 x2)).
  { rewrite after_cons, after_app, after_app. fold x2.
    by rewrite (advance_after (after R1 x2)). }
  rewrite Hend.
  apply (rmatch_Star_Char_last isSpace R1 (LF :: R2) r).
  - exact Hx2.
  - apply Forall_app. split; [done|]. by constructor.
  - exact Hr.
  - apply (rmatch_Char_eq _ _ _ LF (R2 ++ r)); [|apply N.eqb_refl].
    by apply rest_after.
  - intros a b Hab Ha. destruct a as [|c a]; [done|].
    simpl in Hab. apply (inj2 cons) in Hab as [<- ->].
    assert (Hrest : rest (after (R1 ++ LF :: a) x2) = b ++ r).
    { apply rest_after. rewrite Hx2. by rewrite <- !app_assoc. }
    apply rmatch_Char_none. rewrite Hrest.
    destruct b as [|d b].
    + simpl. destruct r as [|d r]; [done|].
      apply N.eqb_neq. intros ->. by vm_compute in Hr.
    + simpl. apply N.eqb_neq. intros ->. apply Hlf.
      apply elem_of_app. right. left.
Qed.

Lemma head_split_app (a b : jsstring) :
  head (split LF (a ++ LF :: b)) = head (split LF a).
Proof.
  rewrite split_app. pose proof (split_nonempty LF a).
  by destruct (split LF a).
Qed.

Lemma split_hyphens (w : jsstring) :
  split LF (str "---" ++ w)
  = match split LF w with
    | l :: ls => (str "---" ++ l) :: ls
    | [] => []
    end.
Proof.
  change (str "---" ++ w) with (45%N :: 45%N :: 45%N :: w).
  pose proof (split_nonempty LF w).
  unfold LF in *. simpl. by destruct (split 10%N w).
Qed.

(** A closing delimiter that starts inside the block is one of its lines,
    and not the first. *)
Lemma no_earlier_closing (w1 w2 T w rest' : jsstring) :
  w2 ≠ [] → w2 ++ LF :: T = LF :: str "---" ++ w ++ LF :: rest' →
  Forall (λ c, isSpace c = true) w →
  ∃ d, d ∈ tail (split LF (w1 ++ w2)) ∧ isDelimiterLine d = true.
Proof.
  intros Hne E Hw. destruct w2 as [|c w2]; [done|].
  change ((c :: w2) ++ LF :: T) with (c :: (w2 ++ LF :: T)) in E.
  apply (inj2 cons) in E as [-> E].
  rewrite split_app.
  pose proof (split_nonempty LF w1) as H1.
  pose proof (split_nonempty LF w2) as H2.
  destruct (split LF w1) as [|l1 ls1]; [done|].
  destruct (split LF w2) as [|d ls2] eqn:E2; [done|].
  exists d. split.
  { simpl. apply elem_of_app. right. left. }
  assert (Hd : head (split LF (w2 ++ LF :: T)) = Some d).
  { by rewrite head_split_app, E2. }
  rewrite E in Hd.
  replace (str "---" ++ w ++ LF :: rest')
    with ((str "---" ++ w) ++ LF :: rest') in Hd by by rewrite <- app_assoc.
  rewrite head_split_app, split_hyphens in Hd.
  pose proof (split_Forall _ LF w Hw) as Hall.
  destruct (split LF w) as [|l0 ls0]; [done|].
  apply Forall_cons in Hall as [Hl0 _].
  simpl in Hd. apply (inj Some) in Hd as <-. simpl.
  apply forallb_forall. intros c Hc. rewrite Forall_forall in Hl0.
  apply Hl0. by apply list_elem_of_In.
Qed.

Section Delimited.
Context (mid : regex) (f : mstate → mstate → mstate).
Hypothesis mid_lazy : ∀ x k,
  rmatch mid x k = rmatch (Star false (Char dotAll)) x (λ y, k (f x y)).
Hypothesis f_rest : ∀ x y, rest (f x y) = rest y.

Lemma rmatch_block (block R1 R2 r : jsstring) (x : mstate) :
  rest x = block ++ LF :: str "---" ++ R1 ++ LF :: R2 ++ r →
  Forall (λ l, isDelimiterLine l = false) (tail (split LF block)) →
  Forall (λ c, isSpace c = true) R1 → Forall (λ c, isSpace c = true) R2 →
  LF ∉ R2 →
  match r with [] => True | c :: _ => isSpace c = false end →
  rmatch (mid ⋅ Char (isChar LF) ⋅ Lit isChar (str "---")
          ⋅ Star true (Char isSpace) ⋅ Char (isChar LF))%re x Some
  = Some (after (LF :: str "---" ++ R1 ++ [LF]) (f x (after block x))).
Proof.
  intros Hx Hlines H1 H2 Hlf Hr.
  rewrite rmatch_Seq_eq, mid_lazy.
  apply (rmatch_Star_Char_first dotAll block
           (LF :: str "---" ++ R1 ++ LF :: R2 ++ r)).
  - exact Hx.
  - by apply Forall_true.
  - intros w1 w2 -> Hw2.
    match goal with |- ?t = None => destruct t as [z|] eqn:Hz; [|done] end.
    exfalso.
    apply rmatch_sound in Hz as (y & Hy & _).
    apply matches_closing in Hy as (w & E & Hw).
    rewrite f_rest in E.
    rewrite (rest_after w1 (w2 ++ LF :: str "---" ++ R1 ++ LF :: R2 ++ r)) in E
      by by rewrite Hx, <- app_assoc.
    destruct (no_earlier_closing w1 w2 _ _ _ Hw2 E Hw) as (d & Hd & Hdel).
    rewrite Forall_forall in Hlines. specialize (Hlines d Hd). congruence.
  - apply (rmatch_closing R1 R2 r); try done.
    rewrite f_rest. by apply rest_after.
Qed.

(** A document that opens with a delimiter line and whose block starts
    with something else than white space. *)
Lemma rmatch_delimited (n : nat) (W block R1 R2 r : jsstring) :
  Forall (λ c, isSpace c = true) W →
  match block with [] => False | c :: _ => isSpace c = false end →
  Forall (λ l, isDelimiterLine l = false) (tail (split LF block)) →
  Forall (λ c, isSpace c = true) R1 → Forall (λ c, isSpace c = true) R2 →
  LF ∉ R2 →
  match r with [] => True | c :: _ => isSpace c = false end →
  let content :=
    str "---" ++ W ++ LF :: block ++ LF :: str "---" ++ R1 ++ LF :: R2 ++ r in
  let x := after (str "---" ++ W ++ [LF]) (initial n 0 content) in
  rmatch (Bol ⋅ Lit isChar (str "---") ⋅ Star true (Char isSpace)
          ⋅ Char (isChar LF) ⋅ mid ⋅ Char (isChar LF) ⋅ Lit isChar (str "---")
          ⋅ Star true (Char isSpace) ⋅ Char (isChar LF))%re
         (initial n 0 content) Some
  = Some (after (LF :: str "---" ++ R1 ++ [LF]) (f x (after block x))).
Proof.
  intros HW Hb Hlines H1 H2 Hlf Hr content x.
  set (x0 := initial n 0 content).
  set (tl := block ++ LF :: str "---" ++ R1 ++ LF :: R2 ++ r).
  assert (Hx0 : rest x0 = str "---" ++ W ++ LF :: tl) by done.
  rewrite rmatch_Seq_eq, rmatch_Bol_eq by done.
  rewrite rmatch_Seq_eq, (rmatch_Lit_isChar _ _ _ _ Hx0), rmatch_Seq_eq.
  pose proof (rest_after _ _ _ Hx0) as Hx1.
  set (x1 := after (str "---") x0) in *.
  assert (Ex : x = advance (after W x1)).
  { unfold x. rewrite after_app, after_app. fold x0. fold x1.
    by rewrite (advance_after (after W x1)). }
  assert (Hx : rest x = tl).
  { rewrite Ex.
    change (rest (advance (after W x1))) with (tail (rest (after W x1))).
    by rewrite (rest_after W (LF :: tl)). }
  apply (rmatch_Star_Char_last isSpace W [LF] tl).
  - exact Hx1.
  - apply Forall_app. split; [done|]. by constructor.
  - unfold tl. destruct block as [|c b]; [done|]. exact Hb.
  - rewrite rmatch_Seq_eq.
    rewrite (rmatch_Char_eq _ _ _ LF tl); [|by apply rest_after|apply N.eqb_refl].
    rewrite <- Ex. by apply (rmatch_block block R1 R2 r).
  - intros a b Hab Ha. destruct a as [|c a]; [done|].
    destruct a; [|by destruct a].
    apply (inj2 cons) in Hab as [<- <-].
    rewrite rmatch_Seq_eq. apply rmatch_Char_none.
    rewrite (rest_after (W ++ [LF]) tl) by by rewrite Hx1, <- app_assoc.
    unfold tl. destruct block as [|c b]; [done|]. simpl.
    apply N.eqb_neq. intros ->. by vm_compute in Hb.
Qed.

End Delimited.

Lemma takeWhile_Forall {A} (p : A → bool) (l : list A) :
  Forall (λ c, p c = true) (takeWhile p l).
Proof.
  induction l as [|a l IH]; simpl; [done|].
  destruct (p a) eqn:E; by constructor.
Qed.

Lemma dropWhile_stop {A} (p : A → bool) (l : list A) :
  match dropWhile p l with [] => True | c :: _ => p c = false end.
Proof.
  induction l as [|a l IH]; simpl; [done|]. by destruct (p a) eqn:E.
Qed.

Lemma trimStart_pad (pad s : jsstring) :
  Forall (λ c, isSpace c = true) pad → trimStart (pad ++ s) = trimStart s.
Proof.
  unfold trimStart. induction 1 as [|c pad Hc _ IH]; simpl; [done|].
  by rewrite Hc.
Qed.

Lemma trim_pad_l (pad s : jsstring) :
  Forall (λ c, isSpace c = true) pad → trim (pad ++ s) = trim s.
Proof. intros H. unfold trim. by rewrite trimStart_pad. Qed.

(** What follows the hyphens of the closing delimiter line: white space up
    to a last line feed, more white space, and the rest. *)
Lemma closing_decompose (sp body : jsstring) :
  Forall (λ c, isSpace c = true) sp →
  ∃ R1 R2 r, sp ++ LF :: body = R1 ++ LF :: R2 ++ r
    ∧ Forall (λ c, isSpace c = true) R1 ∧ Forall (λ c, isSpace c = true) R2
    ∧ (LF ∉ R2)
    ∧ match r with [] => True | c :: _ => isSpace c = false end
    ∧ trim (R2 ++ r) = trim body.
Proof.
  intros Hsp.
  assert (Hin : LF ∈ sp ++ LF :: takeWhile isSpace body).
  { apply elem_of_app. right. left. }
  apply list_elem_of_split_r in Hin as (R1 & R2 & E & Hlf).
  assert (Hall : Forall (λ c, isSpace c = true) (R1 ++ LF :: R2)).
  { rewrite <- E. apply Forall_app. split; [done|].
    constructor; [done|]. apply takeWhile_Forall. }
  apply Forall_app in Hall as [H1 H2]. apply Forall_cons in H2 as [_ H2].
  exists R1, R2, (dropWhile isSpace body). repeat split; try done.
  - transitivity ((sp ++ LF :: takeWhile isSpace body)
                    ++ dropWhile isSpace body).
    + rewrite <- app_assoc. simpl. by rewrite dropWhile_takeWhile.
    + by rewrite E, <- app_assoc.
  - apply dropWhile_stop.
  - rewrite trim_pad_l by done.
    rewrite <- (dropWhile_takeWhile isSpace body) at 2.
    rewrite trim_pad_l; [done|]. apply takeWhile_Forall.
Qed.

(** X3. A document that opens with a delimiter line, has a block that
    starts with something else than white space and none of whose lines
    after the first is a delimiter line, and then a closing delimiter line
    that a line feed ends: the parser reads the block, and the body is what
    follows the closing line, trimmed. *)
Theorem front_matter_block (W block sp body : jsstring) :
  Forall (λ c, isSpace c = true) W →
  Forall (λ c, isSpace c = true) sp →
  match block with [] => False | c :: _ => isSpace c = false end →
  Forall (λ l, isDelimiterLine l = false) (tail (split LF block)) →
  let content :=
    str "---" ++ W ++ LF :: block ++ LF :: str "---" ++ sp ++ LF :: body in
  parseYamlFrontmatter content = parseBlock block
  ∧ extractBodyContent content = trim body.
Proof.
  intros HW Hsp Hb Hlines content.
  destruct (closing_decompose sp body Hsp)
    as (R1 & R2 & r & E & H1 & H2 & Hlf & Hr & Htrim).
  assert (Ec : content
               = str "---" ++ W ++ LF :: block ++ LF :: str "---"
                 ++ R1 ++ LF :: R2 ++ r).
  { unfold content. by rewrite E. }
  clearbody content. subst content.
  set (content := str "---" ++ W ++ LF :: block ++ LF :: str "---"
                  ++ R1 ++ LF :: R2 ++ r).
  split.
  - pose proof (rmatch_delimited (Group 1 (Star false (Char dotAll)))
                  (capture 1) (rmatch_Group_eq 1 _) (λ _ _, eq_refl)
                  1 W block R1 R2 r HW Hb Hlines H1 H2 Hlf Hr) as Hm.
    cbv zeta in Hm. fold content in Hm.
    unfold parseYamlFrontmatter.
    change yamlPattern with
      (Bol ⋅ Lit isChar (str "---") ⋅ Star true (Char isSpace)
       ⋅ Char (isChar LF) ⋅ Group 1 (Star false (Char dotAll))
       ⋅ Char (isChar LF) ⋅ Lit isChar (str "---")
       ⋅ Star true (Char isSpace) ⋅ Char (isChar LF))%re.
    rewrite (regexMatch_at_start _ _ _ _ Hm).
    f_equal. unfold group. cbn [groups].
    set (x := after (str "---" ++ W ++ [LF]) (initial 1 0 content)).
    change (caps (after (LF :: str "---" ++ R1 ++ [LF])
                    (capture 1 x (after block x))))
      with (<[1 := Some (take (pos x + length block - pos x) (rest x))]>
              [None; None] : list (option jsstring)).
    assert (Hx : rest x = block ++ LF :: str "---" ++ R1 ++ LF :: R2 ++ r).
    { apply rest_after. unfold content. simpl rest.
      by rewrite <- !app_assoc. }
    rewrite Hx. replace (pos x + length block - pos x) with (length block) by lia.
    by rewrite take_app_exact.
  - pose proof (rmatch_delimited (Star false (Char dotAll))
                  (λ _ y, y) (λ _ _, eq_refl) (λ _ _, eq_refl)
                  0 W block R1 R2 r HW Hb Hlines H1 H2 Hlf Hr) as Hm.
    cbv zeta in Hm. fold content in Hm.
    unfold extractBodyContent, regexReplace.
    change yamlBlockPattern with
      (Bol ⋅ Lit isChar (str "---") ⋅ Star true (Char isSpace)
       ⋅ Char (isChar LF) ⋅ Star false (Char dotAll)
       ⋅ Char (isChar LF) ⋅ Lit isChar (str "---")
       ⋅ Star true (Char isSpace) ⋅ Char (isChar LF))%re.
    rewrite (regexMatch_at_start _ _ _ _ Hm).
    cbn [index matched]. rewrite <- Htrim. f_equal.
    set (pre := str "---" ++ W ++ [LF]).
    set (x := after pre (initial 0 0 content)).
    set (cl := LF :: str "---" ++ R1 ++ [LF]).
    change (pos (after cl (after block x)))
      with (0 + length pre + length block + length cl).
    assert (Econtent : content = (pre ++ block ++ cl) ++ R2 ++ r).
    { unfold content, pre, cl.
      repeat first [rewrite <- app_assoc | rewrite <- app_comm_cons
                   | rewrite app_nil_l].
      done. }
    rewrite Nat.sub_0_r.
    replace (0 + length pre + length block + length cl)
      with (length (pre ++ block ++ cl)) by (rewrite !length_app; lia).
    rewrite Econtent, take_app_exact. simpl.
    by rewrite drop_app_length.
Qed.

Lemma front_matter_block_witness :
  parseYamlFrontmatter
    (doc ["---"; "name: lead"; "tools:"; "  - Read"; "---"; ""; "Body."])
  = parseBlock (doc ["name: lead"; "tools:"; "  - Read"])
  ∧ extractBodyContent
      (doc ["---"; "name: lead"; "tools:"; "  - Read"; "---"; ""; "Body."])
    = trim (doc [""; "Body."]).
Proof.
  apply (front_matter_block [] (doc ["name: lead"; "tools:"; "  - Read"]) []
           (doc [""; "Body."])).
  - constructor.
  - constructor.
  - by vm_compute.
  - by_evaluation.
Defined.

(** ** The two delimiter patterns read the same text *)

Lemma rmatch_erase (r : regex) : ∀ x x' k k',
  samePlace x x' →
  (∀ y y', samePlace y y' → sameOutcome (k y) (k' y')) →
  sameOutcome (rmatch r x k) (rmatch (erase r) x' k').
Proof.
  induction r as [|p|r1 IH1 r2 IH2|r1 IH1 r2 IH2|g r IH|n r IH| | |r IH];
    intros x x' k k' Hx Hk; simpl.
  - by apply Hk.
  - destruct Hx as [Hp Hr]. rewrite <- Hr.
    destruct (rest x) as [|c s] eqn:E; [done|].
    destruct (p c); [|done]. apply Hk. unfold advance. split; simpl; congruence.
  - apply IH1; [done|]. intros y y' Hy. by apply IH2.
  - pose proof (IH1 x x' k k' Hx Hk) as H1.
    destruct (rmatch r1 x k), (rmatch (erase r1) x' k'); try done.
    by apply IH2.
  - assert (El : length (rest x') = length (rest x)) by (destruct Hx; congruence).
    rewrite El. clear El. generalize (length (rest x)) as fuel. intros fuel.
    revert x x' Hx.
    induction fuel as [|fuel IHf]; intros x x' Hx; [by apply Hk|].
    pose proof (Hk x x' Hx) as Hkx.
    destruct g.
    + match goal with
      | |- sameOutcome (match ?a with _ => _ end) (match ?b with _ => _ end) =>
          assert (Hstep : sameOutcome a b)
      end.
      { apply IH; [done|]. intros y y' Hy.
        destruct Hx as [_ Hx], Hy as [Hy1 Hy2]. rewrite <- Hx, <- Hy2.
        destruct (decide _); [|done]. by apply IHf. }
      match goal with
      | |- sameOutcome (match ?a with _ => _ end) (match ?b with _ => _ end) =>
          destruct a, b; try done
      end.
    + destruct (k x), (k' x'); try done.
      apply IH; [done|]. intros y y' Hy.
      destruct Hx as [_ Hx], Hy as [Hy1 Hy2]. rewrite <- Hx, <- Hy2.
      destruct (decide _); [|done]. by apply IHf.
  - apply IH; [done|]. intros y y' [Hy1 Hy2]. apply Hk. by split.
  - pose proof Hx as [Hp Hr]. rewrite <- Hp. destruct (decide _); [|done].
    by apply Hk.
  - pose proof Hx as [Hp Hr]. rewrite <- Hr. destruct (rest x) eqn:E; [|done].
    by apply Hk.
  - assert (H1 : sameOutcome (rmatch r x Some) (rmatch (erase r) x' Some)).
    { by apply IH. }
    destruct (rmatch r x Some), (rmatch (erase r) x' Some); try done.
    apply Hk. destruct Hx. by split.
Qed.

Lemma search_erase (r : regex) (n n' : nat) : ∀ s i,
  match search r n i s, search (erase r) n' i s with
  | Some m, Some m' => index m = index m' ∧ matched m = matched m'
  | None, None => True
  | _, _ => False
  end.
Proof.
  assert (Hstep : ∀ s i,
    sameOutcome (rmatch r (initial n i s) Some)
                (rmatch (erase r) (initial n' i s) Some)).
  { intros s i. by apply rmatch_erase. }
  induction s as [|c s IH]; intros i; simpl.
  - specialize (Hstep [] i).
    destruct (rmatch r (initial n i []) Some),
             (rmatch (erase r) (initial n' i []) Some); try done.
    destruct Hstep as [-> _]. done.
  - specialize (Hstep (c :: s) i).
    destruct (rmatch r (initial n i (c :: s)) Some),
             (rmatch (erase r) (initial n' i (c :: s)) Some); try done.
    + destruct Hstep as [-> _]. done.
    + apply IH.
Qed.

(** What a match of [yamlPattern] covers. *)
Lemma yamlPattern_inv (content : jsstring) m :
  regexMatch yamlPattern 1 content = Some m →
  ∃ W block sp rest',
    content = str "---" ++ W ++ LF :: block ++ LF :: str "---" ++ sp
              ++ LF :: rest'
    ∧ Forall (λ c, isSpace c = true) W ∧ Forall (λ c, isSpace c = true) sp
    ∧ index m = 0 ∧ group 1 m = block
    ∧ matched m = str "---" ++ W ++ LF :: block ++ LF :: str "---" ++ sp
                  ++ [LF].
Proof.
  intros Hm.
  apply regexMatch_sound in Hm as (pre & s' & y & E & Hi & Hy & Hmd & Hg).
  unfold yamlPattern in Hy.
  apply matches_Seq in Hy as (y0 & H0 & H). apply matches_Seq in H as (y1 & H1 & H).
  apply matches_Seq in H as (y2 & H2 & H). apply matches_Seq in H as (y3 & H3 & H).
  apply matches_Seq in H as (y4 & H4 & H). apply matches_Seq in H as (y5 & H5 & H).
  apply matches_Seq in H as (y6 & H6 & H). apply matches_Seq in H as (y7 & H7 & H8).
  apply matches_Bol in H0 as [-> Hpos]. cbn [initial pos] in Hpos.
  assert (pre = []) as -> by (apply length_zero_iff_nil; lia).
  rewrite app_nil_l in E. subst s'.
  apply matches_Lit_isChar in H1 as (E1 & P1 & C1).
  apply matches_Star_Char in H2 as (W & E2 & HW & P2 & C2).
  apply matches_Char in H3 as (c3 & E3 & ->%N.eqb_eq & P3 & C3).
  apply matches_Group in H4 as (y4' & H4 & ->).
  apply matches_Star_Char in H4 as (block & E4 & _ & P4 & C4).
  apply matches_Char in H5 as (c5 & E5 & ->%N.eqb_eq & P5 & C5).
  apply matches_Lit_isChar in H6 as (E6 & P6 & C6).
  apply matches_Star_Char in H7 as (sp & E7 & Hsp & P7 & C7).
  apply matches_Char in H8 as (c8 & E8 & ->%N.eqb_eq & P8 & C8).
  cbn [initial pos rest caps capture] in *.
  assert (Econtent : content
    = (str "---" ++ W ++ LF :: block ++ LF :: str "---" ++ sp ++ [LF])
      ++ rest y).
  { rewrite E1, E2, E3, E4, E5, E6, E7, E8.
    repeat first [rewrite <- app_assoc | rewrite <- app_comm_cons
                 | rewrite app_nil_l].
    done. }
  exists W, block, sp, (rest y). repeat split; try done.
  - rewrite Econtent.
    repeat first [rewrite <- app_assoc | rewrite <- app_comm_cons
                 | rewrite app_nil_l].
    done.
  - unfold group. rewrite Hg, C8, C7, C6, C5. cbn [caps].
    rewrite C4, C3, C2, C1. cbn [lookup list_lookup insert list_insert mjoin].
    rewrite E4.
    assert (Hlen : pos y4' - pos y3 = length block) by lia.
    rewrite Hlen, take_app_exact. done.
  - rewrite Hmd, Hi. rewrite Nat.sub_0_r.
    replace (pos y)
      with (length (str "---" ++ W ++ LF :: block ++ LF :: str "---"
                    ++ sp ++ [LF])).
    + rewrite Econtent at 1. apply take_app_exact.
    + assert (H3 : length (str "---") = 3) by done.
      repeat (rewrite length_app || rewrite length_cons).
      rewrite H3 in *. cbn [length]. lia.
Qed.

(** The two patterns match the same documents, and the same text in them. *)
Lemma front_matter_cases (content : jsstring) :
  (regexMatch yamlPattern 1 content = None
   ∧ regexMatch yamlBlockPattern 0 content = None)
  ∨ (∃ W block sp rest' m m',
       content = str "---" ++ W ++ LF :: block ++ LF :: str "---" ++ sp
                 ++ LF :: rest'
       ∧ Forall (λ c, isSpace c = true) W ∧ Forall (λ c, isSpace c = true) sp
       ∧ regexMatch yamlPattern 1 content = Some m
       ∧ regexMatch yamlBlockPattern 0 content = Some m'
       ∧ group 1 m = block
       ∧ index m' = 0
       ∧ matched m' = str "---" ++ W ++ LF :: block ++ LF :: str "---" ++ sp
                      ++ [LF]).
Proof.
  pose proof (search_erase yamlPattern 1 0 content 0) as H.
  change (erase yamlPattern) with yamlBlockPattern in H.
  fold (regexMatch yamlPattern 1 content) in H.
  fold (regexMatch yamlBlockPattern 0 content) in H.
  destruct (regexMatch yamlPattern 1 content) as [m|] eqn:Hm;
    destruct (regexMatch yamlBlockPattern 0 content) as [m'|] eqn:Hm';
    try done; [|by left].
  right. destruct H as [Hi Hmd].
  destruct (yamlPattern_inv _ _ Hm)
    as (W & block & sp & rest' & E & HW & Hsp & Hi0 & Hg & Hmatched).
  exists W, block, sp, rest', m, m'. repeat split; try done; congruence.
Qed.

(** X4. Either no front matter is recognised, and then the mapping is empty
    and the body is the whole document, trimmed; or the document is an
    opening delimiter line, a block, a closing delimiter line with its line
    feed, and a rest: then the mapping is read from the block and the body
    is the rest, trimmed.  The parser and the body extractor always agree on
    which of the two it is, and on where the block ends. *)
Theorem front_matter_or_whole_document (content : jsstring) :
  (parseYamlFrontmatter content = ∅ ∧ extractBodyContent content = trim content)
  ∨ (∃ W block sp rest',
       content = str "---" ++ W ++ LF :: block ++ LF :: str "---" ++ sp
                 ++ LF :: rest'
       ∧ Forall (λ c, isSpace c = true) W ∧ Forall (λ c, isSpace c = true) sp
       ∧ parseYamlFrontmatter content = parseBlock block
       ∧ extractBodyContent content = trim rest').
Proof.
  unfold parseYamlFrontmatter, extractBodyContent, regexReplace.
  destruct (front_matter_cases content)
    as [[-> ->]|(W & block & sp & rest' & m & m' & E & HW & Hsp & -> & -> & Hg
                 & Hi & Hmd)].
  - by left.
  - right. exists W, block, sp, rest'. repeat split; try done.
    + by rewrite Hg.
    + rewrite Hi, Hmd. f_equal. rewrite take_0, !app_nil_l, Nat.add_0_l.
      rewrite E.
      replace (str "---" ++ W ++ LF :: block ++ LF :: str "---" ++ sp
               ++ LF :: rest')
        with ((str "---" ++ W ++ LF :: block ++ LF :: str "---" ++ sp ++ [LF])
              ++ rest').
      * by rewrite drop_app_length.
      * repeat first [rewrite <- app_assoc | rewrite <- app_comm_cons
                     | rewrite app_nil_l].
        done.
Qed.

(** X5. A document that does not start with three hyphens has no front
    matter, whatever follows: the mapping is empty and the body is the whole
    document, trimmed. *)
Theorem no_opening_delimiter (content : jsstring) :
  startsWith (str "---") content = false →
  parseYamlFrontmatter content = ∅ ∧ extractBodyContent content = trim content.
Proof.
  intros Hstart.
  unfold parseYamlFrontmatter, extractBodyContent, regexReplace.
  destruct (front_matter_cases content)
    as [[-> ->]|(W & block & sp & rest' & m & m' & E & _)]; [done|].
  rewrite E, startsWith_app in Hstart. done.
Qed.

Lemma no_opening_delimiter_witness :
  parseYamlFrontmatter (doc [""; "---"; "name: lead"; "---"; "Body."]) = ∅
  ∧ extractBodyContent (doc [""; "---"; "name: lead"; "---"; "Body."])
    = trim (doc [""; "---"; "name: lead"; "---"; "Body."]).
Proof.
  apply (no_opening_delimiter
           (doc [""; "---"; "name: lead"; "---"; "Body."])).
  vm_compute. reflexivity.
Defined.

Lemma closing_delimiter_line_after (a w b : jsstring) :
  Forall (λ c, isSpace c = true) w →
  ∃ d B, split LF (a ++ LF :: str "---" ++ w ++ LF :: b)
         = split LF a ++ d :: B
         ∧ B ≠ [] ∧ isDelimiterLine d = true.
Proof.
  intros Hw.
  rewrite split_app.
  replace (str "---" ++ w ++ LF :: b) with ((str "---" ++ w) ++ LF :: b)
    by by rewrite <- app_assoc.
  rewrite split_app.
  pose proof (split_Forall _ LF w Hw) as Hall.
  pose proof (split_nonempty LF w) as Hne.
  destruct (split LF w) as [|l0 ls0] eqn:E0; [done|].
  assert (E3 : split LF (str "---" ++ w) = (str "---" ++ l0) :: ls0).
  { change (str "---" ++ w) with (45%N :: 45%N :: 45%N :: w).
    unfold LF in *. simpl. by rewrite E0. }
  rewrite E3.
  exists (45%N :: 45%N :: 45%N :: l0), (ls0 ++ split LF b).
  repeat split.
  - intros [_ ?]%app_eq_nil. by eapply split_nonempty.
  - apply Forall_cons in Hall as [Hl0 _]. simpl.
    apply forallb_forall. intros c Hc. rewrite Forall_forall in Hl0.
    apply Hl0. by apply list_elem_of_In.
Qed.

Lemma middle_line_after {A} (l0 l1 d : A) (mid : list A) (last : A)
  (xs ys : list A) :
  l0 :: l1 :: mid ++ [last] = xs ++ d :: ys → 2 ≤ length xs → ys ≠ [] →
  d ∈ mid.
Proof.
  intros E Hxs Hys. destruct xs as [|x xs]; [simpl in Hxs; lia|].
  simpl in E. injection E as _ E.
  apply (middle_line l1 last d mid xs ys E); [|done].
  intros ->. simpl in Hxs. lia.
Qed.

(** X6. The closing delimiter is looked for from the third line on: when
    no line after the second and before the last is a delimiter line, no
    front matter is recognised.  So a block with nothing in it (the closing
    delimiter on the second line) is not a front matter. *)
Theorem closing_delimiter_from_third_line (l0 l1 : jsstring)
  (mid : list jsstring) (last : jsstring) :
  Forall (λ l, LF ∉ l) (l0 :: l1 :: mid ++ [last]) →
  Forall (λ l, isDelimiterLine l = false) mid →
  let content := joinLF (l0 :: l1 :: mid ++ [last]) in
  parseYamlFrontmatter content = ∅ ∧ extractBodyContent content = trim content.
Proof.
  intros Hlf Hmid content.
  unfold parseYamlFrontmatter, extractBodyContent, regexReplace.
  destruct (front_matter_cases content)
    as [[-> ->]|(W & block & sp & rest' & m & m' & E & HW & Hsp & _)]; [done|].
  exfalso.
  destruct (closing_delimiter_line_after (str "---" ++ W ++ LF :: block) sp rest' Hsp)
    as (d & B & Es & HB & Hd).
  replace ((str "---" ++ W ++ LF :: block) ++ LF :: str "---" ++ sp
           ++ LF :: rest') with content in Es.
  2:{ rewrite E.
      repeat first [rewrite <- app_assoc | rewrite <- app_comm_cons
                   | rewrite app_nil_l].
      done. }
  unfold content in Es. rewrite split_joinLF in Es; [|done|done].
  replace (str "---" ++ W ++ LF :: block)
    with ((str "---" ++ W) ++ LF :: block) in Es by by rewrite <- app_assoc.
  rewrite split_app in Es.
  pose proof (split_nonempty LF (str "---" ++ W)) as H1.
  pose proof (split_nonempty LF block) as H2.
  destruct (split LF (str "---" ++ W)) as [|a0 A0]; [done|].
  destruct (split LF block) as [|a1 A1]; [done|].
  assert (Hin : d ∈ mid).
  { apply (middle_line_after l0 l1 d mid last _ _ Es); [|done].
    rewrite length_app. simpl. lia. }
  rewrite Forall_forall in Hmid. specialize (Hmid d Hin). congruence.
Qed.

Lemma closing_delimiter_from_third_line_witness :
  parseYamlFrontmatter (doc ["---"; "---"; "Body."]) = ∅
  ∧ extractBodyContent (doc ["---"; "---"; "Body."])
    = trim (doc ["---"; "---"; "Body."]).
Proof.
  apply (closing_delimiter_from_third_line (str "---") (str "---") []
           (str "Body.")).
  - repeat constructor; by_evaluation.
  - constructor.
Defined.

(** ** The loop of the parser, line by line *)


Lemma listItem_not_keyLine (line item : jsstring) :
  listItem line = Some item → keyLine line = None.
Proof.
  unfold listItem, keyLine. destruct (bool_decide _); [done|].
  destruct (regexMatch keyValuePattern 2 line) as [m|] eqn:Hm; [|done].
  by rewrite (key_line_not_list_item _ _ Hm).
Qed.

(** A list-item line under an open key is pushed. *)
Lemma parseLine_item st line item :
  listItem line = Some item → keySet (currentKey st) = true →
  parseLine st line
  = {| result := result st; currentKey := currentKey st;
       currentList := currentList st ++ [item] |}.
Proof.
  unfold listItem, parseLine. destruct (bool_decide _); [done|].
  destruct (regexMatch listItemPattern 1 line) as [m|]; [|done].
  intros [= <-] ->. done.
Qed.

(** A line that starts no key changes nothing when no key is open. *)
Lemma parseLine_closed st line :
  keyLine line = None → keySet (currentKey st) = false →
  parseLine st line = st.
Proof.
  unfold keyLine, parseLine. destruct (bool_decide _); [done|].
  destruct (regexMatch keyValuePattern 2 line) as [m|]; [done|].
  intros _ ->. by destruct (regexMatch listItemPattern 1 line).
Qed.

(** A key line with a value stores it and closes the key. *)
Lemma parseLine_scalar st line k v :
  keyLine line = Some (k, v) → v ≠ [] →
  parseLine st line
  = {| result := setProp k (JString (unquote v)) (result (commitPending st));
       currentKey := None;
       currentList := currentList (commitPending st) |}.
Proof.
  unfold keyLine, parseLine.
  destruct (bool_decide (trim line = [])); [done|].
  destruct (regexMatch keyValuePattern 2 line) as [m|] eqn:Hm; [|done].
  rewrite (key_line_not_list_item _ _ Hm). cbn [fmap option_fmap option_map].
  intros Hkv Hv. apply (inj Some) in Hkv. apply pair_eq in Hkv as [<- <-].
  cbv zeta. by rewrite bool_decide_eq_false_2.
Qed.

Lemma keyLine_nonempty (line k v : jsstring) :
  keyLine line = Some (k, v) → k ≠ [].
Proof.
  unfold keyLine. destruct (bool_decide _); [done|].
  destruct (regexMatch keyValuePattern 2 line) as [m|] eqn:Hm; [|done].
  apply keyValuePattern_inv in Hm as (key & w & value & _ & Hne & _ & E1 & _).
  simpl. intros [= <- _]. by rewrite E1.
Qed.

Lemma keySet_Some (k : jsstring) : k ≠ [] → keySet (Some k) = true.
Proof. by destruct k. Qed.

(** The items of the lines of a list, in order. *)
Lemma foldl_parseLine_items (mid : list jsstring) : ∀ st,
  keySet (currentKey st) = true →
  Forall (λ l, keyLine l = None) mid →
  foldl parseLine st mid
  = {| result := result st; currentKey := currentKey st;
       currentList := currentList st ++ omap listItem mid |}.
Proof.
  induction mid as [|l mid IH]; intros st Hk Hmid.
  - simpl. rewrite app_nil_r. by destruct st.
  - apply Forall_cons in Hmid as [Hl Hmid]. simpl.
    destruct (listItem l) as [item|] eqn:Hitem.
    + rewrite (parseLine_item _ _ _ Hitem Hk), IH by done. simpl.
      by rewrite <- app_assoc.
    + rewrite parseLine_other by done. by apply IH.
Qed.

Lemma foldl_parseLine_closed (mid : list jsstring) st :
  keySet (currentKey st) = false →
  Forall (λ l, keyLine l = None) mid →
  foldl parseLine st mid = st.
Proof.
  intros Hk. induction 1 as [|l mid Hl _ IH]; simpl; [done|].
  by rewrite parseLine_closed.
Qed.

Lemma commitPending_keyHolds k v st :
  keyHolds k v st → keyHolds k v (commitPending st).
Proof.
  intros [Hr Hk]. unfold commitPending.
  destruct (pendingList st) as [[k' l]|] eqn:Ep; [|done].
  split; simpl; [|done]. rewrite getProp_setProp_ne; [done|].
  apply pendingList_key in Ep. congruence.
Qed.

Lemma parseLine_keyHolds k v st line :
  keyHolds k v st → (∀ v', keyLine line ≠ Some (k, v')) →
  keyHolds k v (parseLine st line).
Proof.
  intros HJ Hline.
  destruct (keyLine line) as [[k' v']|] eqn:Hkl.
  - assert (k' ≠ k) as Hne by (intros ->; by eapply Hline).
    destruct (commitPending_keyHolds _ _ _ HJ) as [Hr Hk].
    destruct (decide (v' = [])) as [->|Hv].
    + rewrite (parseLine_open_key _ _ _ Hkl). split; simpl; [done|congruence].
    + rewrite (parseLine_scalar _ _ _ _ Hkl Hv). split; simpl; [|done].
      by rewrite getProp_setProp_ne.
  - destruct (listItem line) as [item|] eqn:Hitem.
    + destruct (keySet (currentKey st)) eqn:Hs.
      * rewrite (parseLine_item _ _ _ Hitem Hs). destruct HJ. by split.
      * by rewrite parseLine_closed.
    + by rewrite parseLine_other.
Qed.

Lemma foldl_parseLine_keyHolds k v lines : ∀ st,
  keyHolds k v st → Forall (λ line, ∀ v', keyLine line ≠ Some (k, v')) lines →
  keyHolds k v (foldl parseLine st lines).
Proof.
  induction lines as [|l lines IH]; intros st H Hl; simpl; [done|].
  apply Forall_cons in Hl as [Hl Hls]. by apply IH; [apply parseLine_keyHolds|].
Qed.

Lemma finish_keyHolds k v st : keyHolds k v st → finish st !! k = Some v.
Proof.
  intros [Hr Hk]. unfold finish.
  destruct (pendingList st) as [[k' l]|] eqn:Ep; [|done].
  rewrite getProp_setProp_ne; [done|]. apply pendingList_key in Ep. congruence.
Qed.

Lemma setProp_lookup (k : jsstring) (v : jsvalue) (o : jsobject) :
  k ≠ str "__proto__" → setProp k v o !! k = Some v.
Proof.
  intros Hk. unfold setProp. destruct (decide _); [done|].
  by rewrite lookup_insert_eq.
Qed.

(** X7. A key line with a value gives its key that value, with one pair of
    quotes removed, whatever came before; the value stays until a later
    line starts the same key again. *)
Theorem scalar_value_stored (block : jsstring) (pre post : list jsstring)
  (line key value : jsstring) :
  split LF block = pre ++ line :: post →
  keyLine line = Some (key, value) → value ≠ [] →
  key ≠ str "__proto__" →
  Forall (λ l, ∀ v, keyLine l ≠ Some (key, v)) post →
  parseBlock block !! key = Some (JString (unquote value)).
Proof.
  intros Hsplit Hline Hv Hproto Hpost.
  unfold parseBlock. rewrite Hsplit, foldl_app. simpl.
  apply finish_keyHolds, foldl_parseLine_keyHolds; [|done].
  rewrite (parseLine_scalar _ _ _ _ Hline Hv). split; simpl; [|done].
  by apply setProp_lookup.
Qed.

Lemma scalar_value_stored_witness :
  parseBlock (doc ["model: haiku"; "model: 'opus'"; "tools:"; "  - Read"])
    !! str "model"
  = Some (JString (str "opus")).
Proof.
  apply (scalar_value_stored _ [str "model: haiku"]
           [str "tools:"; str "  - Read"] (str "model: 'opus'")
           (str "model") (SQUOTE :: str "opus" ++ [SQUOTE])).
  - vm_compute. reflexivity.
  - vm_compute. reflexivity.
  - done.
  - done.
  - repeat constructor; intros v; vm_compute; discriminate.
Defined.

(** X8. The list-item lines that follow a key with an empty value, up to
    the next key line or the end of the block, are the list of that key, in
    their order; the lines in between that are neither are skipped. *)
Theorem list_value_collected (block : jsstring) (pre mid post : list jsstring)
  (line key : jsstring) :
  split LF block = pre ++ line :: mid ++ post →
  keyLine line = Some (key, []) → key ≠ str "__proto__" →
  Forall (λ l, keyLine l = None) mid →
  omap listItem mid ≠ [] →
  (post = [] ∨ is_Some (head post ≫= keyLine)) →
  Forall (λ l, ∀ v, keyLine l ≠ Some (key, v)) post →
  parseBlock block !! key = Some (JArray (omap listItem mid)).
Proof.
  intros Hsplit Hline Hproto Hmid Hitems Hpost Hother.
  unfold parseBlock. rewrite Hsplit, foldl_app. simpl. rewrite foldl_app.
  set (st := foldl parseLine pstate0 pre).
  assert (HG : listNeedsKey st)
    by apply foldl_parseLine_listNeedsKey, pstate0_listNeedsKey.
  pose proof (keyLine_nonempty _ _ _ Hline) as Hne.
  rewrite (parseLine_open_key _ _ _ Hline).
  rewrite (commitPending_currentList_nil _ HG).
  rewrite (foldl_parseLine_items mid); [|by apply keySet_Some|done]. simpl.
  set (items := omap listItem mid) in *. clearbody items.
  set (st1 := {| result := result (commitPending st); currentKey := Some key;
                 currentList := items |}).
  assert (Hpending : pendingList st1 = Some (key, items)).
  { unfold pendingList, st1. cbn [currentKey currentList].
    destruct items; [done|]. by rewrite keySet_Some. }
  destruct Hpost as [->|Hnext].
  - simpl. unfold finish. rewrite Hpending. by apply setProp_lookup.
  - destruct post as [|x post]; [by destruct Hnext|].
    simpl in Hnext. destruct Hnext as [[k' v] Hx].
    apply Forall_cons in Hother as [Hx' Hother].
    simpl. apply finish_keyHolds, foldl_parseLine_keyHolds; [|done].
    assert (k' ≠ key) as Hk' by (intros ->; by eapply Hx').
    assert (Hc : keyHolds key (JArray items)
                   {| result := result (commitPending st1);
                      currentKey := None;
                      currentList := currentList (commitPending st1) |}).
    { unfold commitPending. rewrite Hpending. split; simpl; [|done].
      by apply setProp_lookup. }
    destruct Hc as [Hr _].
    destruct (decide (v = [])) as [->|Hv].
    + rewrite (parseLine_open_key _ _ _ Hx). split; simpl; [done|congruence].
    + rewrite (parseLine_scalar _ _ _ _ Hx Hv). split; simpl; [|done].
      by rewrite getProp_setProp_ne.
Qed.

Lemma list_value_collected_witness :
  parseBlock (doc ["name: lead"; "tools:"; "  - Read"; ""; "# note";
                   "  - Write"; "model: opus"])
    !! str "tools"
  = Some (JArray [str "Read"; str "Write"]).
Proof.
  apply (list_value_collected _ [str "name: lead"]
           [str "  - Read"; str ""; str "# note"; str "  - Write"]
           [str "model: opus"] (str "tools:")).
  - vm_compute. reflexivity.
  - vm_compute. reflexivity.
  - done.
  - repeat constructor; vm_compute; reflexivity.
  - vm_compute. discriminate.
  - right. vm_compute. eauto.
  - repeat constructor; intros v; vm_compute; discriminate.
Defined.

(** X9. List-item lines count only under an open key: at the start of the
    block, or after a key line that has a value, the lines up to the next
    key line can be removed without changing the mapping. *)
Theorem list_items_need_open_key (block block' : jsstring)
  (pre mid post : list jsstring) :
  split LF block = pre ++ mid ++ post → split LF block' = pre ++ post →
  (pre = [] ∨ ∃ k v, last pre ≫= keyLine = Some (k, v) ∧ v ≠ []) →
  Forall (λ l, keyLine l = None) mid →
  parseBlock block = parseBlock block'.
Proof.
  intros E E' Hpre Hmid. unfold parseBlock. rewrite E, E', !foldl_app.
  f_equal. f_equal. apply foldl_parseLine_closed; [|done].
  destruct Hpre as [->|(k & v & Hlast & Hv)]; [done|].
  destruct (last pre) as [line|] eqn:El; [|done].
  apply last_Some in El as [pre' ->]. simpl in Hlast.
  rewrite foldl_app. simpl. by rewrite (parseLine_scalar _ _ _ _ Hlast Hv).
Qed.

Lemma list_items_need_open_key_witness :
  parseBlock (doc ["name: lead"; "  - Read"; "  - Write"; "model: opus"])
  = parseBlock (doc ["name: lead"; "model: opus"]).
Proof.
  apply (list_items_need_open_key _ _ [str "name: lead"]
           [str "  - Read"; str "  - Write"] [str "model: opus"]).
  - vm_compute. reflexivity.
  - vm_compute. reflexivity.
  - right. exists (str "name"), (str "lead"). split; [|done].
    vm_compute. reflexivity.
  - repeat constructor; vm_compute; reflexivity.
Defined.

Lemma setProp_storable k v o :
  storable v → map_Forall (λ _ v, storable v) o →
  map_Forall (λ _ v, storable v) (setProp k v o).
Proof.
  intros Hv Ho. unfold setProp.
  destruct (decide (k = str "__proto__")); [exact Ho|].
  by apply map_Forall_insert_2.
Qed.

Lemma commitPending_storable st : storableState st → storableState (commitPending st).
Proof.
  intros HS. pose proof HS as [Hr Hl]. unfold commitPending, pendingList.
  destruct (currentKey st) as [k|]; [|done].
  destruct (currentList st) as [|i l] eqn:El; [done|].
  destruct (keySet (Some k)); [|done].
  split; simpl; [|done]. by apply setProp_storable.
Qed.

Lemma listItem_trimmed line item : listItem line = Some item → trim item = item.
Proof.
  unfold listItem. destruct (bool_decide _); [done|].
  destruct (regexMatch listItemPattern 1 line); [|done].
  intros [= <-]. apply trim_idemp.
Qed.

Lemma keyLine_trimmed line k v : keyLine line = Some (k, v) → trim v = v.
Proof.
  unfold keyLine. destruct (bool_decide _); [done|].
  destruct (regexMatch keyValuePattern 2 line); [|done].
  intros [= _ <-]. apply trim_idemp.
Qed.

Lemma parseLine_storable st line :
  storableState st → storableState (parseLine st line).
Proof.
  intros HS.
  destruct (keyLine line) as [[k v]|] eqn:Hkl.
  - destruct (commitPending_storable _ HS) as [Hr Hl].
    destruct (decide (v = [])) as [->|Hv].
    + rewrite (parseLine_open_key _ _ _ Hkl). by split.
    + rewrite (parseLine_scalar _ _ _ _ Hkl Hv). split; simpl; [|done].
      apply setProp_storable; [|done]. exists v.
      split; [done|]. split; [|done]. by eapply keyLine_trimmed.
  - destruct (listItem line) as [item|] eqn:Hitem.
    + destruct (keySet (currentKey st)) eqn:Hs.
      * rewrite (parseLine_item _ _ _ Hitem Hs). destruct HS as [Hr Hl].
        split; simpl; [done|]. apply Forall_app. split; [done|].
        constructor; [|done]. by eapply listItem_trimmed.
      * by rewrite parseLine_closed.
    + by rewrite parseLine_other.
Qed.

Lemma parseBlock_storable block : map_Forall (λ _ v, storable v) (parseBlock block).
Proof.
  unfold parseBlock.
  assert (HS : storableState (foldl parseLine pstate0 (split LF block))).
  { generalize (split LF block). intros lines.
    assert (H0 : storableState pstate0).
    { split; [apply map_Forall_empty|done]. }
    revert H0. generalize pstate0.
    induction lines as [|l lines IH]; intros st Hst; simpl; [done|].
    by apply IH, parseLine_storable. }
  pose proof (commitPending_storable _ HS) as [Hr _].
  unfold commitPending in Hr. unfold finish.
  by destruct (pendingList _) as [[k l]|].
Qed.

(** X10. Whatever the document, a key of the parsed mapping is a non-empty
    run of word characters, and its value is a string or a list of strings,
    never a number, a boolean or [null]: a string is a trimmed, non-empty
    piece of a line less one pair of quotes, a list is not empty and its
    items are trimmed. *)
Theorem parsed_mapping_shape (content k : jsstring) (v : jsvalue) :
  parseYamlFrontmatter content !! k = Some v →
  (k ≠ [] ∧ Forall (λ c, isWord c = true) k)
  ∧ match v with
    | JString s => ∃ t, s = unquote t ∧ trim t = t ∧ t ≠ []
    | JArray l => l ≠ [] ∧ Forall (λ i, trim i = i) l
    | _ => False
    end.
Proof.
  intros Hv. split.
  - destruct (decide (k ≠ [] ∧ Forall (λ c, isWord c = true) k)) as [|Hk];
      [done|].
    exfalso. revert Hv. unfold parseYamlFrontmatter.
    destruct (regexMatch yamlPattern 1 content) as [m|]; [|done].
    unfold parseBlock. rewrite finish_keyUnseen; [done|].
    apply foldl_parseLine_keyUnseen; [apply pstate0_keyUnseen|].
    apply Forall_forall. intros line _ v' Hline. apply Hk. split.
    + by eapply keyLine_nonempty.
    + by eapply keyLine_word.
  - revert Hv. unfold parseYamlFrontmatter.
    destruct (regexMatch yamlPattern 1 content) as [m|]; [|done].
    intros Hv. exact (parseBlock_storable _ _ _ Hv).
Qed.

Lemma parsed_mapping_shape_witness :
  (str "tools" ≠ [] ∧ Forall (λ c, isWord c = true) (str "tools"))
  ∧ ([str "Read"; str "Write"] ≠ []
     ∧ Forall (λ i, trim i = i) [str "Read"; str "Write"]).
Proof.
  apply (parsed_mapping_shape
           (doc ["---"; "tools:"; "  - Read"; "  - Write"; "---"; ""])
           (str "tools") (JArray [str "Read"; str "Write"])).
  vm_compute. reflexivity.
Defined.

(** X11. The lines that the loop passes over: a blank line; a line that
    starts with a character that is neither white space nor a word
    character, such as a comment; and a line whose leading word characters
    are followed by something else than a colon, such as a key with a
    hyphen or with a blank before the colon. *)
Theorem ignored_lines (st : pstate) :
  (∀ line, trim line = [] → parseLine st line = st)
  ∧ (∀ c s, isSpace c = false → isWord c = false →
            parseLine st (c :: s) = st)
  ∧ (∀ key c s, key ≠ [] → Forall (λ c, isWord c = true) key →
                isWord c = false → c ≠ COLON →
                parseLine st (key ++ c :: s) = st).
Proof.
  split; [|split].
  - intros line Hl. unfold parseLine. by rewrite bool_decide_eq_true_2.
  - intros c s Hs Hw. destruct (other_line c s Hs Hw) as [H1 H2].
    by apply parseLine_other.
  - intros key c s Hne Hkey Hc Hcolon.
    pose proof (keyLine_rejects key c s Hkey Hc Hcolon) as Hk.
    apply parseLine_other; [|done].
    unfold listItem. destruct (bool_decide _); [done|].
    destruct (regexMatch listItemPattern 1 (key ++ c :: s)) as [m|] eqn:Hm;
      [|done].
    exfalso. apply listItemPattern_inv in Hm as (c' & s' & E & Hc').
    destruct key as [|k key]; [done|].
    apply Forall_cons in Hkey as [Hk' _]. apply isWord_not_isSpace in Hk'.
    simpl in E. injection E as <- _. congruence.
Qed.


(** ** Quoted values *)

Lemma slice_inner (c d : N) (s : jsstring) : slice 1 (-1) (c :: s ++ [d]) = s.
Proof.
  unfold slice, sliceIndex. cbn [Z.ltb Z.compare].
  rewrite length_cons, length_app. cbn [length].
  replace (Nat.min (Z.to_nat 1) (S (length s + 1))) with 1 by lia.
  replace (Z.to_nat (Z.max (Z.of_nat (S (length s + 1)) + -1) 0))
    with (S (length s)) by lia.
  cbn [drop]. replace (S (length s) - 1) with (length s) by lia.
  apply take_app_exact.
Qed.

Lemma endsWithChar_snoc (q d : N) (s : jsstring) :
  endsWithChar q (s ++ [d]) = (d =? q)%N.
Proof. unfold endsWithChar. by rewrite reverse_snoc. Qed.

(** X12. A value between two double quotes, or between two single quotes,
    loses exactly that pair; a value that is one quote character becomes the
    empty string; a value that does not start with a quote, or does not end
    with one, or whose two quotes differ, is kept as it is. *)
Theorem unquote_spec :
  (∀ q s, q = DQUOTE ∨ q = SQUOTE → unquote (q :: s ++ [q]) = s)
  ∧ (∀ q, q = DQUOTE ∨ q = SQUOTE → unquote [q] = [])
  ∧ (∀ c s, c ≠ DQUOTE → c ≠ SQUOTE → unquote (c :: s) = c :: s)
  ∧ (∀ s d, d ≠ DQUOTE → d ≠ SQUOTE → unquote (s ++ [d]) = s ++ [d])
  ∧ (∀ s, unquote (DQUOTE :: s ++ [SQUOTE]) = DQUOTE :: s ++ [SQUOTE])
  ∧ (∀ s, unquote (SQUOTE :: s ++ [DQUOTE]) = SQUOTE :: s ++ [DQUOTE]).
Proof.
  repeat split.
  - intros q s Hq. unfold unquote.
    change (q :: s ++ [q]) with ((q :: s) ++ [q]).
    rewrite !endsWithChar_snoc. change ((q :: s) ++ [q]) with (q :: s ++ [q]).
    rewrite slice_inner. by destruct Hq as [-> | ->].
  - by intros q [-> | ->].
  - intros c s H1 H2. unfold unquote. simpl.
    apply N.eqb_neq in H1, H2. by rewrite H1, H2.
  - intros s d H1 H2. unfold unquote. rewrite !endsWithChar_snoc.
    apply N.eqb_neq in H1, H2. by rewrite H1, H2, !andb_false_r.
  - intros s. unfold unquote.
    change (DQUOTE :: s ++ [SQUOTE]) with ((DQUOTE :: s) ++ [SQUOTE]).
    by rewrite !endsWithChar_snoc.
  - intros s. unfold unquote.
    change (SQUOTE :: s ++ [DQUOTE]) with ((SQUOTE :: s) ++ [DQUOTE]).
    by rewrite !endsWithChar_snoc.
Qed.


(** ** What the three scanners return *)

Lemma omap_read_filter {A B C D} (read : A → option D) (build : A → D → B)
  (g : B → C) (g' : A → C) (l : list A) :
  (∀ a d, g (build a d) = g' a) →
  g <$> omap (λ a, build a <$> read a) l
  = g' <$> filter (λ a, is_Some (read a)) l.
Proof.
  intros Hg. induction l as [|a l IH]; [done|].
  rewrite filter_cons. destruct (decide (is_Some (read a))) as [[d E]|Hn].
  - rewrite fmap_cons, <- IH, <- (Hg a d). simpl. by rewrite E.
  - rewrite <- IH. simpl. destruct (read a) as [d|] eqn:E; [|done].
    destruct Hn. by eexists.
Qed.

Lemma scanSkills_elem (h : Host) (claudePath : jsstring) (sc : scope)
  (basePath : jsstring) (s : SkillNode) :
  s ∈ skillsOf (scanSkills h claudePath sc basePath) →
  ∃ entry realSkillDir content,
    (∃ entries, readdir h (pathJoin h claudePath (str "skills"))
                = Resolved entries ∧ entry ∈ entries)
    ∧ (direntIsDirectory entry = true ∨ direntIsSymbolicLink entry = true)
    ∧ access h (pathJoin h realSkillDir (str "SKILL.md")) = true
    ∧ readFile h (pathJoin h realSkillDir (str "SKILL.md")) = Some content
    ∧ s = skillOfFile h sc basePath (pathJoin h claudePath (str "skills"))
            (direntName entry) realSkillDir content.
Proof.
  unfold scanSkills. destruct (access h _); [|by intros ?%elem_of_nil].
  destruct (readdir h _) as [entries|code] eqn:Er;
    [|by intros ?%elem_of_nil].
  cbn [skillsOf]. intros (entry & Hentry & Hs)%list_elem_of_omap.
  unfold scanSkillEntry in Hs.
  apply bind_Some in Hs as (isDir & HisDir & Hs).
  destruct isDir; [|done].
  destruct (access h _) eqn:Hacc; [|done].
  apply fmap_Some in Hs as (content & Hc & ->).
  eexists entry, _, content. split; [by exists entries|].
  repeat split; try done.
  destruct (direntIsSymbolicLink entry); [by right|].
  left. by injection HisDir.
Qed.

Lemma scanCommands_elem (h : Host) (claudePath : jsstring) (sc : scope)
  (basePath : jsstring) (c : CommandNode) :
  c ∈ scanCommands h claudePath sc basePath →
  ∃ file content,
    file ∈ globMd h (pathJoin h claudePath (str "commands"))
    ∧ readFile h (resolveSymlink h
                    (pathJoin h (pathJoin h claudePath (str "commands")) file))
      = Some content
    ∧ c = commandOfFile h sc basePath (pathJoin h claudePath (str "commands"))
            file content.
Proof.
  unfold scanCommands. destruct (access h _); [|by intros ?%elem_of_nil].
  intros (file & Hfile & Hc)%list_elem_of_omap.
  apply fmap_Some in Hc as (content & Hc & ->). eauto.
Qed.

(** X13. The agents and the commands of a directory are those of its
    [*.md] files that can be read, in the order of the listing, one node per
    file: its id is the prefix and the name of the file without its
    extension, and the name of a command is a slash and that name; a file
    that cannot be read is skipped and the others are kept; a directory that
    cannot be accessed gives nothing. *)
Theorem scanned_files (h : Host) (claudePath : jsstring) (sc : scope)
  (basePath : jsstring) :
  let readable dir file :=
    is_Some (readFile h (resolveSymlink h (pathJoin h dir file))) in
  let agentsDir := pathJoin h claudePath (str "agents") in
  let commandsDir := pathJoin h claudePath (str "commands") in
  agentId <$> scanAgents h claudePath sc basePath
  = (if access h agentsDir
     then (λ file, str "agent:" ++ pathStem h file)
            <$> filter (readable agentsDir) (globMd h agentsDir)
     else [])
  ∧ commandId <$> scanCommands h claudePath sc basePath
    = (if access h commandsDir
       then (λ file, str "command:" ++ pathStem h file)
              <$> filter (readable commandsDir) (globMd h commandsDir)
       else [])
  ∧ commandName <$> scanCommands h claudePath sc basePath
    = (if access h commandsDir
       then (λ file, str "/" ++ pathStem h file)
              <$> filter (readable commandsDir) (globMd h commandsDir)
       else []).
Proof.
  intros readable agentsDir commandsDir. unfold scanAgents, scanCommands.
  fold agentsDir commandsDir.
  split; [|split].
  - destruct (access h agentsDir); [|done].
    by apply (omap_read_filter
                (λ file, readFile h (resolveSymlink h (pathJoin h _ file)))).
  - destruct (access h commandsDir); [|done].
    by apply (omap_read_filter
                (λ file, readFile h (resolveSymlink h (pathJoin h _ file)))).
  - destruct (access h commandsDir); [|done].
    by apply (omap_read_filter
                (λ file, readFile h (resolveSymlink h (pathJoin h _ file)))).
Qed.

Lemma extractTriggers_length (body : jsstring) :
  length (extractTriggers body) ≤ 5.
Proof.
  unfold extractTriggers. destruct (regexMatch triggerPattern 1 body); simpl; [|lia].
  rewrite length_take. lia.
Qed.

Lemma extractTriggers_trimmed (body : jsstring) :
  Forall (λ t, trim t = t) (extractTriggers body).
Proof.
  unfold extractTriggers. destruct (regexMatch triggerPattern 1 body); [|done].
  cbv zeta. apply Forall_take, Forall_forall.
  intros t Ht. apply list_elem_of_In, in_map_iff in Ht as (line & <- & _).
  apply trim_idemp.
Qed.

(** X14. A skill comes from an entry of the listing of the skills
    directory that is a directory or a symbolic link, and whose [SKILL.md],
    looked for in the directory that the entry resolves to, exists and can
    be read; it is named after the entry, has the scope of the scan, at most
    five triggers, and each trigger is trimmed.  An entry that is a plain
    file gives no skill.  The scanner is rejected exactly when the skills
    directory is accessible and its listing is rejected, with the error of
    the listing. *)
Theorem scanned_skills (h : Host) (claudePath : jsstring) (sc : scope)
  (basePath : jsstring) :
  let skillsDir := pathJoin h claudePath (str "skills") in
  let skillFile entry :=
    pathJoin h (resolveSymlink h (pathJoin h skillsDir (direntName entry)))
      (str "SKILL.md") in
  (∀ skills s,
     scanSkills h claudePath sc basePath = Ok skills → s ∈ skills →
     ∃ entries entry,
       readdir h skillsDir = Resolved entries
       ∧ entry ∈ entries
       ∧ (direntIsDirectory entry = true ∨ direntIsSymbolicLink entry = true)
       ∧ access h (skillFile entry) = true
       ∧ is_Some (readFile h (skillFile entry))
       ∧ skillId s = str "skill:" ++ direntName entry
       ∧ skillScope s = sc
       ∧ length (triggers s) ≤ 5
       ∧ Forall (λ t, trim t = t) (triggers s))
  ∧ (∀ entry dir,
       direntIsDirectory entry = false → direntIsSymbolicLink entry = false →
       scanSkillEntry h sc basePath dir entry = None)
  ∧ (∀ e, scanSkills h claudePath sc basePath = Throw e
          ↔ access h skillsDir = true
            ∧ ∃ code, readdir h skillsDir = Rejected code
                      ∧ e = SystemError code).
Proof.
  intros skillsDir skillFile. split; [|split].
  - intros skills s Hskills. unfold scanSkills in Hskills.
    fold skillsDir in Hskills.
    destruct (access h skillsDir);
      [|injection Hskills as <-; by intros ?%elem_of_nil].
    destruct (readdir h skillsDir) as [entries|code] eqn:Er; [|done].
    injection Hskills as <-.
    intros (entry & Hentry & Hs)%list_elem_of_omap.
    unfold scanSkillEntry in Hs.
    apply bind_Some in Hs as (isDir & HisDir & Hs).
    destruct isDir; [|done].
    fold (skillFile entry) in Hs.
    destruct (access h (skillFile entry)) eqn:Hacc; [|done].
    apply fmap_Some in Hs as (content & Hc & ->).
    exists entries, entry. split; [done|]. split; [done|]. split.
    { destruct (direntIsSymbolicLink entry); [by right|].
      left. by injection HisDir. }
    split; [done|]. split; [by rewrite Hc|].
    repeat split.
    + apply extractTriggers_length.
    + apply extractTriggers_trimmed.
  - intros entry dir Hd Hl. unfold scanSkillEntry. by rewrite Hl, Hd.
  - intros e. apply scanSkills_error.
Qed.


(** ** A file without front matter *)

(** X15. A file that does not start with three hyphens is still a node: an
    agent named after the file, with the empty description and model, no
    tools, subagents or skills, and the whole text, trimmed and truncated,
    as its system prompt; a skill named after its directory, whose triggers
    are looked for in the whole text; a command with the empty description
    and argument hint. *)
Theorem plain_markdown_file (h : Host) (sc : scope)
  (basePath dir file entryName realDir content : jsstring) :
  startsWith (str "---") content = false →
  agentOfFile h sc basePath dir file content
  = {| agentId := str "agent:" ++ pathStem h file;
       agentName := JString (pathStem h file);
       agentDescription := JString [];
       tools := [];
       model := JString [];
       subagents := [];
       skills := [];
       agentFilePath :=
         match sc with
         | Global => str "~/.claude/agents/" ++ file
         | Local => pathRelative h basePath (pathJoin h dir file)
         end;
       agentScope := sc;
       systemPrompt := truncatePrompt (trim content) |}
  ∧ skillName (skillOfFile h sc basePath dir entryName realDir content)
    = JString entryName
  ∧ skillDescription (skillOfFile h sc basePath dir entryName realDir content)
    = JString []
  ∧ triggers (skillOfFile h sc basePath dir entryName realDir content)
    = extractTriggers (trim content)
  ∧ commandDescription (commandOfFile h sc basePath dir file content)
    = JString []
  ∧ argumentHint (commandOfFile h sc basePath dir file content) = JString [].
Proof.
  intros Hstart.
  assert (Hparse : parseYamlFrontmatter content = ∅
                   ∧ extractBodyContent content = trim content).
  { unfold parseYamlFrontmatter, extractBodyContent, regexReplace.
    destruct (front_matter_cases content)
      as [[-> ->]|(W & block & sp & rest' & m & m' & E & _)]; [done|].
    rewrite E, startsWith_app in Hstart. done. }
  destruct Hparse as [Hp Hb].
  unfold agentOfFile, skillOfFile, commandOfFile. rewrite Hp, Hb.
  unfold getProp. rewrite !lookup_empty. done.
Qed.

Lemma plain_markdown_file_witness :
  skillName (skillOfFile demoHost Local (str "/p") (str "/p/.claude/skills")
               (str "notes") (str "/p/.claude/skills/notes")
               (doc ["# Notes"; "---"; "name: other"; "---"]))
  = JString (str "notes").
Proof.
  apply (plain_markdown_file demoHost Local (str "/p") (str "/p/.claude/skills")
           [] (str "notes") (str "/p/.claude/skills/notes")
           (doc ["# Notes"; "---"; "name: other"; "---"])).
  vm_compute. reflexivity.
Defined.

(** ** A trigger section that a heading follows *)

Lemma rmatch_Lit_isNoCase (p t r : jsstring) : ∀ x k,
  rest x = t ++ r → Forall2 (λ pc d, isNoCase pc d = true) p t →
  rmatch (Lit isNoCase p) x k = k (after t x).
Proof.
  intros x k Hx Hpt. revert x k Hx.
  induction Hpt as [|pc d p t Hd _ IH]; intros x k Hx.
  - by rewrite after_nil.
  - change (Lit isNoCase (pc :: p))
      with (Seq (Char (isNoCase pc)) (Lit isNoCase p)).
    rewrite rmatch_Seq_eq, (rmatch_Char_eq _ _ _ d (t ++ r)) by done.
    rewrite IH by (simpl; by rewrite Hx). by rewrite after_cons.
Qed.

Lemma rmatch_Alt_l r1 r2 x k z :
  rmatch r1 x k = Some z → rmatch (Alt r1 r2) x k = Some z.
Proof. intros H. simpl. by rewrite H. Qed.

Lemma rmatch_Opt_either (r : regex) x k (Q : mstate → Prop) :
  (∀ z, rmatch r x k = Some z → Q z) → (∃ z, k x = Some z ∧ Q z) →
  ∃ z, rmatch (Opt r) x k = Some z ∧ Q z.
Proof.
  intros H1 (z & Hz & HQ). unfold Opt. simpl.
  destruct (rmatch r x k) as [z1|] eqn:E; eauto.
Qed.

Lemma isNoCase_TRIGGER (tw : jsstring) :
  map asciiUpper tw = str "TRIGGER" →
  Forall2 (λ pc d, isNoCase pc d = true) (str "Trigger") tw.
Proof.
  intros E.
  assert (E' : map asciiUpper tw = map asciiUpper (str "Trigger")) by exact E.
  clear E. revert E'. generalize (str "Trigger"). intros p. revert p.
  induction tw as [|d tw IH]; intros [|pc p] E; try done.
  simpl in E. injection E as E1 E2. constructor; [|by apply IH].
  unfold isNoCase. by apply N.eqb_eq.
Qed.

Lemma includes_inv (p s : jsstring) :
  includes p s = true → ∃ a b, s = a ++ p ++ b.
Proof.
  assert (Hs : ∀ p s, startsWith p s = true → ∃ b, s = p ++ b).
  { clear. induction p as [|c p IH]; intros s H; [by exists s|].
    destruct s as [|d s]; [done|]. simpl in H.
    apply andb_true_iff in H as [->%N.eqb_eq H].
    destruct (IH _ H) as [b ->]. by exists b. }
  induction s as [|c s IH]; rewrite includes_unfold; intros H.
  - apply orb_true_iff in H as [H|H]; [|done].
    destruct (Hs _ _ H) as [b E]. by exists [], b.
  - apply orb_true_iff in H as [H|H].
    + destruct (Hs _ _ H) as [b E]. by exists [], b.
    + destruct (IH H) as (a & b & ->). by exists (c :: a), b.
Qed.

Lemma includes_false (p s a b : jsstring) :
  includes p s = false → s ≠ a ++ p ++ b.
Proof. intros H ->. by rewrite includes_app in H. Qed.

(** The pattern of the trigger section cannot start where the input does
    not start with two hashes. *)
Lemma triggerPattern_needs_hashes (x : mstate) :
  startsWith (str "##") (rest x) = false →
  rmatch triggerPattern x Some = None.
Proof.
  intros Hx. destruct (rmatch triggerPattern x Some) as [z|] eqn:Hz; [|done].
  exfalso. apply rmatch_sound in Hz as (y & Hy & _).
  unfold triggerPattern in Hy.
  apply matches_Seq in Hy as (y1 & H1 & _). simpl in H1.
  apply matches_Seq in H1 as (x1 & C1 & H1).
  apply matches_Seq in H1 as (x2 & C2 & _).
  apply matches_Char in C1 as (c1 & E1 & P1%N.eqb_eq & _).
  apply matches_Char in C2 as (c2 & E2 & P2%N.eqb_eq & _).
  apply asciiUpper_not_letter in P1; [|vm_compute; intros [? ?]; done].
  apply asciiUpper_not_letter in P2; [|vm_compute; intros [? ?]; done].
  subst. rewrite E1, E2 in Hx. by vm_compute in Hx.
Qed.

(** The search goes past a prefix in which no two hashes start. *)
Lemma search_triggerPattern_skip (pre s : jsstring) : ∀ i,
  includes (str "##") (pre ++ str "#") = false →
  startsWith (str "#") s = true →
  search triggerPattern 1 i (pre ++ s)
  = search triggerPattern 1 (i + length pre) s.
Proof.
  induction pre as [|c pre IH]; intros i Hinc Hs.
  - simpl. by rewrite Nat.add_0_r.
  - change ((c :: pre) ++ str "#") with (c :: (pre ++ str "#")) in Hinc.
    rewrite includes_unfold in Hinc. apply orb_false_iff in Hinc as [Hc Hinc].
    change ((c :: pre) ++ s) with (c :: (pre ++ s)).
    cbn [search]. rewrite triggerPattern_needs_hashes.
    + rewrite IH by done. f_equal. simpl. lia.
    + cbn [initial rest].
      destruct s as [|d s]; [done|]. simpl in Hs.
      rewrite andb_true_r in Hs. apply N.eqb_eq in Hs as ->.
      destruct pre as [|b pre]; [exact Hc|].
      revert Hc. simpl. by rewrite !andb_true_r.
Qed.

Lemma asciiUpper_LF (c : N) : isNoCase LF c = true → c = LF.
Proof.
  unfold isNoCase. intros H%N.eqb_eq.
  apply asciiUpper_not_letter in H; [done|]. vm_compute. intros [? ?]. done.
Qed.

Lemma isNoCase_LF_false (c : N) : c ≠ LF → isNoCase LF c = false.
Proof.
  intros Hc. destruct (isNoCase LF c) eqn:E; [|done].
  by apply asciiUpper_LF in E.
Qed.

(** The lookahead at the end of a section. *)
Lemma rmatch_trigger_lookahead_here (x : mstate) (more : jsstring)
  (k : mstate → option mstate) :
  rest x = LF :: str "##" ++ more →
  rmatch (Lookahead (Lit isNoCase (LF :: str "##") ∣ Char (isNoCase 90%N))%re)
         x k
  = k (withCaps x (after (LF :: str "##") x)).
Proof.
  intros Hx. cbn [rmatch].
  assert (H : rmatch (Lit isNoCase (LF :: str "##")) x Some
              = Some (after (LF :: str "##") x)).
  { apply (rmatch_Lit_isNoCase _ (LF :: str "##") more); [done|].
    repeat constructor. }
  change (rmatch (Lit isNoCase (LF :: str "##") ∣ Char (isNoCase 90%N))%re
            x Some)
    with (match rmatch (Lit isNoCase (LF :: str "##")) x Some with
          | Some z => Some z
          | None => rmatch (Char (isNoCase 90%N)) x Some
          end).
  by rewrite H.
Qed.

(** The lookahead inside a section that has no letter Z and no heading. *)
Lemma rmatch_trigger_lookahead_none (x : mstate) (c : N) (s : jsstring)
  (k : mstate → option mstate) :
  rest x = c :: s → asciiUpper c ≠ 90%N →
  startsWith (LF :: str "##") (c :: s) = false →
  rmatch (Lookahead (Lit isNoCase (LF :: str "##") ∣ Char (isNoCase 90%N))%re)
         x k
  = None.
Proof.
  intros Hx Hz Hs.
  match goal with |- ?t = None => destruct t as [z|] eqn:E; [|done] end.
  exfalso. apply rmatch_sound in E as (y & Hy & _).
  apply matches_trigger_lookahead in Hy as [[b Hb]|(c' & b & Hb & Hc)].
  - rewrite Hx in Hb. rewrite Hb in Hs.
    change (LF :: str "##" ++ b) with ((LF :: str "##") ++ b) in Hs.
    by rewrite startsWith_app in Hs.
  - rewrite Hx in Hb. injection Hb as -> _. done.
Qed.

Lemma search_here (r : regex) (n i : nat) (s : jsstring) y :
  rmatch r (initial n i s) Some = Some y →
  search r n i s
  = Some {| index := i; matched := take (pos y - i) s; groups := caps y |}.
Proof. intros Hy. destruct s; simpl; by rewrite Hy. Qed.

(** From the rest of the heading line on: the line is skipped, the section
    is read up to the next heading. *)
Lemma rmatch_section (y : mstate) (hr section more : jsstring) :
  rest y = hr ++ LF :: section ++ LF :: str "##" ++ more →
  LF ∉ hr →
  Forall (λ c, asciiUpper c ≠ 90%N) section →
  includes (LF :: str "##") section = false →
  ∃ z, rmatch (Star false (Char dotAll) ⋅ Char (isNoCase LF)
               ⋅ Group 1 (Star false (Char dotAll))
               ⋅ Lookahead (Lit isNoCase (LF :: str "##")
                            ∣ Char (isNoCase 90%N)))%re y Some = Some z
       ∧ caps z = <[1 := Some section]> (caps y).
Proof.
  intros Hy Hhr Hz Hinc.
  set (x' := advance (after hr y)).
  assert (Hx' : rest x' = section ++ LF :: str "##" ++ more).
  { unfold x'. change (rest (advance (after hr y)))
      with (tail (rest (after hr y))).
    by rewrite (rest_after hr _ y Hy). }
  set (X := capture 1 x' (after section x')).
  assert (HX : rest X = LF :: str "##" ++ more).
  { unfold X. change (rest (capture 1 x' (after section x')))
      with (rest (after section x')).
    by apply rest_after. }
  exists (withCaps X (after (LF :: str "##") X)). split.
  - rewrite rmatch_Seq_eq.
    apply (rmatch_Star_Char_first dotAll hr
             (LF :: section ++ LF :: str "##" ++ more)); [done| | |].
    + by apply Forall_true.
    + intros w1 w2 -> Hw2. rewrite rmatch_Seq_eq. apply rmatch_Char_none.
      rewrite (rest_after w1 (w2 ++ LF :: section ++ LF :: str "##" ++ more))
        by by rewrite Hy, <- app_assoc.
      destruct w2 as [|c w2]; [done|]. simpl.
      apply isNoCase_LF_false. intros ->. apply Hhr.
      apply elem_of_app. right. left.
    + rewrite rmatch_Seq_eq.
      rewrite (rmatch_Char_eq _ _ _ LF (section ++ LF :: str "##" ++ more));
        [|by apply rest_after|done].
      fold x'. rewrite rmatch_Seq_eq, rmatch_Group_eq.
      apply (rmatch_Star_Char_first dotAll section (LF :: str "##" ++ more));
        [done| | |].
      * by apply Forall_true.
      * intros w1 w2 -> Hw2. destruct w2 as [|c w2]; [done|].
        apply (rmatch_trigger_lookahead_none _ c
                 (w2 ++ LF :: str "##" ++ more)).
        -- change (rest (capture 1 x' (after w1 x')))
             with (rest (after w1 x')).
           apply rest_after. rewrite Hx'. by rewrite <- app_assoc.
        -- apply Forall_app in Hz as [_ Hz].
           by apply Forall_cons in Hz as [Hz _].
        -- destruct (startsWith (LF :: str "##")
                       (c :: w2 ++ LF :: str "##" ++ more)) eqn:Es; [|done].
           exfalso. cbn [startsWith] in Es.
           apply andb_true_iff in Es as [->%N.eqb_eq Es].
           destruct w2 as [|a w2]; [by vm_compute in Es|].
           destruct w2 as [|b w2].
           { cbn in Es. apply andb_true_iff in Es as [_ Es].
             by vm_compute in Es. }
           cbn in Es. apply andb_true_iff in Es as [->%N.eqb_eq Es].
           apply andb_true_iff in Es as [->%N.eqb_eq _].
           by apply (includes_false _ _ w1 w2) in Hinc.
      * fold X. by apply (rmatch_trigger_lookahead_here X more).
  - change (caps (withCaps X (after (LF :: str "##") X))) with (caps X).
    unfold X.
    change (caps (capture 1 x' (after section x')))
      with (<[1 := Some (take (pos x' + length section - pos x') (rest x'))]>
              (caps y)).
    rewrite Hx'.
    replace (pos x' + length section - pos x') with (length section) by lia.
    by rewrite take_app_exact.
Qed.

Lemma asciiUpper_T (c : N) : asciiUpper c = 84%N → isSpace c = false.
Proof.
  unfold asciiUpper. destruct (andb _ _) eqn:E.
  - apply andb_true_iff in E as [H1%N.leb_le H2%N.leb_le]. intros H.
    assert (c = 116%N) as -> by lia. done.
  - by intros ->.
Qed.

(** The pattern of the trigger section, where the heading stands. *)
Lemma rmatch_triggerPattern (x : mstate) (W tw hr section more : jsstring) :
  rest x = str "##" ++ W ++ tw ++ hr ++ LF :: section ++ LF :: str "##"
           ++ more →
  Forall (λ c, isSpace c = true) W →
  map asciiUpper tw = str "TRIGGER" →
  LF ∉ hr →
  Forall (λ c, asciiUpper c ≠ 90%N) section →
  includes (LF :: str "##") section = false →
  ∃ z, rmatch triggerPattern x Some = Some z
       ∧ caps z = <[1 := Some section]> (caps x).
Proof.
  intros Hx HW Htw Hhr Hz Hinc.
  set (tl := hr ++ LF :: section ++ LF :: str "##" ++ more) in *.
  set (x1 := after (str "##") x).
  assert (Hx1 : rest x1 = W ++ tw ++ tl) by by apply rest_after.
  set (x2 := after W x1).
  assert (Hx2 : rest x2 = tw ++ tl) by by apply rest_after.
  set (x3 := after tw x2).
  assert (Hx3 : rest x3 = tl) by by apply rest_after.
  set (K := λ y, rmatch (Star false (Char dotAll) ⋅ Char (isNoCase LF)
                         ⋅ Group 1 (Star false (Char dotAll))
                         ⋅ Lookahead (Lit isNoCase (LF :: str "##")
                                      ∣ Char (isNoCase 90%N)))%re y Some).
  assert (Hopt : ∃ z, rmatch (Opt (Char (isNoCase 115%N))) x3 K = Some z
                      ∧ caps z = <[1 := Some section]> (caps x)).
  { apply rmatch_Opt_either.
    - intros z Hc. cbn [rmatch] in Hc. rewrite Hx3 in Hc.
      unfold tl in Hc. destruct hr as [|c hr]; cbn [app] in Hc.
      + assert (E : isNoCase 115%N LF = false) by done.
        by rewrite E in Hc.
      + destruct (isNoCase 115%N c); [|done].
        destruct (rmatch_section (advance x3) hr section more)
          as (z' & Hz' & Hcaps); try done.
        * change (rest (advance x3)) with (tail (rest x3)).
          by rewrite Hx3.
        * intros Hin. apply Hhr. by right.
        * unfold K in Hc. rewrite Hz' in Hc. injection Hc as <-. exact Hcaps.
    - destruct (rmatch_section x3 hr section more) as (z' & Hz' & Hcaps);
        try done.
      exists z'. by split. }
  destruct Hopt as (z & Hopt & Hcaps). exists z. split; [|done].
  unfold triggerPattern.
  rewrite rmatch_Seq_eq.
  rewrite (rmatch_Lit_isNoCase (str "##") (str "##") (W ++ tw ++ tl));
    [|done|by repeat constructor].
  fold x1. rewrite rmatch_Seq_eq.
  apply (rmatch_Star_Char_longest isSpace W (tw ++ tl)); [done|done| |].
  { destruct tw as [|t0 tw]; [done|]. cbn [app].
    injection Htw as Ht0 _. by apply asciiUpper_T. }
  fold x2. rewrite rmatch_Seq_eq. apply rmatch_Alt_l.
  rewrite rmatch_Seq_eq.
  rewrite (rmatch_Lit_isNoCase (str "Trigger") tw tl);
    [|done|by apply isNoCase_TRIGGER].
  fold x3. exact Hopt.
Qed.

Lemma regexMatch_triggerPattern (pre W tw hr section more : jsstring) :
  includes (str "##") (pre ++ str "#") = false →
  Forall (λ c, isSpace c = true) W →
  map asciiUpper tw = str "TRIGGER" →
  LF ∉ hr →
  Forall (λ c, asciiUpper c ≠ 90%N) section →
  includes (LF :: str "##") section = false →
  ∃ m, regexMatch triggerPattern 1
         (pre ++ str "##" ++ W ++ tw ++ hr ++ LF :: section ++ LF :: str "##"
          ++ more) = Some m
       ∧ group 1 m = section.
Proof.
  intros Hpre HW Htw Hhr Hz Hinc. unfold regexMatch.
  rewrite search_triggerPattern_skip by done.
  set (s := str "##" ++ W ++ tw ++ hr ++ LF :: section ++ LF :: str "##"
            ++ more).
  destruct (rmatch_triggerPattern (initial 1 (0 + length pre) s)
              W tw hr section more) as (z & Hm & Hcaps); try done.
  rewrite (search_here _ _ _ _ _ Hm). eexists. split; [done|].
  unfold group. cbn [groups]. by rewrite Hcaps.
Qed.

(** X16. A section whose heading is two hashes, white space and the word
    [Trigger] in any case, before which no two hashes start, that has no
    letter Z and no second-level heading inside, and that a second-level
    heading follows: its triggers are the first five of its lines that
    start with a hyphen once trimmed, each without a hyphen at its very
    start and the white space after it, and trimmed.  What follows the word
    on the line of the heading is skipped. *)
Theorem triggers_of_section (pre W tw hr section more : jsstring) :
  includes (str "##") (pre ++ str "#") = false →
  Forall (λ c, isSpace c = true) W →
  map asciiUpper tw = str "TRIGGER" →
  LF ∉ hr →
  Forall (λ c, asciiUpper c ≠ 90%N) section →
  includes (LF :: str "##") section = false →
  extractTriggers
    (pre ++ str "##" ++ W ++ tw ++ hr ++ LF :: section ++ LF :: str "##"
     ++ more)
  = take 5
      (map (λ line, trim (regexReplace leadingHyphenPattern 0 [] line))
         (filter (λ line, startsWithChar HYPHEN (trim line) = true)
            (split LF (trim section)))).
Proof.
  intros Hpre HW Htw Hhr Hz Hinc.
  destruct (regexMatch_triggerPattern pre W tw hr section more)
    as (m & Hm & Hg); try done.
  unfold extractTriggers. rewrite Hm. cbv zeta. by rewrite Hg.
Qed.

Lemma triggers_of_section_witness :
  extractTriggers (doc ["# Deploy"; ""; "## triggers (when to use)";
                        "- ship it"; "note"; "  - later"; ""; "## Notes"])
  = take 5
      (map (λ line, trim (regexReplace leadingHyphenPattern 0 [] line))
         (filter (λ line, startsWithChar HYPHEN (trim line) = true)
            (split LF (trim (doc ["- ship it"; "note"; "  - later"; ""]))))).
Proof.
  apply (triggers_of_section (doc ["# Deploy"; ""; ""]) (str " ")
           (str "trigger") (str "s (when to use)")
           (doc ["- ship it"; "note"; "  - later"; ""]) (str " Notes")).
  - vm_compute. reflexivity.
  - by repeat constructor.
  - vm_compute. reflexivity.
  - by_evaluation.
  - by_evaluation.
  - vm_compute. reflexivity.
Defined.

(** ** The lines of a trigger section *)

Lemma trim_ends (s : jsstring) (c d : N) :
  head s = Some c → isSpace c = false →
  last s = Some d → isSpace d = false → trim s = s.
Proof.
  intros Hc Hcs Hd Hds. unfold trim, trimStart.
  destruct s as [|c' s]; [done|]. injection Hc as ->.
  rewrite dropWhile_id by done. unfold trimEnd.
  apply last_Some in Hd as [s' E]. rewrite E, reverse_snoc.
  rewrite dropWhile_id by done. by rewrite <- reverse_snoc, reverse_involutive.
Qed.

Lemma trimmed_last (s : jsstring) :
  trim s = s → s ≠ [] → ∃ d, last s = Some d ∧ isSpace d = false.
Proof.
  intros E Hne. pose proof (trim_fixed_trimStart s E) as Es.
  unfold trim in E. rewrite Es in E. unfold trimEnd in E.
  destruct (reverse s) as [|d r] eqn:Er.
  - apply (f_equal reverse) in Er. rewrite reverse_involutive in Er. done.
  - exists d. split.
    + apply (f_equal reverse) in Er. rewrite reverse_involutive in Er.
      rewrite Er, reverse_cons. apply last_snoc.
    + destruct (isSpace d) eqn:Ed; [|done]. exfalso.
      apply (f_equal length) in E. rewrite length_reverse in E.
      pose proof (dropWhile_length isSpace r) as Hl. simpl in E.
      rewrite Ed in E. apply (f_equal length) in Er.
      rewrite length_reverse in Er. simpl in Er. lia.
Qed.

Lemma last_joinLF (ls : list jsstring) (l : jsstring) :
  l ≠ [] → last (joinLF (ls ++ [l])) = last l.
Proof.
  intros Hl. induction ls as [|a ls IH]; [done|].
  change (joinLF ((a :: ls) ++ [l])) with (joinLF (a :: (ls ++ [l]))).
  destruct (ls ++ [l]) as [|b k] eqn:E; [by destruct ls|].
  change (joinLF (a :: b :: k)) with (a ++ LF :: joinLF (b :: k)).
  rewrite last_app. rewrite last_cons. rewrite IH.
  destruct (last l) eqn:El; [done|]. by apply last_None in El.
Qed.

(** The line of an item: a hyphen, a blank, the item. *)
Lemma hyphen_line_trimmed (i : jsstring) :
  trim i = i → i ≠ [] → trim (HYPHEN :: 32%N :: i) = HYPHEN :: 32%N :: i.
Proof.
  intros E Hne. destruct (trimmed_last i E Hne) as (d & Hd & Hds).
  apply (trim_ends _ HYPHEN d); try done.
  change (HYPHEN :: 32%N :: i) with ([HYPHEN; 32%N] ++ i).
  rewrite last_app, Hd. done.
Qed.

Lemma hyphen_line_cleaned (i : jsstring) :
  trim i = i → i ≠ [] →
  regexReplace leadingHyphenPattern 0 [] (HYPHEN :: 32%N :: i) = i.
Proof.
  intros E Hne. pose proof (trim_fixed_trimStart i E) as Es.
  set (line := HYPHEN :: 32%N :: i).
  set (x0 := initial 0 0 line).
  assert (Hy : rmatch leadingHyphenPattern x0 Some
               = Some (after [32%N] (advance x0))).
  { unfold leadingHyphenPattern.
    rewrite rmatch_Seq_eq, rmatch_Bol_eq by done.
    rewrite rmatch_Seq_eq.
    rewrite (rmatch_Char_eq _ _ _ HYPHEN (32%N :: i)); [|done|done].
    apply (rmatch_Star_Char_longest isSpace [32%N] i).
    - done.
    - by repeat constructor.
    - destruct i as [|c i]; [done|].
      unfold trimStart in Es. by apply dropWhile_head in Es.
    - done. }
  unfold regexReplace. rewrite (regexMatch_at_start _ _ _ _ Hy).
  cbn [index matched]. done.
Qed.

Lemma joinLF_Forall (P : N → Prop) (ls : list jsstring) :
  P LF → Forall (Forall P) ls → Forall P (joinLF ls).
Proof.
  intros HLF. induction 1 as [|l ls Hl Hls IH]; [constructor|].
  destruct ls as [|l' ls]; [done|].
  change (joinLF (l :: l' :: ls)) with (l ++ LF :: joinLF (l' :: ls)).
  apply Forall_app. split; [done|]. by constructor.
Qed.

Lemma split_hashes (w : jsstring) :
  ∃ l ls, split LF (str "##" ++ w) = (str "##" ++ l) :: ls.
Proof.
  change (str "##" ++ w) with (35%N :: 35%N :: w).
  pose proof (split_nonempty LF w).
  unfold LF in *. simpl. destruct (split 10%N w) as [|l ls]; [done|].
  by exists l, ls.
Qed.

(** No second-level heading starts in lines that all start with a hyphen. *)
Lemma hyphen_lines_no_heading (lines : list jsstring) :
  lines ≠ [] → Forall (λ l, LF ∉ l) lines →
  Forall (λ l, head l = Some HYPHEN) lines →
  includes (LF :: str "##") (joinLF lines) = false.
Proof.
  intros Hne Hlf Hh.
  destruct (includes (LF :: str "##") (joinLF lines)) eqn:E; [|done].
  exfalso. apply includes_inv in E as (a & b & E).
  apply (f_equal (split LF)) in E. rewrite split_joinLF in E by done.
  change (a ++ (LF :: str "##") ++ b) with (a ++ LF :: (str "##" ++ b)) in E.
  rewrite split_app in E.
  destruct (split_hashes b) as (l & ls & Es). rewrite Es in E.
  rewrite Forall_forall in Hh.
  assert (Hin : str "##" ++ l ∈ lines).
  { rewrite E. apply elem_of_app. right. left. }
  apply Hh in Hin. done.
Qed.

(** X17. A trigger section (a heading with the word [Trigger] before
    which no two hashes start, and a second-level heading after the section)
    whose lines are a hyphen, a blank and an item, where the items are
    trimmed, not empty, on one line and without the letter Z: the triggers
    are the first five items. *)
Theorem hyphen_lines_are_triggers (pre W tw hr more : jsstring)
  (items : list jsstring) :
  includes (str "##") (pre ++ str "#") = false →
  Forall (λ c, isSpace c = true) W →
  map asciiUpper tw = str "TRIGGER" →
  LF ∉ hr →
  items ≠ [] →
  Forall (λ i, trim i = i ∧ i ≠ [] ∧ (LF ∉ i)
               ∧ Forall (λ c, asciiUpper c ≠ 90%N) i) items →
  extractTriggers
    (pre ++ str "##" ++ W ++ tw ++ hr
     ++ LF :: joinLF (map (λ i, HYPHEN :: 32%N :: i) items)
     ++ LF :: str "##" ++ more)
  = take 5 items.
Proof.
  intros Hpre HW Htw Hhr Hne Hitems.
  set (lines := map (λ i, HYPHEN :: 32%N :: i) items).
  assert (Hlines : lines ≠ []) by (unfold lines; by destruct items).
  assert (Hlf : Forall (λ l, LF ∉ l) lines).
  { unfold lines. apply Forall_forall. intros l Hl.
    apply list_elem_of_In, in_map_iff in Hl as (i & <- & Hi%list_elem_of_In).
    rewrite Forall_forall in Hitems. destruct (Hitems i Hi) as (_ & _ & Hn & _).
    intros [| [|]%elem_of_cons]%elem_of_cons; done. }
  assert (Hz : Forall (λ c, asciiUpper c ≠ 90%N) (joinLF lines)).
  { apply joinLF_Forall; [done|]. unfold lines. apply Forall_forall.
    intros l Hl.
    apply list_elem_of_In, in_map_iff in Hl as (i & <- & Hi%list_elem_of_In).
    rewrite Forall_forall in Hitems. destruct (Hitems i Hi) as (_ & _ & _ & Hn).
    by repeat constructor. }
  assert (Hinc : includes (LF :: str "##") (joinLF lines) = false).
  { apply hyphen_lines_no_heading; [done|done|]. unfold lines.
    apply Forall_forall. intros l Hl.
    by apply list_elem_of_In, in_map_iff in Hl as (i & <- & _). }
  destruct (regexMatch_triggerPattern pre W tw hr (joinLF lines) more)
    as (m & Hm & Hg); try done.
  unfold extractTriggers. rewrite Hm. cbv zeta. rewrite Hg.
  assert (Htrim : trim (joinLF lines) = joinLF lines).
  { destruct (exists_last Hne) as (items' & i & Ei).
    rewrite Ei in Hitems. apply Forall_app in Hitems as [_ Hi].
    apply Forall_cons in Hi as [(Hi1 & Hi2 & _) _].
    destruct (trimmed_last i Hi1 Hi2) as (d & Hd & Hds).
    apply (trim_ends _ HYPHEN d); try done.
    - unfold lines. destruct items as [|i0 items0]; [done|]. simpl.
      by destruct (map _ items0).
    - unfold lines. rewrite Ei, map_app. simpl map.
      rewrite last_joinLF by done.
      change (HYPHEN :: 32%N :: i) with ([HYPHEN; 32%N] ++ i).
      by rewrite last_app, Hd. }
  rewrite Htrim, split_joinLF by done. f_equal.
  unfold lines. clear -Hitems.
  induction Hitems as [|i items (Hi1 & Hi2 & _) _ IH]; [done|].
  simpl map at 2. rewrite filter_cons.
  rewrite hyphen_line_trimmed by done.
  destruct (decide _) as [_|Hn]; [|by destruct Hn].
  simpl map. rewrite hyphen_line_cleaned by done. rewrite Hi1. by f_equal.
Qed.

Lemma hyphen_lines_are_triggers_witness :
  extractTriggers (doc ["# Deploy"; ""; "## Triggers"; "- one"; "- two";
                        "- three"; "- four"; "- five"; "- six"; "## Notes"])
  = take 5 [str "one"; str "two"; str "three"; str "four"; str "five";
            str "six"].
Proof.
  apply (hyphen_lines_are_triggers (doc ["# Deploy"; ""; ""]) (str " ")
           (str "Trigger") (str "s")
           (str " Notes")
           [str "one"; str "two"; str "three"; str "four"; str "five";
            str "six"]).
  - vm_compute. reflexivity.
  - by repeat constructor.
  - vm_compute. reflexivity.
  - by_evaluation.
  - done.
  - repeat (constructor;
            [split; [vm_compute; reflexivity|split; [done|split;
               [by_evaluation|by_evaluation]]]|]).
    constructor.
Defined.

(** X18. A body in which no two hashes follow each other has no trigger;
    and neither has a body in which no line starts with two hashes after the
    first line, and that has no letter Z: the trigger section of such a body
    is its last section. *)
Theorem no_triggers_found (body : jsstring) :
  (includes (str "##") body = false → extractTriggers body = [])
  ∧ (includes (LF :: str "##") body = false →
     Forall (λ c, asciiUpper c ≠ 90%N) body → extractTriggers body = []).
Proof.
  split.
  - apply extractTriggers_no_heading.
  - apply extractTriggers_last_section.
Qed.

(** ** Scopes and counts of a scan *)

Lemma scanAgents_scope h claudePath sc basePath :
  Forall (λ a, agentScope a = sc) (scanAgents h claudePath sc basePath).
Proof.
  apply Forall_forall. by intros a (file & content & _ & _ & ->)%scanAgents_elem.
Qed.

Lemma scanSkills_scope h claudePath sc basePath :
  Forall (λ s, skillScope s = sc)
         (skillsOf (scanSkills h claudePath sc basePath)).
Proof.
  apply Forall_forall.
  by intros s (entry & dir & content & _ & _ & _ & _ & ->)%scanSkills_elem.
Qed.

Lemma scanCommands_scope h claudePath sc basePath :
  Forall (λ c, commandScope c = sc) (scanCommands h claudePath sc basePath).
Proof.
  apply Forall_forall.
  by intros c (file & content & _ & _ & ->)%scanCommands_elem.
Qed.

Lemma filter_all {A} (P : A → Prop) `{∀ x, Decision (P x)} (l : list A) :
  (∀ x, x ∈ l → P x) → filter P l = l.
Proof.
  induction l as [|a l IH]; intros Hl; [done|].
  rewrite filter_cons_True by (apply Hl; left).
  f_equal. apply IH. intros x Hx. apply Hl. by right.
Qed.

Lemma mergeNodes_nil_l {T} `{GraphNode T} (globalNodes : list T) :
  mergeNodes [] globalNodes = globalNodes.
Proof.
  rewrite mergeNodes_unfold. simpl. apply filter_all.
  intros n _. apply not_elem_of_nil.
Qed.

Lemma mergeNodes_nil_r {T} `{GraphNode T} (localNodes : list T) :
  mergeNodes localNodes [] = localNodes.
Proof. rewrite mergeNodes_unfold. by rewrite filter_nil, app_nil_r. Qed.

Lemma mergeNodes_length {T} `{GraphNode T} (localNodes globalNodes : list T) :
  length localNodes ≤ length (mergeNodes localNodes globalNodes)
  ∧ length (mergeNodes localNodes globalNodes)
    ≤ length localNodes + length globalNodes.
Proof.
  rewrite mergeNodes_unfold, length_app.
  pose proof (length_filter (λ n, nodeId n ∉ map nodeId localNodes) globalNodes).
  lia.
Qed.

(** X19. The two options of a scan select the scopes of its nodes: without
    the local scope every node is global and the local counts are zero,
    without the global scope every node is local and the global counts are
    zero. *)
Theorem scope_flags (h : Host) (projectPath outputPath : jsstring)
  (options : ScanOptions) (g : GraphData) :
  scanProject h projectPath outputPath options = Ok g →
  (includeLocal options = Some false →
   Forall (λ n, nodeScope n = Global) (nodes g)
   ∧ agentCount (metadata g) = 0 ∧ skillCount (metadata g) = 0
   ∧ commandCount (metadata g) = 0)
  ∧ (includeGlobal options = Some false →
     Forall (λ n, nodeScope n = Local) (nodes g)
     ∧ globalAgentCount (metadata g) = 0 ∧ globalSkillCount (metadata g) = 0
     ∧ globalCommandCount (metadata g) = 0).
Proof.
  intros Hg. apply scanProject_Ok in Hg. cbv zeta in Hg.
  destruct Hg as (_ & -> & _ & -> & -> & -> & _ & -> & -> & ->).
  split; intros ->; cbn [default from_option id andb].
  - rewrite !mergeNodes_nil_l. split; [|done].
    rewrite !Forall_app, !Forall_fmap. repeat split.
    + destruct (_ && _); [apply scanAgents_scope|done].
    + destruct (_ && _); [apply scanSkills_scope|done].
    + destruct (_ && _); [apply scanCommands_scope|done].
  - rewrite !mergeNodes_nil_r. split; [|done].
    rewrite !Forall_app, !Forall_fmap. repeat split.
    + destruct (_ && _); [apply scanAgents_scope|done].
    + destruct (_ && _); [apply scanSkills_scope|done].
    + destruct (_ && _); [apply scanCommands_scope|done].
Qed.

Lemma scope_flags_witness :
  ∃ g, scanProject demoHost (str "/p") (str "/p/graph.json")
         {| includeLocal := None; includeGlobal := Some false |} = Ok g
       ∧ Forall (λ n, nodeScope n = Local) (nodes g)
       ∧ globalAgentCount (metadata g) = 0.
Proof.
  assert (H : ∃ g, scanProject demoHost (str "/p") (str "/p/graph.json")
                     {| includeLocal := None; includeGlobal := Some false |}
                   = Ok g).
  { vm_compute. eauto. }
  destruct H as [g Hg]. exists g. split; [done|].
  destruct (scope_flags _ _ _ _ _ Hg) as [_ H]. destruct (H eq_refl) as (? & ? & _).
  by split.
Defined.

(** X20. With both scopes excluded nothing is scanned.  The scan throws
    its error when neither root exists.  As soon as one of them does, the
    empty graph, with all its counts at zero, is what the scan writes: it
    returns when the directory of the output can be made and the output can
    be written, and is rejected with the error of the first of the two
    calls that rejects otherwise. *)
Theorem nothing_selected (h : Host) (projectPath outputPath : jsstring)
  (options : ScanOptions) :
  includeLocal options = Some false → includeGlobal options = Some false →
  let project := pathResolve h projectPath in
  let globalPath := getGlobalClaudePath h in
  let empty :=
    {| nodes := []; edges := [];
       metadata :=
         {| generatedAt := nowISO h; projectPath := project;
            projectName := pathBasename h project;
            agentCount := 0; skillCount := 0; commandCount := 0;
            edgeCount := 0; globalAgentCount := 0;
            globalSkillCount := 0; globalCommandCount := 0 |} |} in
  scanProject h projectPath outputPath options
  = if access h (pathJoin h project (str ".claude")) || access h globalPath
    then match mkdir h (pathDirname h outputPath) with
         | Rejected code => Throw (SystemError code)
         | Resolved _ =>
             match writeFile h outputPath empty with
             | Rejected code => Throw (SystemError code)
             | Resolved _ => Ok empty
             end
         end
    else Throw (Error (str "No .claude folder found (local: " ++ project
                       ++ str ", global: " ++ globalPath ++ str ")")).
Proof.
  intros HL HG project globalPath empty.
  transitivity
    (if access h (pathJoin h project (str ".claude")) || access h globalPath
     then writeOutput h outputPath empty
     else Throw (Error (str "No .claude folder found (local: " ++ project
                        ++ str ", global: " ++ globalPath ++ str ")"))).
  { unfold scanProject, checkRoots.
    rewrite HL, HG. cbn [default from_option id andb negb].
    fold project globalPath.
    by destruct (access h (pathJoin h project (str ".claude"))),
                (access h globalPath). }
  destruct (_ || _); [|done]. unfold writeOutput.
  destruct (mkdir h _) as [[]|code]; [|done]. cbn [fsCall mbind outcome_bind].
  by destruct (writeFile h _ _) as [[]|code].
Qed.

Lemma nothing_selected_witness :
  scanProject demoHost (str "/p") (str "/p/graph.json")
    {| includeLocal := Some false; includeGlobal := Some false |}
  = Ok {| nodes := []; edges := [];
          metadata :=
            {| generatedAt := nowISO demoHost;
               projectPath := pathResolve demoHost (str "/p");
               projectName := pathBasename demoHost
                                (pathResolve demoHost (str "/p"));
               agentCount := 0; skillCount := 0; commandCount := 0;
               edgeCount := 0; globalAgentCount := 0;
               globalSkillCount := 0; globalCommandCount := 0 |} |}.
Proof.
  exact (nothing_selected demoHost (str "/p") (str "/p/graph.json")
           {| includeLocal := Some false; includeGlobal := Some false |}
           eq_refl eq_refl).
Defined.

(** X21. The counts of the metadata are taken before the two scopes are
    merged: the local counts add up to at most the number of nodes, which is
    at most the sum of the six counts (a global entry that a local one
    shadows is counted and is no node); the edge count is the number of
    edges. *)
Theorem counts_and_nodes (h : Host) (projectPath outputPath : jsstring)
  (options : ScanOptions) (g : GraphData) :
  scanProject h projectPath outputPath options = Ok g →
  agentCount (metadata g) + skillCount (metadata g)
  + commandCount (metadata g) ≤ length (nodes g)
  ∧ length (nodes g)
    ≤ agentCount (metadata g) + skillCount (metadata g)
      + commandCount (metadata g) + globalAgentCount (metadata g)
      + globalSkillCount (metadata g) + globalCommandCount (metadata g)
  ∧ edgeCount (metadata g) = length (edges g).
Proof.
  intros Hg. apply scanProject_Ok in Hg. cbv zeta in Hg.
  destruct Hg as (_ & -> & _ & -> & -> & -> & -> & -> & -> & ->).
  rewrite !length_app, !length_fmap.
  match goal with
  | |- context [mergeNodes ?la ?ga] =>
      pose proof (mergeNodes_length la ga)
  end.
  match goal with
  | |- context [@mergeNodes SkillNode _ ?ls ?gs] =>
      pose proof (mergeNodes_length ls gs)
  end.
  match goal with
  | |- context [@mergeNodes CommandNode _ ?lc ?gc] =>
      pose proof (mergeNodes_length lc gc)
  end.
  lia.
Qed.

Lemma counts_and_nodes_witness :
  ∃ g, scanProject demoHost (str "/p") (str "/p/graph.json") defaultOptions
       = Ok g
       ∧ agentCount (metadata g) + skillCount (metadata g)
         + commandCount (metadata g) ≤ length (nodes g)
       ∧ edgeCount (metadata g) = length (edges g).
Proof.
  assert (H : ∃ g, scanProject demoHost (str "/p") (str "/p/graph.json")
                     defaultOptions = Ok g).
  { vm_compute. eauto. }
  destruct H as [g Hg]. exists g. split; [done|].
  destruct (counts_and_nodes _ _ _ _ _ Hg) as (? & _ & ?). by split.
Defined.

(** ** The ids of the nodes *)

Lemma omap_fmap_sublist {A B C} (f : A → option B) (g : B → C) (g' : A → C)
  (l : list A) :
  (∀ a b, f a = Some b → g b = g' a) →
  g <$> omap f l `sublist_of` g' <$> l.
Proof.
  intros Hg. induction l as [|a l IH]; [done|]. simpl.
  destruct (f a) as [b|] eqn:E.
  - simpl. rewrite (Hg a b E). by constructor.
  - by constructor.
Qed.

Lemma NoDup_prefixed (p : jsstring) (l : list jsstring) :
  NoDup l → NoDup ((λ s, p ++ s) <$> l).
Proof. apply NoDup_fmap_2. intros s t. apply app_inv_head. Qed.

Lemma scanAgents_ids_sublist h claudePath sc basePath :
  agentId <$> scanAgents h claudePath sc basePath
  `sublist_of` (λ s, str "agent:" ++ s)
               <$> (pathStem h <$> globMd h (pathJoin h claudePath (str "agents"))).
Proof.
  unfold scanAgents. destruct (access h _); [|apply sublist_nil_l].
  rewrite <- list_fmap_compose. apply omap_fmap_sublist.
  intros file a Ha. apply fmap_Some in Ha as (content & _ & ->). done.
Qed.

Lemma scanCommands_ids_sublist h claudePath sc basePath :
  commandId <$> scanCommands h claudePath sc basePath
  `sublist_of` (λ s, str "command:" ++ s)
               <$> (pathStem h
                      <$> globMd h (pathJoin h claudePath (str "commands"))).
Proof.
  unfold scanCommands. destruct (access h _); [|apply sublist_nil_l].
  rewrite <- list_fmap_compose. apply omap_fmap_sublist.
  intros file a Ha. apply fmap_Some in Ha as (content & _ & ->). done.
Qed.

Lemma scanSkills_ids_NoDup h claudePath sc basePath :
  (∀ dir entries, readdir h dir = Resolved entries →
                  NoDup (direntName <$> entries)) →
  NoDup (skillId <$> skillsOf (scanSkills h claudePath sc basePath)).
Proof.
  intros Hdir. unfold scanSkills. destruct (access h _); [|constructor].
  destruct (readdir h _) as [entries|code] eqn:Er; [|constructor].
  cbn [skillsOf].
  eapply sublist_NoDup; [apply NoDup_prefixed, (Hdir _ _ Er)|].
  rewrite <- list_fmap_compose. apply omap_fmap_sublist.
  intros entry s Hs. unfold scanSkillEntry in Hs.
  apply bind_Some in Hs as (isDir & _ & Hs). destruct isDir; [|done].
  destruct (access h _); [|done].
  apply fmap_Some in Hs as (content & _ & ->). done.
Qed.

Lemma mergeNodes_NoDup {T} `{GraphNode T} (localNodes globalNodes : list T) :
  NoDup (nodeId <$> localNodes) → NoDup (nodeId <$> globalNodes) →
  NoDup (nodeId <$> mergeNodes localNodes globalNodes).
Proof.
  intros Hl Hg. rewrite mergeNodes_unfold, fmap_app.
  apply NoDup_app. split; [done|]. split.
  - intros i Hi [n [-> Hn]]%(list_elem_of_fmap (nodeId (T:=T))).
    apply list_elem_of_filter in Hn as [Hn _]. done.
  - eapply sublist_NoDup; [exact Hg|].
    apply (fmap_sublist (nodeId (T:=T))), sublist_filter.
Qed.

Lemma mergeNodes_NoDup_agents (l g : list AgentNode) :
  NoDup (agentId <$> l) → NoDup (agentId <$> g) →
  NoDup (agentId <$> mergeNodes l g).
Proof. exact (mergeNodes_NoDup l g). Qed.

Lemma mergeNodes_NoDup_skills (l g : list SkillNode) :
  NoDup (skillId <$> l) → NoDup (skillId <$> g) →
  NoDup (skillId <$> mergeNodes l g).
Proof. exact (mergeNodes_NoDup l g). Qed.

Lemma mergeNodes_NoDup_commands (l g : list CommandNode) :
  NoDup (commandId <$> l) → NoDup (commandId <$> g) →
  NoDup (commandId <$> mergeNodes l g).
Proof. exact (mergeNodes_NoDup l g). Qed.

Lemma mergeNodes_elem {T} `{GraphNode T} (localNodes globalNodes : list T) n :
  n ∈ mergeNodes localNodes globalNodes → n ∈ localNodes ∨ n ∈ globalNodes.
Proof.
  rewrite mergeNodes_unfold, elem_of_app, list_elem_of_filter. tauto.
Qed.

Lemma mergeNodes_Forall {T} `{GraphNode T} (P : T → Prop)
  (localNodes globalNodes : list T) :
  Forall P localNodes → Forall P globalNodes →
  Forall P (mergeNodes localNodes globalNodes).
Proof.
  rewrite !Forall_forall. intros Hl Hg n [?|?]%mergeNodes_elem; auto.
Qed.

(** X22. When no directory lists two [*.md] files with the same name
    without extension, nor two entries with the same name, the ids of the
    nodes of a scan are pairwise distinct: an id names one node of the
    graph. *)
Theorem node_ids_unique (h : Host) (projectPath outputPath : jsstring)
  (options : ScanOptions) (g : GraphData) :
  (∀ dir, NoDup (pathStem h <$> globMd h dir)) →
  (∀ dir entries, readdir h dir = Resolved entries →
                  NoDup (direntName <$> entries)) →
  scanProject h projectPath outputPath options = Ok g →
  NoDup (nodeId <$> nodes g).
Proof.
  intros Hglob Hdir Hg. apply scanProject_Ok in Hg. cbv zeta in Hg.
  destruct Hg as (_ & -> & _).
  assert (HA : ∀ p sc b, NoDup (agentId <$> scanAgents h p sc b)).
  { intros p sc b. eapply sublist_NoDup; [|apply scanAgents_ids_sublist].
    apply NoDup_prefixed, Hglob. }
  assert (HS : ∀ p sc b,
            NoDup (skillId <$> skillsOf (scanSkills h p sc b))).
  { intros p sc b. by apply scanSkills_ids_NoDup. }
  assert (HC : ∀ p sc b, NoDup (commandId <$> scanCommands h p sc b)).
  { intros p sc b. eapply sublist_NoDup; [|apply scanCommands_ids_sublist].
    apply NoDup_prefixed, Hglob. }
  assert (PA : ∀ p sc b, Forall (λ a, ∃ s, agentId a = str "agent:" ++ s)
                           (scanAgents h p sc b)).
  { intros p sc b. apply Forall_forall.
    intros a (file & content & _ & _ & ->)%scanAgents_elem. by eexists. }
  assert (PS : ∀ p sc b, Forall (λ a, ∃ s, skillId a = str "skill:" ++ s)
                           (skillsOf (scanSkills h p sc b))).
  { intros p sc b. apply Forall_forall.
    intros a (e & d & content & _ & _ & _ & _ & ->)%scanSkills_elem.
    by eexists. }
  assert (PC : ∀ p sc b, Forall (λ a, ∃ s, commandId a = str "command:" ++ s)
                           (scanCommands h p sc b)).
  { intros p sc b. apply Forall_forall.
    intros a (file & content & _ & _ & ->)%scanCommands_elem. by eexists. }
  set (scanLocal := _ && _). set (scanGlobal := _ && _).
  rewrite !fmap_app, <- !list_fmap_compose.
  change (nodeId ∘ NAgent) with agentId. change (nodeId ∘ NSkill) with skillId.
  change (nodeId ∘ NCommand) with commandId.
  match goal with
  | |- NoDup ((agentId <$> ?A) ++ (skillId <$> ?S) ++ (commandId <$> ?C)) =>
      assert (FA : Forall (λ a, ∃ s, agentId a = str "agent:" ++ s) A);
      [|assert (FS : Forall (λ a, ∃ s, skillId a = str "skill:" ++ s) S);
        [|assert (FC : Forall (λ a, ∃ s, commandId a = str "command:" ++ s) C)]]
  end.
  { apply mergeNodes_Forall; destruct scanLocal, scanGlobal; try done;
      apply PA. }
  { apply mergeNodes_Forall; destruct scanLocal, scanGlobal; try done;
      apply PS. }
  { apply mergeNodes_Forall; destruct scanLocal, scanGlobal; try done;
      apply PC. }
  rewrite Forall_forall in FA. rewrite Forall_forall in FS.
  rewrite Forall_forall in FC.
  apply NoDup_app. split; [|split].
  - apply (mergeNodes_NoDup_agents); 
      destruct scanLocal, scanGlobal; try apply HA; constructor.
  - intros id [a [-> Ha]]%list_elem_of_fmap Hid.
    destruct (FA a Ha) as [s Es].
    apply elem_of_app in Hid as [[b [E Hb]]%list_elem_of_fmap
                                |[b [E Hb]]%list_elem_of_fmap].
    + destruct (FS b Hb) as [t Et]. rewrite Es, Et in E. discriminate E.
    + destruct (FC b Hb) as [t Et]. rewrite Es, Et in E. discriminate E.
  - apply NoDup_app. split; [|split].
    + apply (mergeNodes_NoDup_skills);
        destruct scanLocal, scanGlobal; try apply HS; constructor.
    + intros id [a [-> Ha]]%list_elem_of_fmap [b [E Hb]]%list_elem_of_fmap.
      destruct (FS a Ha) as [s Es]. destruct (FC b Hb) as [t Et].
      rewrite Es, Et in E. discriminate E.
    + apply (mergeNodes_NoDup_commands);
        destruct scanLocal, scanGlobal; try apply HC; constructor.
Qed.

Lemma node_ids_unique_witness :
  ∃ g, scanProject demoHost (str "/p") (str "/p/graph.json") defaultOptions
       = Ok g
       ∧ NoDup (nodeId <$> nodes g).
Proof.
  assert (H : ∃ g, scanProject demoHost (str "/p") (str "/p/graph.json")
                     defaultOptions = Ok g).
  { vm_compute. eauto. }
  destruct H as [g Hg]. exists g. split; [done|].
  apply (node_ids_unique demoHost (str "/p") (str "/p/graph.json")
           defaultOptions g); [| |done].
  - intros dir. unfold demoHost, tableHost. cbn [globMd pathStem].
    cbn [lookupPath].
    repeat case_bool_decide; by_evaluation.
  - intros dir entries. unfold demoHost, tableHost. cbn [readdir].
    cbn [lookupPath].
    repeat case_bool_decide; intros Hr; try discriminate Hr;
      injection Hr as <-; by_evaluation.
Defined.

(** X23. The scope merger loses no id and invents none; an empty list on
    either side leaves the other list as it is; and merging the local list
    into a merged list changes nothing. *)
Theorem mergeNodes_ids {T} `{GraphNode T} (localNodes globalNodes : list T) :
  (∀ id, id ∈ nodeId <$> mergeNodes localNodes globalNodes
         ↔ id ∈ nodeId <$> localNodes ∨ id ∈ nodeId <$> globalNodes)
  ∧ mergeNodes [] globalNodes = globalNodes
  ∧ mergeNodes localNodes [] = localNodes
  ∧ mergeNodes localNodes (mergeNodes localNodes globalNodes)
    = mergeNodes localNodes globalNodes.
Proof.
  split; [|split; [apply mergeNodes_nil_l|split; [apply mergeNodes_nil_r|]]].
  - intros id. rewrite mergeNodes_unfold, fmap_app, elem_of_app. split.
    + intros [?|[n [-> Hn]]%list_elem_of_fmap]; [by left|].
      apply list_elem_of_filter in Hn as [_ Hn]. right.
      apply list_elem_of_fmap. eauto.
    + intros [?|[n [-> Hn]]%list_elem_of_fmap]; [by left|].
      destruct (decide (nodeId n ∈ map nodeId localNodes)) as [Hin|Hout].
      * by left.
      * right. apply list_elem_of_fmap. exists n. split; [done|].
        by apply list_elem_of_filter.
  - rewrite !mergeNodes_unfold. f_equal. rewrite filter_app.
    rewrite (filter_none _ localNodes).
    + simpl. apply filter_all. by intros n [? _]%list_elem_of_filter.
    + intros n Hn Hout. apply Hout. apply list_elem_of_fmap. eauto.
Qed.

(** ** When the relationship engine throws *)

Lemma buildMap_is_Some (h : Host) {T} `{GraphNode T} (prefix : jsstring)
  (ns : list T) :
  is_Some (buildMap h prefix ns)
  ↔ Forall (λ n, is_Some (lowerCased h (nodeName n))) ns.
Proof.
  induction ns as [|n ns IH] using rev_ind.
  - split; [constructor|by eexists].
  - rewrite buildMap_snoc, Forall_app, Forall_singleton, <- IH.
    destruct (buildMap h prefix ns) as [m|]; simpl.
    + destruct (lowerCased h (nodeName n)) as [name|]; simpl.
      * split; [by intros _; split; eexists|by eexists].
      * split; [by intros [? ?]|by intros [_ [? ?]]].
    + split; [by intros [? ?]|by intros [[? ?] _]].
Qed.

Lemma lowerCased_is_Some (h : Host) (v : jsvalue) :
  is_Some (lowerCased h v) ↔ ∃ s, v = JString s.
Proof.
  destruct v; simpl; split; try (by intros [? ?]); eauto.
Qed.

(** X24. The relationship engine returns exactly when the name of every
    agent and of every skill is a string; otherwise it throws a [TypeError].
    A front matter that gives [name] a list makes
    such a node: the name of the node is that list. *)
Theorem names_must_be_strings (h : Host) (agents : list AgentNode)
  (skills : list SkillNode) (commands : list CommandNode)
  (claudePath : jsstring) :
  let stringNames :=
    Forall (λ a, ∃ s, agentName a = JString s) agents
    ∧ Forall (λ s, ∃ t, skillName s = JString t) skills in
  ((∃ es, findRelationships h agents skills commands claudePath = Ok es)
   ↔ stringNames)
  ∧ (findRelationships h agents skills commands claudePath = Throw TypeError
     ↔ ¬ stringNames)
  ∧ (∀ sc basePath dir file content l,
       parseYamlFrontmatter content !! str "name" = Some (JArray l) →
       agentName (agentOfFile h sc basePath dir file content) = JArray l)
  ∧ (∀ sc basePath dir entryName realDir content l,
       parseYamlFrontmatter content !! str "name" = Some (JArray l) →
       skillName (skillOfFile h sc basePath dir entryName realDir content)
       = JArray l).
Proof.
  intros stringNames.
  assert (Hok : (∃ es, findRelationships h agents skills commands claudePath
                       = Ok es) ↔ stringNames).
  { unfold stringNames, findRelationships.
    pose proof (buildMap_is_Some h (str "agent:") agents) as HA.
    pose proof (buildMap_is_Some h (str "skill:") skills) as HS.
    pose proof (buildMap_is_Some h (str "command:") commands) as HC.
    assert (HC' : is_Some (buildMap h (str "command:") commands)).
    { apply HC, Forall_forall. intros c _. by eexists. }
    destruct HC' as [cm ->].
    setoid_rewrite <- lowerCased_is_Some.
    change (λ a : AgentNode, is_Some (lowerCased h (agentName a)))
      with (λ a : AgentNode, is_Some (lowerCased h (nodeName a))).
    change (λ s : SkillNode, is_Some (lowerCased h (skillName s)))
      with (λ s : SkillNode, is_Some (lowerCased h (nodeName s))).
    rewrite <- HA, <- HS.
    destruct (buildMap h (str "agent:") agents) as [am|],
             (buildMap h (str "skill:") skills) as [sm|].
    - split; [intros _; split; by eexists|intros _; by eexists].
    - split; [by intros [? ?]|by intros [_ [? ?]]].
    - split; [by intros [? ?]|by intros [[? ?] _]].
    - split; [by intros [? ?]|by intros [[? ?] _]]. }
  split; [exact Hok|]. split; [|split].
  - rewrite <- Hok. split.
    + intros E [es Hes]. congruence.
    + intros Hno.
      destruct (findRelationships h agents skills commands claudePath)
        as [es|e] eqn:E.
      * destruct Hno. by eexists.
      * by apply findRelationships_error in E as ->.
  - intros sc basePath dir file content l Hl. simpl.
    unfold getProp. by rewrite Hl.
  - intros sc basePath dir entryName realDir content l Hl. simpl.
    unfold getProp. by rewrite Hl.
Qed.

(** ** The kinds of the edges *)

(** As in the section on the two passes, with targets that depend on the
    type of the edge. *)
Section TypedPasses.
Context (h : Host) (S : jsstring → Prop) (D : edgeType → jsstring → Prop).
Context (P : collector → Prop).
Hypothesis P_addEdge :
  ∀ s t ty c, S s → D ty t → P c → P (addEdge s t ty c).

Lemma declaredEdge_keeps_typed (map : gmap jsstring jsstring) ty agent c name :
  S (agentId agent) → (∀ k id, map !! k = Some id → D ty id) →
  P c → P (declaredEdge h map ty agent c name).
Proof.
  intros HS HD HP. unfold declaredEdge.
  destruct (map !! _) as [id|] eqn:E; [|done].
  destruct (truthy _); [|done]. apply P_addEdge; eauto.
Qed.

Lemma declaredEdges_keeps_typed (agentMap skillMap : gmap jsstring jsstring)
  c agent :
  S (agentId agent) →
  (∀ k id, agentMap !! k = Some id → D Calls id) →
  (∀ k id, skillMap !! k = Some id → D Uses id) →
  P c → P (declaredEdges h agentMap skillMap c agent).
Proof.
  intros HS HA HK HP. unfold declaredEdges.
  assert (Hfold : ∀ map ty names c0,
    (∀ k id, map !! k = Some id → D ty id) → P c0 →
    P (foldl (declaredEdge h map ty agent) c0 names)).
  { intros map ty names. induction names as [|n names IH]; intros c0 Hm Hc0;
      simpl; [done|].
    apply IH; [done|]. by apply declaredEdge_keeps_typed. }
  apply Hfold; [done|]. by apply Hfold.
Qed.

Lemma mentions_keeps_typed {T} `{GraphNode T} prefix content agent
  (ns : list T) c :
  S (agentId agent) → Forall (λ n, D Uses (nodeId n)) ns →
  P c → P (mentions h prefix content agent ns c).1.
Proof.
  intros HS. revert c. induction ns as [|n ns IH]; intros c Hns HP; simpl;
    [done|].
  apply Forall_cons in Hns as [Hn Hns].
  destruct (lowerCased h (nodeName n)); [|done].
  apply IH; [done|]. destruct (_ || _); [|done]. by apply P_addEdge.
Qed.

Lemma contentEdges_keeps_typed claudePath skills commands c agent :
  S (agentId agent) →
  Forall (λ n, D Uses (nodeId n)) skills →
  Forall (λ n, D Uses (nodeId n)) commands →
  P c → P (contentEdges h claudePath skills commands c agent).
Proof.
  intros HS Hs Hc HP. unfold contentEdges.
  destruct (readFile h _) as [text|]; [|done].
  pose proof (mentions_keeps_typed (str "skill:") (toLowerCase h text) agent
                skills c HS Hs HP) as H1.
  destruct (mentions h (str "skill:") _ agent skills c) as [c1 completed].
  simpl in H1. destruct completed; [|done].
  by apply mentions_keeps_typed.
Qed.

Lemma findRelationships_keeps_typed agents skills commands claudePath es :
  Forall (λ a, S (agentId a)) agents →
  Forall (λ a, D Calls (agentId a)) agents →
  Forall (λ n, D Uses (skillId n)) skills →
  Forall (λ n, D Uses (commandId n)) commands →
  P emptyCollector →
  findRelationships h agents skills commands claudePath = Ok es →
  ∃ c, P c ∧ collected c = es.
Proof.
  intros HS HDa HDs HDc H0. unfold findRelationships.
  destruct (buildMap h (str "agent:") agents) as [agentMap|] eqn:Ea; [|done].
  destruct (buildMap h (str "skill:") skills) as [skillMap|] eqn:Es; [|done].
  destruct (buildMap h (str "command:") commands) as [commandMap|]; [|done].
  intros [= <-]. eexists. split; [|done]. unfold collectEdges.
  assert (HA : ∀ k id, agentMap !! k = Some id → D Calls id).
  { intros k id Hk. eapply buildMap_values in Hk; [|exact Ea].
    apply list_elem_of_fmap in Hk as (a & -> & Ha).
    rewrite Forall_forall in HDa. by apply HDa. }
  assert (HK : ∀ k id, skillMap !! k = Some id → D Uses id).
  { intros k id Hk. eapply buildMap_values in Hk; [|exact Es].
    apply list_elem_of_fmap in Hk as (a & -> & Ha).
    rewrite Forall_forall in HDs. by apply HDs. }
  assert (H1 : ∀ l c, Forall (λ a, S (agentId a)) l → P c →
                      P (foldl (declaredEdges h agentMap skillMap) c l)).
  { intros l c Hl. revert c.
    induction Hl as [|a l Ha _ IH]; intros c Hc; simpl; [done|].
    apply IH. by apply declaredEdges_keeps_typed. }
  assert (H2 : ∀ l c, Forall (λ a, S (agentId a)) l → P c →
                      P (foldl (contentEdges h claudePath skills commands) c l)).
  { intros l c Hl. revert c.
    induction Hl as [|a l Ha _ IH]; intros c Hc; simpl; [done|].
    apply IH. by apply contentEdges_keeps_typed. }
  apply H2; [done|]. by apply H1.
Qed.
End TypedPasses.

Lemma findRelationships_kinds (h : Host) (agents : list AgentNode)
  (skills : list SkillNode) (commands : list CommandNode)
  (claudePath : jsstring) (es : list GraphEdge) :
  findRelationships h agents skills commands claudePath = Ok es →
  Forall (λ e, source e ∈ agentId <$> agents
               ∧ match type e with
                 | Calls => target e ∈ agentId <$> agents
                 | Uses => target e ∈ (skillId <$> skills)
                                      ++ (commandId <$> commands)
                 end) es.
Proof.
  intros Hf.
  set (good := λ e, source e ∈ agentId <$> agents
               ∧ match type e with
                 | Calls => target e ∈ agentId <$> agents
                 | Uses => target e ∈ (skillId <$> skills)
                                      ++ (commandId <$> commands)
                 end).
  destruct (findRelationships_keeps_typed h
              (λ s, s ∈ agentId <$> agents)
              (λ ty t, match ty with
                       | Calls => t ∈ agentId <$> agents
                       | Uses => t ∈ (skillId <$> skills)
                                     ++ (commandId <$> commands)
                       end)
              (λ c, Forall good (collected c)))
    with agents skills commands claudePath es as (c & Hc & <-);
    try done.
  - intros s t ty c Hs Ht Hc. unfold addEdge.
    destruct (decide _); [done|]. simpl. apply Forall_app. split; [done|].
    constructor; [|done]. by split.
  - apply Forall_forall. intros a Ha. by apply (list_elem_of_fmap_2 agentId).
  - apply Forall_forall. intros a Ha. by apply (list_elem_of_fmap_2 agentId).
  - apply Forall_forall. intros a Ha. apply elem_of_app. left.
    by apply (list_elem_of_fmap_2 skillId).
  - apply Forall_forall. intros a Ha. apply elem_of_app. right.
    by apply (list_elem_of_fmap_2 commandId).
Qed.

(** X25. Every edge starts at an agent; an edge of type [calls] ends at an
    agent, an edge of type [uses] ends at a skill or at a command.  So the
    number of edges is at most the number of agents times the number of
    nodes. *)
Theorem edge_kinds (h : Host) (agents : list AgentNode)
  (skills : list SkillNode) (commands : list CommandNode)
  (claudePath : jsstring) (es : list GraphEdge) :
  findRelationships h agents skills commands claudePath = Ok es →
  Forall (λ e, source e ∈ agentId <$> agents
               ∧ match type e with
                 | Calls => target e ∈ agentId <$> agents
                 | Uses => target e ∈ (skillId <$> skills)
                                      ++ (commandId <$> commands)
                 end) es
  ∧ length es
    ≤ length agents * (length agents + length skills + length commands).
Proof.
  intros Hf. pose proof (findRelationships_kinds _ _ _ _ _ _ Hf) as Hk.
  split; [exact Hk|].
  set (ids := (agentId <$> agents) ++ (skillId <$> skills)
              ++ (commandId <$> commands)).
  assert (Hsub : endpoints <$> es ⊆+ cprod (agentId <$> agents) ids).
  { apply NoDup_submseteq; [by eapply findRelationships_NoDup|].
    intros p [e [-> He]]%list_elem_of_fmap.
    rewrite Forall_forall in Hk. destruct (Hk e He) as [Hs Ht].
    apply list_elem_of_cprod. split; [done|]. simpl. unfold ids.
    destruct (type e).
    - apply elem_of_app. by right.
    - apply elem_of_app. by left. }
  apply submseteq_length in Hsub.
  rewrite length_fmap, list_cprod_list_prod, length_prod in Hsub.
  unfold ids in Hsub. rewrite !length_app, !length_fmap in Hsub. lia.
Qed.

Lemma edge_kinds_witness :
  ∃ es,
    findRelationships demoHost
      (scanAgents demoHost (str "/p/.claude") Local (str "/p"))
      (skillsOf (scanSkills demoHost (str "/p/.claude") Local (str "/p")))
      (scanCommands demoHost (str "/p/.claude") Local (str "/p"))
      (str "/p/.claude") = Ok es
    ∧ length es ≤ 2 * (2 + 1 + 0).
Proof.
  assert (H : ∃ es,
    findRelationships demoHost
      (scanAgents demoHost (str "/p/.claude") Local (str "/p"))
      (skillsOf (scanSkills demoHost (str "/p/.claude") Local (str "/p")))
      (scanCommands demoHost (str "/p/.claude") Local (str "/p"))
      (str "/p/.claude") = Ok es).
  { vm_compute. eauto. }
  destruct H as [es Hes]. exists es. split; [done|].
  exact (proj2 (edge_kinds _ _ _ _ _ _ Hes)).
Defined.

(** ** A name that the text of an agent mentions *)

Section Mentioned.
Context (h : Host) (agent : AgentNode) (target : jsstring).

Let key := edgeKey (agentId agent) target.
Let known (c : collector) : Prop := key ∈ addedEdges c.

Lemma known_kept s t ty c : True → True → known c → known (addEdge s t ty c).
Proof. intros _ _ Hc. by apply addEdge_addedEdges_mono. Qed.

Lemma mentions_completed {T} `{GraphNode T} prefix content a (ns : list T) c :
  Forall (λ n, is_Some (lowerCased h (nodeName n))) ns →
  (mentions h prefix content a ns c).2 = true.
Proof.
  intros Hns. revert c. induction Hns as [|n ns [name Hn] _ IH]; intros c;
    simpl; [done|].
  rewrite Hn. apply IH.
Qed.

Lemma mentions_known {T} `{GraphNode T} prefix content (ns : list T) n name c :
  n ∈ ns → nodeId n = target →
  Forall (λ n, is_Some (lowerCased h (nodeName n))) ns →
  lowerCased h (nodeName n) = Some name →
  includes name content
  || includes (replaceFirst prefix [] (nodeId n)) content = true →
  known (mentions h prefix content agent ns c).1.
Proof.
  intros Hin Hid Hns Hname Hinc. revert c.
  induction Hns as [|m ns [name' Hm] Hns IH]; intros c.
  - by apply elem_of_nil in Hin.
  - simpl. rewrite Hm. apply elem_of_cons in Hin as [<-|Hin].
    + rewrite Hname in Hm. injection Hm as <-. rewrite Hinc.
      apply (mentions_keeps h (λ _, True) (λ _, True) known known_kept);
        [done|by apply Forall_true|].
      unfold known, key. rewrite <- Hid. apply addEdge_remembers.
    + by apply IH.
Qed.
End Mentioned.

(** An edge is collected under the key of its end points. *)
Lemma known_key_edge (agents : list AgentNode) (c : collector)
  (agent : AgentNode) (t : jsstring) :
  wellFormed c →
  Forall (λ e, source e ∈ agentId <$> agents) (collected c) →
  Forall (λ a, includes (str "->") (agentId a) = false) agents →
  agent ∈ agents →
  edgeKey (agentId agent) t ∈ addedEdges c →
  ∃ e, e ∈ collected c ∧ source e = agentId agent ∧ target e = t.
Proof.
  intros [Hkeys _] Hsrc Harrow Hagent Hkey.
  rewrite Hkeys in Hkey. apply elem_of_list_to_set in Hkey.
  apply list_elem_of_fmap in Hkey as (e & Hekey & He).
  exists e. split; [done|].
  rewrite Forall_forall in Hsrc. rewrite Forall_forall in Harrow.
  apply Hsrc in He as Hs. apply list_elem_of_fmap in Hs as (a & Ea & Ha).
  unfold edgeKeyOf in Hekey. symmetry in Hekey.
  apply edgeKey_inj in Hekey as [E1 E2]; [done| |by apply Harrow].
  rewrite Ea. by apply Harrow.
Qed.

(** X26. When the text of the file of an agent can be read, and its lower
    case contains the lower-cased name of a skill or of a command, or the id
    of that node without its prefix, the graph has an edge from the agent to
    that node (no agent id containing an arrow). *)
Theorem mentioned_node_is_linked (h : Host) (agents : list AgentNode)
  (skills : list SkillNode) (commands : list CommandNode)
  (claudePath : jsstring) (es : list GraphEdge) (agent : AgentNode)
  (text : jsstring) :
  findRelationships h agents skills commands claudePath = Ok es →
  agent ∈ agents →
  readFile h (pathJoin h (pathDirname h claudePath) (agentFilePath agent))
  = Some text →
  Forall (λ a, includes (str "->") (agentId a) = false) agents →
  (∀ s name, s ∈ skills → skillName s = JString name →
     includes (toLowerCase h name) (toLowerCase h text)
     || includes (replaceFirst (str "skill:") [] (skillId s))
                 (toLowerCase h text) = true →
     ∃ e, e ∈ es ∧ source e = agentId agent ∧ target e = skillId s)
  ∧ (∀ c, c ∈ commands →
     includes (toLowerCase h (commandName c)) (toLowerCase h text)
     || includes (replaceFirst (str "command:") [] (commandId c))
                 (toLowerCase h text) = true →
     ∃ e, e ∈ es ∧ source e = agentId agent ∧ target e = commandId c).
Proof.
  intros Hf Hagent Hread Harrow. unfold findRelationships in Hf.
  destruct (buildMap h (str "agent:") agents) as [agentMap|] eqn:Ea; [|done].
  destruct (buildMap h (str "skill:") skills) as [skillMap|] eqn:Es; [|done].
  destruct (buildMap h (str "command:") commands) as [commandMap|] eqn:Ec;
    [|done].
  injection Hf as <-.
  set (c := collectEdges h agentMap skillMap agents skills commands claudePath).
  assert (Hwf : wellFormed c).
  { apply (collectEdges_keeps h (λ _, True) (λ _, True) wellFormed
             (λ s t ty c _ _, addEdge_wellFormed s t ty c));
      try done; try (by apply Forall_true).
    apply emptyCollector_wellFormed. }
  assert (Hadd : ∀ s t ty c0,
    s ∈ agentId <$> agents → True →
    Forall (λ e, source e ∈ agentId <$> agents) (collected c0) →
    Forall (λ e, source e ∈ agentId <$> agents)
           (collected (addEdge s t ty c0))).
  { intros s t ty c0 Hs _ Hc0. unfold addEdge.
    destruct (decide _); [done|]. simpl. apply Forall_app. split; [done|].
    by repeat constructor. }
  assert (Hsrc : Forall (λ e, source e ∈ agentId <$> agents) (collected c)).
  { apply (collectEdges_keeps h (λ s, s ∈ agentId <$> agents) (λ _, True)
             (λ c, Forall (λ e, source e ∈ agentId <$> agents) (collected c))
             Hadd);
      try done; try (by apply Forall_true); try (by constructor).
    apply Forall_forall. intros a Ha. by apply (list_elem_of_fmap_2 agentId). }
  assert (HS : Forall (λ n : SkillNode, is_Some (lowerCased h (nodeName n)))
                 skills).
  { apply (buildMap_is_Some h (str "skill:")). by eexists. }
  assert (HC : Forall (λ n : CommandNode, is_Some (lowerCased h (nodeName n)))
                 commands).
  { apply Forall_forall. intros n _. by eexists. }
  assert (Hpass : ∀ t,
    (∀ c0, edgeKey (agentId agent) t
           ∈ addedEdges (contentEdges h claudePath skills commands c0 agent)) →
    edgeKey (agentId agent) t ∈ addedEdges c).
  { intros t Hone. unfold c, collectEdges.
    apply list_elem_of_split in Hagent as (l1 & l2 & ->).
    rewrite (foldl_app _ l1). simpl.
    apply (contentPass_keeps h (λ _, True) (λ _, True)
             (λ c, edgeKey (agentId agent) t ∈ addedEdges c)
             (known_kept agent t));
      try (by apply Forall_true).
    apply Hone. }
  split.
  - intros s name Hs Hname Hinc.
    apply (known_key_edge agents c agent (skillId s)); try done.
    apply Hpass. intros c0. unfold contentEdges. rewrite Hread.
    pose proof (mentions_known h agent (skillId s) (str "skill:")
                  (toLowerCase h text) skills s (toLowerCase h name) c0
                  Hs (eq_refl : nodeId s = skillId s) HS) as Hk.
    pose proof (mentions_completed h (str "skill:") (toLowerCase h text)
                  agent skills c0 HS) as Hdone.
    destruct (mentions h (str "skill:") (toLowerCase h text) agent skills c0)
      as [c1 completed].
    simpl in Hdone. subst completed.
    apply (mentions_keeps h (λ _, True) (λ _, True)
             (λ c, edgeKey (agentId agent) (skillId s) ∈ addedEdges c)
             (known_kept agent (skillId s)));
      [done|by apply Forall_true|].
    apply Hk; [|done]. simpl. by rewrite Hname.
  - intros cm Hcm Hinc.
    apply (known_key_edge agents c agent (commandId cm)); try done.
    apply Hpass. intros c0. unfold contentEdges. rewrite Hread.
    pose proof (mentions_completed h (str "skill:") (toLowerCase h text)
                  agent skills c0 HS) as Hdone.
    destruct (mentions h (str "skill:") (toLowerCase h text) agent skills c0)
      as [c1 completed].
    simpl in Hdone. subst completed.
    pose proof (mentions_known h agent (commandId cm) (str "command:")
                  (toLowerCase h text) commands cm
                  (toLowerCase h (commandName cm)) c1 Hcm) as Hk.
    by apply Hk.
Qed.

Lemma mentioned_node_is_linked_witness :
  let lead :=
    agentOfFile demoHost Local (str "/p") (str "/p/.claude/agents")
      (str "lead.md")
      (doc ["---"; "name: lead"; "subagents:"; "  - helper"; "  - ghost";
            "skills: search"; "---"; "Ask helper, then search."]) in
  let search :=
    skillOfFile demoHost Local (str "/p") (str "/p/.claude/skills")
      (str "search") (str "/p/.claude/skills/search")
      (doc ["---"; "name: search"; "---"; "## Triggers"; "- find files";
            "- grep"; ""; "## Notes"; "none"]) in
  ∃ es,
    findRelationships demoHost
      (scanAgents demoHost (str "/p/.claude") Local (str "/p"))
      (skillsOf (scanSkills demoHost (str "/p/.claude") Local (str "/p")))
      (scanCommands demoHost (str "/p/.claude") Local (str "/p"))
      (str "/p/.claude") = Ok es
    ∧ ∃ e, e ∈ es ∧ source e = agentId lead ∧ target e = skillId search.
Proof.
  intros lead search.
  assert (H : ∃ es,
    findRelationships demoHost
      (scanAgents demoHost (str "/p/.claude") Local (str "/p"))
      (skillsOf (scanSkills demoHost (str "/p/.claude") Local (str "/p")))
      (scanCommands demoHost (str "/p/.claude") Local (str "/p"))
      (str "/p/.claude") = Ok es).
  { vm_compute. eauto. }
  destruct H as [es Hes]. exists es. split; [done|].
  assert (Hin : lead ∈ scanAgents demoHost (str "/p/.claude") Local (str "/p")).
  { vm_compute. left. }
  assert (Hread : readFile demoHost
                    (pathJoin demoHost (pathDirname demoHost (str "/p/.claude"))
                       (agentFilePath lead))
                  = Some (doc ["---"; "name: lead"; "subagents:";
                               "  - helper"; "  - ghost"; "skills: search";
                               "---"; "Ask helper, then search."])).
  { vm_compute. reflexivity. }
  assert (Harrow : Forall (λ a, includes (str "->") (agentId a) = false)
                     (scanAgents demoHost (str "/p/.claude") Local (str "/p"))).
  { apply Forall_forall. intros a Ha. vm_compute in Ha.
    repeat (apply elem_of_cons in Ha as [->|Ha]; [vm_compute; reflexivity|]).
    by apply elem_of_nil in Ha. }
  apply (proj1 (mentioned_node_is_linked demoHost _ _ _ _ es lead _
                  Hes Hin Hread Harrow) search (str "search")).
  - vm_compute. left.
  - vm_compute. reflexivity.
  - vm_compute. reflexivity.
Defined.

(** ** The lookup maps *)

Lemma hasKey_dec (h : Host) {T} `{GraphNode T} (prefix : jsstring) (n : T)
  (key : jsstring) :
  {hasKey h prefix n key} + {¬ hasKey h prefix n key}.
Proof. unfold hasKey. exact (decide _). Qed.

Section LookupKeys.
Context (h : Host) {T : Type} `{GraphNode T} (prefix : jsstring).

Lemma buildMap_last (ns : list T) (n : T) (m : gmap jsstring jsstring) key :
  buildMap h prefix (ns ++ [n]) = Some m → hasKey h prefix n key →
  m !! key = Some (nodeId n).
Proof.
  rewrite buildMap_snoc.
  destruct (buildMap h prefix ns) as [m'|]; [|done]. simpl.
  destruct (lowerCased h (nodeName n)) as [name|] eqn:En; [|done]. simpl.
  intros [= <-] [Hk|Hk].
  - rewrite En in Hk. injection Hk as ->. rewrite lookup_insert.
    destruct (decide _); [done|]. by rewrite lookup_insert_eq.
  - rewrite <- Hk. by rewrite lookup_insert_eq.
Qed.

Lemma buildMap_skip (ns : list T) (n : T) (m m' : gmap jsstring jsstring) key :
  buildMap h prefix ns = Some m' → buildMap h prefix (ns ++ [n]) = Some m →
  ¬ hasKey h prefix n key → m !! key = m' !! key.
Proof.
  rewrite buildMap_snoc. intros -> Hm Hno. simpl in Hm.
  destruct (lowerCased h (nodeName n)) as [name|] eqn:En; [|done].
  simpl in Hm. injection Hm as <-.
  rewrite lookup_insert_ne; [|intros E; apply Hno; by right].
  rewrite lookup_insert_ne; [done|]. intros ->. apply Hno. by left.
Qed.

Lemma buildMap_prefix_Some (ns l : list T) (m : gmap jsstring jsstring) :
  buildMap h prefix (ns ++ l) = Some m → is_Some (buildMap h prefix ns).
Proof.
  revert m. induction l as [|n l IH] using rev_ind; intros m.
  - rewrite app_nil_r. by eexists.
  - rewrite app_assoc, buildMap_snoc.
    destruct (buildMap h prefix (ns ++ l)) as [m'|] eqn:E; [|done].
    intros _. by eapply IH.
Qed.

(** The last node that has a key is the one that the map gives for it. *)
Lemma buildMap_last_wins (l1 l2 : list T) (n : T)
  (m : gmap jsstring jsstring) key :
  buildMap h prefix (l1 ++ n :: l2) = Some m → hasKey h prefix n key →
  Forall (λ n', ¬ hasKey h prefix n' key) l2 →
  m !! key = Some (nodeId n).
Proof.
  revert m. induction l2 as [|n2 l2 IH] using rev_ind; intros m Hm Hn Hl2.
  - by eapply buildMap_last.
  - apply Forall_app in Hl2 as [Hl2 Hn2]. apply Forall_cons in Hn2 as [Hn2 _].
    replace (l1 ++ n :: l2 ++ [n2]) with ((l1 ++ n :: l2) ++ [n2]) in Hm
      by by rewrite <- app_assoc.
    destruct (buildMap_prefix_Some _ _ _ Hm) as [m' Hm'].
    rewrite (buildMap_skip _ _ _ _ _ Hm' Hm Hn2). by apply IH.
Qed.

(** A value of the map is the id of a node that has the key. *)
Lemma buildMap_lookup (ns : list T) (m : gmap jsstring jsstring) key id :
  buildMap h prefix ns = Some m → m !! key = Some id →
  ∃ n, n ∈ ns ∧ nodeId n = id ∧ hasKey h prefix n key.
Proof.
  revert m. induction ns as [|n ns IH] using rev_ind; intros m Hm Hk.
  - injection Hm as <-. by rewrite lookup_empty in Hk.
  - destruct (hasKey_dec h prefix n key) as [Hn|Hn].
    + rewrite (buildMap_last _ _ _ _ Hm Hn) in Hk. injection Hk as <-.
      exists n. split; [|done]. apply elem_of_app. right. left.
    + destruct (buildMap_prefix_Some _ _ _ Hm) as [m' Hm'].
      rewrite (buildMap_skip _ _ _ _ _ Hm' Hm Hn) in Hk.
      destruct (IH _ Hm' Hk) as (n' & Hin & Hid & Hkey).
      exists n'. split; [|done]. apply elem_of_app. by left.
Qed.
End LookupKeys.

(** X27. A lookup map knows a node under its lower-cased name and under
    its lower-cased id without the prefix, and under nothing else; when
    several nodes have a key, the map gives the id of the last of them. *)
Theorem lookup_map_keys (h : Host) {T} `{GraphNode T} (prefix : jsstring)
  (ns : list T) (m : gmap jsstring jsstring) :
  buildMap h prefix ns = Some m →
  (∀ l1 n l2 key,
     ns = l1 ++ n :: l2 → hasKey h prefix n key →
     Forall (λ n', ¬ hasKey h prefix n' key) l2 →
     m !! key = Some (nodeId n))
  ∧ (∀ key id, m !! key = Some id →
       ∃ n, n ∈ ns ∧ nodeId n = id ∧ hasKey h prefix n key)
  ∧ (∀ key, Forall (λ n, ¬ hasKey h prefix n key) ns → m !! key = None).
Proof.
  intros Hm. split; [|split].
  - intros l1 n l2 key -> Hn Hl2. by eapply buildMap_last_wins.
  - intros key id. by apply buildMap_lookup.
  - intros key Hno. destruct (m !! key) as [id|] eqn:E; [|done].
    destruct (buildMap_lookup h prefix ns m key id Hm E) as (n & Hin & _ & Hk).
    rewrite Forall_forall in Hno. by destruct (Hno n Hin).
Qed.

Lemma lookup_map_keys_witness :
  ∃ m, buildMap demoHost (str "agent:")
         (scanAgents demoHost (str "/p/.claude") Local (str "/p")) = Some m
       ∧ m !! str "nobody" = None.
Proof.
  assert (H : ∃ m, buildMap demoHost (str "agent:")
                     (scanAgents demoHost (str "/p/.claude") Local (str "/p"))
                   = Some m).
  { vm_compute. eauto. }
  destruct H as [m Hm]. exists m. split; [done|].
  apply (proj2 (proj2 (lookup_map_keys demoHost (str "agent:") _ m Hm))).
  apply Forall_forall. intros a Ha. vm_compute in Ha.
  repeat (apply elem_of_cons in Ha as [->|Ha];
          [intros [Hk|Hk]; vm_compute in Hk; discriminate Hk|]).
  by apply elem_of_nil in Ha.
Defined.

(** ** A name that an agent declares *)

Lemma buildMap_known (h : Host) {T} `{GraphNode T} (prefix : jsstring)
  (ns : list T) (m : gmap jsstring jsstring) (n : T) key :
  buildMap h prefix ns = Some m → n ∈ ns → hasKey h prefix n key →
  is_Some (m !! key).
Proof.
  revert m. induction ns as [|n' ns IH] using rev_ind; intros m Hm Hin Hk.
  - by apply elem_of_nil in Hin.
  - destruct (hasKey_dec h prefix n' key) as [Hn|Hn].
    + rewrite (buildMap_last _ _ _ _ _ _ Hm Hn). by eexists.
    + destruct (buildMap_prefix_Some _ _ _ _ _ Hm) as [m' Hm'].
      rewrite (buildMap_skip _ _ _ _ _ _ _ Hm' Hm Hn).
      apply elem_of_app in Hin as [Hin|Hin]; [by eapply IH|].
      apply elem_of_cons in Hin as [->|Hin]; [done|]. by apply elem_of_nil in Hin.
Qed.

Lemma declaredEdge_adds (h : Host) (map : gmap jsstring jsstring) ty agent c
  name id :
  map !! trim (toLowerCase h name) = Some id → id ≠ [] →
  edgeKey (agentId agent) id ∈ addedEdges (declaredEdge h map ty agent c name).
Proof.
  intros Hid Hne. unfold declaredEdge. rewrite Hid. simpl.
  rewrite bool_decide_eq_false_2 by done. simpl. apply addEdge_remembers.
Qed.

Lemma declaredEdges_adds (h : Host) (agentMap skillMap : gmap jsstring jsstring)
  agent c name id :
  (name ∈ subagents agent ∧ agentMap !! trim (toLowerCase h name) = Some id)
  ∨ (name ∈ skills agent ∧ skillMap !! trim (toLowerCase h name) = Some id) →
  id ≠ [] →
  edgeKey (agentId agent) id
  ∈ addedEdges (declaredEdges h agentMap skillMap c agent).
Proof.
  intros Hcase Hne. unfold declaredEdges.
  assert (Hfold : ∀ map ty names c0,
    edgeKey (agentId agent) id ∈ addedEdges c0 →
    edgeKey (agentId agent) id
    ∈ addedEdges (foldl (declaredEdge h map ty agent) c0 names)).
  { intros map ty names. induction names as [|n names IH]; intros c0 Hc0;
      simpl; [done|].
    apply IH.
    by apply (declaredEdge_keeps h (λ _, True) (λ _, True)
                (λ c, edgeKey (agentId agent) id ∈ addedEdges c)
                (known_kept agent id)). }
  destruct Hcase as [[Hin Hid]|[Hin Hid]].
  - apply Hfold.
    apply list_elem_of_split in Hin as (l1 & l2 & ->).
    rewrite foldl_app. simpl. by apply Hfold, declaredEdge_adds.
  - apply list_elem_of_split in Hin as (l1 & l2 & ->).
    rewrite foldl_app. simpl. by apply Hfold, declaredEdge_adds.
Qed.

Lemma collectEdges_declared (h : Host)
  (agentMap skillMap : gmap jsstring jsstring) (agents : list AgentNode)
  (skillNodes : list SkillNode) (commands : list CommandNode)
  (claudePath : jsstring) agent name id :
  agent ∈ agents →
  (name ∈ subagents agent ∧ agentMap !! trim (toLowerCase h name) = Some id)
  ∨ (name ∈ skills agent ∧ skillMap !! trim (toLowerCase h name) = Some id) →
  id ≠ [] →
  edgeKey (agentId agent) id
  ∈ addedEdges (collectEdges h agentMap skillMap agents skillNodes commands
                  claudePath).
Proof.
  intros (l1 & l2 & ->)%list_elem_of_split Hcase Hne. unfold collectEdges.
  apply (contentPass_keeps h (λ _, True) (λ _, True)
           (λ c, edgeKey (agentId agent) id ∈ addedEdges c)
           (known_kept agent id));
    try (by apply Forall_true).
  rewrite foldl_app. simpl.
  apply (declaredPass_keeps h (λ _, True) (λ _, True)
           (λ c, edgeKey (agentId agent) id ∈ addedEdges c)
           (known_kept agent id));
    try done; [by apply Forall_true|].
  by apply (declaredEdges_adds h agentMap skillMap agent _ name id).
Qed.

(** X28. A name of the [subagents] list of an agent whose trimmed lower
    case is a key of some agent (its lower-cased name, or its lower-cased id
    without the prefix) gives an edge from the agent to an agent with that
    key; and likewise a name of its [skills] list and the skills.  (Ids are
    not empty and no agent id contains an arrow.) *)
Theorem declared_name_is_linked (h : Host) (agents : list AgentNode)
  (skillNodes : list SkillNode) (commands : list CommandNode)
  (claudePath : jsstring) (es : list GraphEdge) (agent : AgentNode)
  (name : jsstring) :
  findRelationships h agents skillNodes commands claudePath = Ok es →
  agent ∈ agents →
  Forall (λ a, includes (str "->") (agentId a) = false) agents →
  (name ∈ subagents agent →
   Forall (λ a, agentId a ≠ []) agents →
   ∀ sub, sub ∈ agents →
     hasKey h (str "agent:") sub (trim (toLowerCase h name)) →
     ∃ e sub', e ∈ es ∧ source e = agentId agent ∧ target e = agentId sub'
               ∧ sub' ∈ agents
               ∧ hasKey h (str "agent:") sub' (trim (toLowerCase h name)))
  ∧ (name ∈ skills agent →
     Forall (λ s, skillId s ≠ []) skillNodes →
     ∀ sk, sk ∈ skillNodes →
       hasKey h (str "skill:") sk (trim (toLowerCase h name)) →
       ∃ e sk', e ∈ es ∧ source e = agentId agent ∧ target e = skillId sk'
                ∧ sk' ∈ skillNodes
                ∧ hasKey h (str "skill:") sk' (trim (toLowerCase h name))).
Proof.
  intros Hf Hagent Harrow. unfold findRelationships in Hf.
  destruct (buildMap h (str "agent:") agents) as [agentMap|] eqn:Ea; [|done].
  destruct (buildMap h (str "skill:") skillNodes) as [skillMap|] eqn:Es;
    [|done].
  destruct (buildMap h (str "command:") commands) as [commandMap|] eqn:Ec;
    [|done].
  injection Hf as <-.
  set (c := collectEdges h agentMap skillMap agents skillNodes commands
              claudePath).
  assert (Hwf : wellFormed c).
  { apply (collectEdges_keeps h (λ _, True) (λ _, True) wellFormed
             (λ s t ty c _ _, addEdge_wellFormed s t ty c));
      try done; try (by apply Forall_true).
    apply emptyCollector_wellFormed. }
  assert (Hadd : ∀ s t ty c0,
    s ∈ agentId <$> agents → True →
    Forall (λ e, source e ∈ agentId <$> agents) (collected c0) →
    Forall (λ e, source e ∈ agentId <$> agents)
           (collected (addEdge s t ty c0))).
  { intros s t ty c0 Hs _ Hc0. unfold addEdge.
    destruct (decide _); [done|]. simpl. apply Forall_app. split; [done|].
    by repeat constructor. }
  assert (Hsrc : Forall (λ e, source e ∈ agentId <$> agents) (collected c)).
  { apply (collectEdges_keeps h (λ s, s ∈ agentId <$> agents) (λ _, True)
             (λ c, Forall (λ e, source e ∈ agentId <$> agents) (collected c))
             Hadd);
      try done; try (by apply Forall_true); try (by constructor).
    apply Forall_forall. intros a Ha. by apply (list_elem_of_fmap_2 agentId). }
  split.
  - intros Hname Hids sub Hsub Hkey.
    destruct (buildMap_known h (str "agent:") agents agentMap sub _ Ea Hsub Hkey)
      as [id Hid].
    destruct (buildMap_lookup h (str "agent:") agents agentMap _ id Ea Hid)
      as (sub' & Hsub' & Eid & Hkey').
    assert (Hne : id ≠ []).
    { rewrite <- Eid. rewrite Forall_forall in Hids. by apply Hids. }
    destruct (known_key_edge agents c agent id Hwf Hsrc Harrow Hagent)
      as (e & He & Hs & Ht).
    { apply (collectEdges_declared h agentMap skillMap agents skillNodes
               commands claudePath agent name id Hagent); [|done].
      left. by split. }
    exists e, sub'. repeat split; try done. by rewrite Ht.
  - intros Hname Hids sk Hsk Hkey.
    destruct (buildMap_known h (str "skill:") skillNodes skillMap sk _ Es Hsk
                Hkey) as [id Hid].
    destruct (buildMap_lookup h (str "skill:") skillNodes skillMap _ id Es Hid)
      as (sk' & Hsk' & Eid & Hkey').
    assert (Hne : id ≠ []).
    { rewrite <- Eid. rewrite Forall_forall in Hids. by apply Hids. }
    destruct (known_key_edge agents c agent id Hwf Hsrc Harrow Hagent)
      as (e & He & Hs & Ht).
    { apply (collectEdges_declared h agentMap skillMap agents skillNodes
               commands claudePath agent name id Hagent); [|done].
      right. by split. }
    exists e, sk'. repeat split; try done. by rewrite Ht.
Qed.

Lemma declared_name_is_linked_witness :
  let lead :=
    agentOfFile demoHost Local (str "/p") (str "/p/.claude/agents")
      (str "lead.md")
      (doc ["---"; "name: lead"; "subagents:"; "  - helper"; "  - ghost";
            "skills: search"; "---"; "Ask helper, then search."]) in
  let helper :=
    agentOfFile demoHost Local (str "/p") (str "/p/.claude/agents")
      (str "helper.md") (doc ["---"; "name: helper"; "---"; "Helps."]) in
  ∃ es,
    findRelationships demoHost
      (scanAgents demoHost (str "/p/.claude") Local (str "/p"))
      (skillsOf (scanSkills demoHost (str "/p/.claude") Local (str "/p")))
      (scanCommands demoHost (str "/p/.claude") Local (str "/p"))
      (str "/p/.claude") = Ok es
    ∧ ∃ e sub', e ∈ es ∧ source e = agentId lead ∧ target e = agentId sub'
                ∧ sub' ∈ scanAgents demoHost (str "/p/.claude") Local (str "/p")
                ∧ hasKey demoHost (str "agent:") sub'
                    (trim (toLowerCase demoHost (str "helper"))).
Proof.
  intros lead helper.
  assert (H : ∃ es,
    findRelationships demoHost
      (scanAgents demoHost (str "/p/.claude") Local (str "/p"))
      (skillsOf (scanSkills demoHost (str "/p/.claude") Local (str "/p")))
      (scanCommands demoHost (str "/p/.claude") Local (str "/p"))
      (str "/p/.claude") = Ok es).
  { vm_compute. eauto. }
  destruct H as [es Hes]. exists es. split; [done|].
  assert (Hin : lead ∈ scanAgents demoHost (str "/p/.claude") Local (str "/p")).
  { vm_compute. left. }
  assert (Hhelper : helper
                    ∈ scanAgents demoHost (str "/p/.claude") Local (str "/p")).
  { vm_compute. right. left. }
  assert (Harrow : Forall (λ a, includes (str "->") (agentId a) = false)
                     (scanAgents demoHost (str "/p/.claude") Local (str "/p"))).
  { apply Forall_forall. intros a Ha. vm_compute in Ha.
    repeat (apply elem_of_cons in Ha as [->|Ha]; [vm_compute; reflexivity|]).
    by apply elem_of_nil in Ha. }
  apply (proj1 (declared_name_is_linked demoHost _ _ _ _ es lead (str "helper")
                  Hes Hin Harrow)) with helper.
  - vm_compute. left.
  - apply Forall_forall. intros a Ha. vm_compute in Ha.
    repeat (apply elem_of_cons in Ha as [->|Ha]; [vm_compute; discriminate|]).
    by apply elem_of_nil in Ha.
  - exact Hhelper.
  - left. vm_compute. reflexivity.
Defined.

(** ** Concrete runs *)

(** A front-matter block with a scalar, a quoted scalar and a list. *)
Example parse_front_matter :
  parseYamlFrontmatter
    (joinLF [str "---"; str "name: lead";
             str "description: " ++ DQUOTE :: str "Does X" ++ [DQUOTE];
             str "tools:"; str "  - Read"; str "  - Write"; str "---";
             str "Body."])
  = {[ str "name" := JString (str "lead");
       str "description" := JString (str "Does X");
       str "tools" := JArray [str "Read"; str "Write"] ]}.
Proof. vm_compute. reflexivity. Qed.

Example extract_body :
  extractBodyContent (doc ["---"; "name: lead"; "---"; ""; "Body."; ""])
  = str "Body.".
Proof. vm_compute. reflexivity. Qed.

(** The end-to-end scenario: the agent [lead] declares the subagent
    [helper] and the skill [search], and names both in its text; the name
    [ghost] of its [subagents] list is the name of no agent.  There is one
    edge to [helper] and one to [search]. *)
Example end_to_end_scenario :
  ∃ g, scanProject demoHost (str "/p") (str "/p/graph.json") defaultOptions
       = Ok g
       ∧ nodeId <$> nodes g
         = [str "agent:lead"; str "agent:helper"; str "skill:search"]
       ∧ edges g
         = [{| source := str "agent:lead"; target := str "agent:helper";
               type := Calls |};
            {| source := str "agent:lead"; target := str "skill:search";
               type := Uses |}]
       ∧ agentCount (metadata g) = 2 ∧ skillCount (metadata g) = 1
       ∧ commandCount (metadata g) = 0 ∧ edgeCount (metadata g) = 2.
Proof.
  eexists. split; [vm_compute; reflexivity|]. vm_compute. by repeat split.
Qed.
